(** * The distributed work coordinator of web/p2p/worker-coordinator.js

    A shallow embedding of the [WorkerCoordinator] class and the properties
    its specification states about it.

    Conventions of the embedding.
    - JavaScript strings are [string]; [===] on strings is [String.eqb].
      Status fields stay strings, as in the source.
    - The step count of a job is an integer ([Z]); progress values are exact
      rationals ([Q]) standing for the doubles of the source.
    - A JavaScript [Map] is an insertion-ordered association list ([JSMap]):
      [set] overwrites in place or appends, iteration follows insertion order.
    - Task objects are mutable and shared.  Every task object carries its
      identity ([oid]); it lives in exactly one of three places: the queue,
      the active slot ([currentTask]), or [detached] (objects that left the
      active slot but are still referenced by a suspended async body).
    - An [async] body runs synchronously up to its first [await]; what is
      left of it is a [Frame] in [pending], resumed by a timer event.
    - Everything the coordinator does to the outside (callbacks, network
      sends, the backend request, uncaught errors) is appended to [trace].
    - [_log] only writes to the console and the log subscriber; it is left
      out.  [_handleChunk] and [getStats] write or read nothing the
      scheduling depends on; they are functions of the state, defined after
      the scheduling.  [Date.now()] is the clock reading [now] of the event
      handled.

    The queue store of serv/server.js, the [P2PNetwork] class of
    p2p-network.js and the wiring of the page (web/p2p/p2p-diffusion.js)
    follow the coordinator, each in a module of its own. *)

From Stdlib Require Import ZArith QArith Lia Ascii.
From stdpp Require Import strings pretty option relations base gmap list.

Open Scope Z_scope.

(** ** JavaScript [Map] with string keys *)

Module JSMap.
Section JSMap.
Context {V : Type}.

Definition t := list (string * V).

Definition empty : t := [].

Fixpoint get (k : string) (m : t) : option V :=
  match m with
  | [] => None
  | (k', v) :: m' => if String.eqb k' k then Some v else get k m'
  end.

Fixpoint set (k : string) (v : V) (m : t) : t :=
  match m with
  | [] => [(k, v)]
  | (k', v') :: m' =>
      if String.eqb k' k then (k, v) :: m' else (k', v') :: set k v m'
  end.

Fixpoint delete (k : string) (m : t) : t :=
  match m with
  | [] => []
  | (k', v') :: m' =>
      if String.eqb k' k then m' else (k', v') :: delete k m'
  end.

Definition keys (m : t) : list string := map fst m.
Definition values (m : t) : list V := map snd m.
Definition size (m : t) : nat := length m.
End JSMap.
Arguments t : clear implicits.
End JSMap.

(** ** Data model *)

Record Capabilities := { hasGPU : bool }.

(** An entry of [this.workers] (peer id -> worker state). *)
Record Worker := {
  worker_id : string;
  worker_capabilities : Capabilities;
  worker_status : string;
  currentChunk : option string;
  worker_progress : Q
}.

(** [this.localWorker], as [setLocalCapabilities] builds it: it has no
    [progress] property unless something assigns one. *)
Record LocalWorker := {
  local_capabilities : Capabilities;
  local_status : string;
  local_progress : option Q
}.

(** An element of the array [_getAvailableWorkers] returns. *)
Record Candidate := {
  cand_id : string;
  cand_capabilities : Capabilities;
  isLocal : bool
}.

Record Chunk := {
  chunk_id : string;
  chunk_taskId : string;
  startStep : Z;
  endStep : Z;
  workerIndex : nat;
  chunk_status : string
}.

Record Result := {
  result_taskId : string;
  result_chunkId : string;
  result_workerId : string;
  result_status : string
}.

Record TaskOptions := {
  model : string;
  steps : Z;
  width : Z;
  height : Z
}.

(** The [options] argument of [addTask]: every property may be absent. *)
Record OptionsArg := {
  arg_model : option string;
  arg_steps : option Z;
  arg_width : option Z;
  arg_height : option Z
}.

Record Task := {
  oid : nat;
  task_id : string;
  task_type : string;
  prompt : option string;
  negativePrompt : string;
  options : option TaskOptions;
  createdAt : Z;
  createdBy : string;
  status : string;
  chunks : option (list Chunk);
  results : option (JSMap.t Result);
  assignedWorkers : option (JSMap.t string);
  completedAt : option Z;
  receivedFrom : option string
}.

(** A task-like object as it arrives from the transport.  Property values
    that are [Map]s do not survive serialisation, so no [results] and no
    [assignedWorkers]; every other property may be missing. *)
Record WireTask := {
  wire_id : string;
  wire_type : string;
  wire_prompt : option string;
  wire_status : string;
  wire_options : option TaskOptions;
  wire_chunks : option (list Chunk);
  wire_chunk : option Chunk;
  wire_createdAt : Z;
  wire_createdBy : string
}.

(** One entry of the queue projection [_broadcastQueueUpdate] sends. *)
Record Projection := {
  proj_id : string;
  proj_prompt : option string;
  proj_status : string;
  proj_createdBy : string;
  proj_createdAt : Z
}.

(** [{ ...task, chunk, type: 'process_chunk' }] *)
Record WorkerTask := {
  wt_task : Task;
  wt_chunk : Chunk
}.

Record ProgressMsg := {
  progress_taskId : string;
  progress_value : Q
}.

Record QueueData := { tasks : option (list WireTask) }.

(** What the coordinator does to its collaborators. *)
Inductive Effect :=
| BroadcastQueueUpdate (projection : list Projection)
| BroadcastTask (workerTask : WorkerTask) (targets : list string)
| BroadcastProgress (taskId chunkId : string) (progress : Q) (workerId : string)
| BackendPost (url : string) (task : Task)
| OnQueueChange (queue : list Task)
| OnProgressJob (taskId : string) (step totalSteps : Z) (progress : Q) (stage : string)
| OnProgressChunk (taskId chunkId : string) (step totalSteps : Z) (progress : Q)
| OnProgressAggregate (taskId : string) (progress : Q) (workers : nat)
| OnComplete (task : Task)
| Uncaught (error : string).

(** A suspended [async] body, waiting on its 100 ms timer.
    - [ProcessLocally task totalSteps step]: [_processLocally(task)] inside
      iteration [step] of its loop;
    - [ProcessChunkLocally workerTask owner i]: [_processChunkLocally]
      inside iteration [i]; [owner] is the identity of the task object whose
      [chunks] array holds [workerTask.chunk], or [None] when the chunk
      object arrived over the network and is shared with nothing. *)
Inductive Frame :=
| ProcessLocally (task : Task) (totalSteps : Z) (step : Z)
| ProcessChunkLocally (workerTask : WorkerTask) (owner : option nat) (i : Z).

Record Coordinator := {
  selfId : string;
  queue : list Task;
  currentTask : option Task;
  workers : JSMap.t Worker;
  localWorker : option LocalWorker;
  onProgressCallback : bool;
  onCompleteCallback : bool;
  onQueueChangeCallback : bool;
  backendUrl : option string;
  backendAvailable : bool;
  detached : list Task;
  pending : list Frame;
  nextOid : nat;
  trace : list Effect
}.

(** ** Field updates *)

Definition set_queue (q : list Task) (s : Coordinator) : Coordinator :=
  {| selfId := selfId s; queue := q; currentTask := currentTask s;
     workers := workers s; localWorker := localWorker s;
     onProgressCallback := onProgressCallback s;
     onCompleteCallback := onCompleteCallback s;
     onQueueChangeCallback := onQueueChangeCallback s;
     backendUrl := backendUrl s; backendAvailable := backendAvailable s;
     detached := detached s; pending := pending s; nextOid := nextOid s;
     trace := trace s |}.

Definition set_currentTask (c : option Task) (s : Coordinator) : Coordinator :=
  {| selfId := selfId s; queue := queue s; currentTask := c;
     workers := workers s; localWorker := localWorker s;
     onProgressCallback := onProgressCallback s;
     onCompleteCallback := onCompleteCallback s;
     onQueueChangeCallback := onQueueChangeCallback s;
     backendUrl := backendUrl s; backendAvailable := backendAvailable s;
     detached := detached s; pending := pending s; nextOid := nextOid s;
     trace := trace s |}.

Definition set_workers (w : JSMap.t Worker) (s : Coordinator) : Coordinator :=
  {| selfId := selfId s; queue := queue s; currentTask := currentTask s;
     workers := w; localWorker := localWorker s;
     onProgressCallback := onProgressCallback s;
     onCompleteCallback := onCompleteCallback s;
     onQueueChangeCallback := onQueueChangeCallback s;
     backendUrl := backendUrl s; backendAvailable := backendAvailable s;
     detached := detached s; pending := pending s; nextOid := nextOid s;
     trace := trace s |}.

Definition set_localWorker (l : option LocalWorker) (s : Coordinator) : Coordinator :=
  {| selfId := selfId s; queue := queue s; currentTask := currentTask s;
     workers := workers s; localWorker := l;
     onProgressCallback := onProgressCallback s;
     onCompleteCallback := onCompleteCallback s;
     onQueueChangeCallback := onQueueChangeCallback s;
     backendUrl := backendUrl s; backendAvailable := backendAvailable s;
     detached := detached s; pending := pending s; nextOid := nextOid s;
     trace := trace s |}.

Definition set_callbacks (p c q : bool) (s : Coordinator) : Coordinator :=
  {| selfId := selfId s; queue := queue s; currentTask := currentTask s;
     workers := workers s; localWorker := localWorker s;
     onProgressCallback := p; onCompleteCallback := c;
     onQueueChangeCallback := q;
     backendUrl := backendUrl s; backendAvailable := backendAvailable s;
     detached := detached s; pending := pending s; nextOid := nextOid s;
     trace := trace s |}.

Definition set_backend (u : option string) (a : bool) (s : Coordinator) : Coordinator :=
  {| selfId := selfId s; queue := queue s; currentTask := currentTask s;
     workers := workers s; localWorker := localWorker s;
     onProgressCallback := onProgressCallback s;
     onCompleteCallback := onCompleteCallback s;
     onQueueChangeCallback := onQueueChangeCallback s;
     backendUrl := u; backendAvailable := a;
     detached := detached s; pending := pending s; nextOid := nextOid s;
     trace := trace s |}.

Definition set_detached (d : list Task) (s : Coordinator) : Coordinator :=
  {| selfId := selfId s; queue := queue s; currentTask := currentTask s;
     workers := workers s; localWorker := localWorker s;
     onProgressCallback := onProgressCallback s;
     onCompleteCallback := onCompleteCallback s;
     onQueueChangeCallback := onQueueChangeCallback s;
     backendUrl := backendUrl s; backendAvailable := backendAvailable s;
     detached := d; pending := pending s; nextOid := nextOid s;
     trace := trace s |}.

Definition set_pending (p : list Frame) (s : Coordinator) : Coordinator :=
  {| selfId := selfId s; queue := queue s; currentTask := currentTask s;
     workers := workers s; localWorker := localWorker s;
     onProgressCallback := onProgressCallback s;
     onCompleteCallback := onCompleteCallback s;
     onQueueChangeCallback := onQueueChangeCallback s;
     backendUrl := backendUrl s; backendAvailable := backendAvailable s;
     detached := detached s; pending := p; nextOid := nextOid s;
     trace := trace s |}.

Definition set_nextOid (n : nat) (s : Coordinator) : Coordinator :=
  {| selfId := selfId s; queue := queue s; currentTask := currentTask s;
     workers := workers s; localWorker := localWorker s;
     onProgressCallback := onProgressCallback s;
     onCompleteCallback := onCompleteCallback s;
     onQueueChangeCallback := onQueueChangeCallback s;
     backendUrl := backendUrl s; backendAvailable := backendAvailable s;
     detached := detached s; pending := pending s; nextOid := n;
     trace := trace s |}.

Definition set_trace (tr : list Effect) (s : Coordinator) : Coordinator :=
  {| selfId := selfId s; queue := queue s; currentTask := currentTask s;
     workers := workers s; localWorker := localWorker s;
     onProgressCallback := onProgressCallback s;
     onCompleteCallback := onCompleteCallback s;
     onQueueChangeCallback := onQueueChangeCallback s;
     backendUrl := backendUrl s; backendAvailable := backendAvailable s;
     detached := detached s; pending := pending s; nextOid := nextOid s;
     trace := tr |}.

Definition set_status (st : string) (t : Task) : Task :=
  {| oid := oid t; task_id := task_id t; task_type := task_type t;
     prompt := prompt t; negativePrompt := negativePrompt t;
     options := options t; createdAt := createdAt t; createdBy := createdBy t;
     status := st; chunks := chunks t; results := results t;
     assignedWorkers := assignedWorkers t; completedAt := completedAt t;
     receivedFrom := receivedFrom t |}.

Definition set_chunks (cs : option (list Chunk)) (t : Task) : Task :=
  {| oid := oid t; task_id := task_id t; task_type := task_type t;
     prompt := prompt t; negativePrompt := negativePrompt t;
     options := options t; createdAt := createdAt t; createdBy := createdBy t;
     status := status t; chunks := cs; results := results t;
     assignedWorkers := assignedWorkers t; completedAt := completedAt t;
     receivedFrom := receivedFrom t |}.

Definition set_results (r : option (JSMap.t Result)) (t : Task) : Task :=
  {| oid := oid t; task_id := task_id t; task_type := task_type t;
     prompt := prompt t; negativePrompt := negativePrompt t;
     options := options t; createdAt := createdAt t; createdBy := createdBy t;
     status := status t; chunks := chunks t; results := r;
     assignedWorkers := assignedWorkers t; completedAt := completedAt t;
     receivedFrom := receivedFrom t |}.

Definition set_assignedWorkers (a : option (JSMap.t string)) (t : Task) : Task :=
  {| oid := oid t; task_id := task_id t; task_type := task_type t;
     prompt := prompt t; negativePrompt := negativePrompt t;
     options := options t; createdAt := createdAt t; createdBy := createdBy t;
     status := status t; chunks := chunks t; results := results t;
     assignedWorkers := a; completedAt := completedAt t;
     receivedFrom := receivedFrom t |}.

Definition set_completedAt (c : option Z) (t : Task) : Task :=
  {| oid := oid t; task_id := task_id t; task_type := task_type t;
     prompt := prompt t; negativePrompt := negativePrompt t;
     options := options t; createdAt := createdAt t; createdBy := createdBy t;
     status := status t; chunks := chunks t; results := results t;
     assignedWorkers := assignedWorkers t; completedAt := c;
     receivedFrom := receivedFrom t |}.

Definition set_chunk_status (st : string) (c : Chunk) : Chunk :=
  {| chunk_id := chunk_id c; chunk_taskId := chunk_taskId c;
     startStep := startStep c; endStep := endStep c;
     workerIndex := workerIndex c; chunk_status := st |}.

(** The trace grows at its end. *)
Definition emit (e : Effect) (s : Coordinator) : Coordinator :=
  set_trace (trace s ++ [e]) s.

(** An exception nobody catches: the rest of the running body is skipped. *)
Definition throw (error : string) (s : Coordinator) : Coordinator :=
  emit (Uncaught error) s.

(** ** The shared task objects *)

Definition has_oid (o : nat) (t : Task) : bool := Nat.eqb (oid t) o.

(** The object with identity [o], if it has left the queue. *)
Definition lookup_task (o : nat) (s : Coordinator) : option Task :=
  match currentTask s with
  | Some t => if has_oid o t then Some t else List.find (has_oid o) (detached s)
  | None => List.find (has_oid o) (detached s)
  end.

(** A write through a reference to the object with identity [o]. *)
Definition update_task (o : nat) (f : Task -> Task) (s : Coordinator) : Coordinator :=
  let in_detached :=
    set_detached (map (fun t => if has_oid o t then f t else t) (detached s)) s in
  match currentTask s with
  | Some t => if has_oid o t then set_currentTask (Some (f t)) s else in_detached
  | None => in_detached
  end.

(** A read through the reference [task]: the present value of the object it
    denotes. *)
Definition deref (task : Task) (s : Coordinator) : Task :=
  default task (lookup_task (oid task) s).

(** [this.currentTask = null]; the object itself stays reachable from the
    suspended bodies that hold it. *)
Definition clear_currentTask (s : Coordinator) : Coordinator :=
  match currentTask s with
  | Some t => set_detached (detached s ++ [t]) (set_currentTask None s)
  | None => s
  end.

(** [chunk.status = st] for the chunk object with id [cid] of a [chunks]
    array ([find] semantics: the first one). *)
Fixpoint write_chunk_status (cid st : string) (cs : list Chunk) : list Chunk :=
  match cs with
  | [] => []
  | c :: cs' =>
      if String.eqb (chunk_id c) cid then set_chunk_status st c :: cs'
      else c :: write_chunk_status cid st cs'
  end.

Definition mark_chunk (cid st : string) (t : Task) : Task :=
  set_chunks (option_map (write_chunk_status cid st) (chunks t)) t.

(** ** Candidate workers *)

Definition is_idle_gpu (w : Worker) : bool :=
  String.eqb (worker_status w) "idle" && hasGPU (worker_capabilities w).

Definition as_candidate (w : Worker) : Candidate :=
  {| cand_id := worker_id w; cand_capabilities := worker_capabilities w;
     isLocal := false |}.

(** [_getAvailableWorkers]: self first when it has a GPU, then the idle
    GPU peers in the order of [this.workers]. *)
Definition _getAvailableWorkers (s : Coordinator) : list Candidate :=
  (match localWorker s with
   | Some lw =>
       if hasGPU (local_capabilities lw)
       then [ {| cand_id := selfId s;
                 cand_capabilities := local_capabilities lw;
                 isLocal := true |} ]
       else []
   | None => []
   end)
  ++ map as_candidate (List.filter is_idle_gpu (JSMap.values (workers s))).

(** [Math.ceil(totalSteps / numWorkers)] on integers, [numWorkers >= 1]. *)
Definition ceil_div (totalSteps : Z) (numWorkers : nat) : Z :=
  - ((- totalSteps) / Z.of_nat numWorkers).

(** Truthiness of a nullable object reference. *)
Definition isSome {A : Type} (o : option A) : bool :=
  match o with Some _ => true | None => false end.

Definition is_complete (r : Result) : bool :=
  String.eqb (result_status r) "complete".

(** [Array.from(results.values()).filter(r => r.status === 'complete').length] *)
Definition completedChunks (m : JSMap.t Result) : nat :=
  length (List.filter is_complete (JSMap.values m)).

Definition stage_of (step totalSteps : Z) : string :=
  if step <? 1 then "clip"
  else if step <? totalSteps - 1 then "unet" else "vae".

(** ** The bodies of the scheduling methods

    Every method that ends by calling [this._processNextTask()] takes that
    call as [next]; [now] is the clock of the event being handled. *)

(** The chunk object iteration [i] of [_distributeWork] builds. *)
Definition new_chunk (taskId : string) (totalSteps chunksPerWorker : Z)
    (i : nat) : Chunk :=
  let startStep := Z.of_nat i * chunksPerWorker in
  let endStep := Z.min (startStep + chunksPerWorker) totalSteps in
  {| chunk_id := "chunk_" +:+ pretty i; chunk_taskId := taskId;
     startStep := startStep; endStep := endStep;
     workerIndex := i; chunk_status := "pending" |}.

Module Body.
Section Body.
Variable now : Z.
Variable next : Coordinator -> Coordinator.

Definition _completeTask (s : Coordinator) : Coordinator :=
  match currentTask s with
  | None => throw "TypeError" s
  | Some t =>
      let t' := set_completedAt (Some now) (set_status "complete" t) in
      let s := set_currentTask (Some t') s in
      let s := if onCompleteCallback s then emit (OnComplete t') s else s in
      let s := clear_currentTask s in
      next s
  end.

Definition _handleResult (result : Result) (peerId : string)
    (s : Coordinator) : Coordinator :=
  match currentTask s with
  | None => s
  | Some t =>
      if negb (String.eqb (result_taskId result) (task_id t)) then s
      else
        match results t with
        | None => throw "TypeError" s
        | Some m =>
            let m' := JSMap.set (result_chunkId result) result m in
            let s := set_currentTask (Some (set_results (Some m') t)) s in
            match chunks t with
            | None => throw "TypeError" s
            | Some cs =>
                if Nat.eqb (completedChunks m') (length cs)
                then _completeTask s
                else s
            end
        end
  end.

(** [_processChunkLocally] from the test [i < steps] of its loop on. *)
Definition _processChunkLocally_loop (workerTask : WorkerTask)
    (owner : option nat) (i : Z) (s : Coordinator) : Coordinator :=
  let chunk := wt_chunk workerTask in
  let task := wt_task workerTask in
  let chunkSteps := endStep chunk - startStep chunk in
  if i <? chunkSteps then
    let progress := (inject_Z (i + 1) / inject_Z chunkSteps)%Q in
    let rest s :=
      let s := emit (BroadcastProgress (task_id task) (chunk_id chunk)
                       progress (selfId s)) s in
      set_pending (pending s ++ [ProcessChunkLocally workerTask owner i]) s in
    if onProgressCallback s then
      match options task with
      | None => throw "TypeError" s
      | Some o =>
          rest (emit (OnProgressChunk (task_id task) (chunk_id chunk)
                        (startStep chunk + i + 1) (steps o) progress) s)
      end
    else rest s
  else
    let s := match owner with
             | Some o => update_task o (mark_chunk (chunk_id chunk) "complete") s
             | None => s
             end in
    _handleResult
      {| result_taskId := task_id task; result_chunkId := chunk_id chunk;
         result_workerId := selfId s; result_status := "complete" |}
      (selfId s) s.

Definition _processChunkLocally (workerTask : WorkerTask)
    (owner : option nat) (s : Coordinator) : Coordinator :=
  _processChunkLocally_loop workerTask owner 0 s.

(** [_processLocally] from the test [step < totalSteps] of its loop on. *)
Definition _processLocally_loop (task : Task) (totalSteps step : Z)
    (s : Coordinator) : Coordinator :=
  if step <? totalSteps then
    let progress := (inject_Z (step + 1) / inject_Z totalSteps)%Q in
    let s := if onProgressCallback s
             then emit (OnProgressJob (task_id task) (step + 1) totalSteps
                          progress (stage_of step totalSteps)) s
             else s in
    set_pending (pending s ++ [ProcessLocally task totalSteps step]) s
  else
    let s := update_task (oid task)
               (fun t => set_completedAt (Some now) (set_status "complete" t)) s in
    let s := if onCompleteCallback s
             then emit (OnComplete (deref task s)) s else s in
    let s := clear_currentTask s in
    next s.

Definition _processLocally (task : Task) (s : Coordinator) : Coordinator :=
  match options task with
  | None => throw "TypeError" s
  | Some o => _processLocally_loop task (steps o) 0 s
  end.

Definition set_working (cid : string) (w : Worker) : Worker :=
  {| worker_id := worker_id w; worker_capabilities := worker_capabilities w;
     worker_status := "working"; currentChunk := Some cid;
     worker_progress := worker_progress w |}.

Definition push_chunk (chunk : Chunk) (worker : Candidate) (t : Task) : Task :=
  set_assignedWorkers
    (option_map (JSMap.set (cand_id worker) (chunk_id chunk)) (assignedWorkers t))
    (set_chunks (option_map (fun cs => cs ++ [chunk]) (chunks t)) t).

(** The [for] loop of [_distributeWork], at index [i] with [workers[i..]]
    still to visit. *)
Fixpoint _distributeWork_loop (task : Task) (totalSteps chunksPerWorker : Z)
    (i : nat) (rest : list Candidate) (s : Coordinator) : Coordinator :=
  match rest with
  | [] => s
  | worker :: rest' =>
      let startStep := Z.of_nat i * chunksPerWorker in
      if totalSteps <=? startStep then s
      else
        let chunk := new_chunk (task_id task) totalSteps chunksPerWorker i in
        let s := update_task (oid task) (push_chunk chunk worker) s in
        let s :=
          if isLocal worker then s
          else match JSMap.get (cand_id worker) (workers s) with
               | Some peerWorker =>
                   set_workers
                     (JSMap.set (cand_id worker)
                        (set_working (chunk_id chunk) peerWorker) (workers s)) s
               | None => s
               end in
        let workerTask := {| wt_task := deref task s; wt_chunk := chunk |} in
        let s :=
          if isLocal worker
          then _processChunkLocally workerTask (Some (oid task)) s
          else emit (BroadcastTask workerTask [cand_id worker]) s in
        _distributeWork_loop task totalSteps chunksPerWorker (S i) rest' s
  end.

Definition _distributeWork (task : Task) (workers : list Candidate)
    (s : Coordinator) : Coordinator :=
  let numWorkers := length workers in
  match options task with
  | None => throw "TypeError" s
  | Some o =>
      let totalSteps := steps o in
      let chunksPerWorker := ceil_div totalSteps numWorkers in
      let s := update_task (oid task)
                 (fun t => set_assignedWorkers (Some JSMap.empty)
                             (set_chunks (Some []) t)) s in
      _distributeWork_loop task totalSteps chunksPerWorker 0 workers s
  end.

(** One activation of [_processNextTask]. *)
Definition _processNextTask (s : Coordinator) : Coordinator :=
  match currentTask s, queue s with
  | Some _, _ => s
  | None, [] => s
  | None, t :: q =>
      let t := set_status "processing" t in
      let s := set_currentTask (Some t) (set_queue q s) in
      let availableWorkers := _getAvailableWorkers s in
      if Nat.eqb (length availableWorkers) 0
      then _processLocally t s
      else _distributeWork t availableWorkers s
  end.

Definition _handleWorkerDisconnect (peerId : string)
    (s : Coordinator) : Coordinator :=
  let remove s := set_workers (JSMap.delete peerId (workers s)) s in
  match JSMap.get peerId (workers s), currentTask s with
  | Some worker, Some t =>
      match currentChunk worker with
      | None => remove s
      | Some cid =>
          match chunks t with
          | None => throw "TypeError" s
          | Some cs =>
              match List.find (fun c => String.eqb (chunk_id c) cid) cs with
              | None => remove s
              | Some chunk =>
                  if negb (String.eqb (chunk_status chunk) "complete") then
                    let s := update_task (oid t) (mark_chunk cid "pending") s in
                    let chunk := set_chunk_status "pending" chunk in
                    let workerTask :=
                      {| wt_task := deref t s; wt_chunk := chunk |} in
                    let s :=
                      match _getAvailableWorkers s with
                      | newWorker :: _ =>
                          emit (BroadcastTask workerTask [cand_id newWorker]) s
                      | [] => _processChunkLocally workerTask (Some (oid t)) s
                      end in
                    remove s
                  else remove s
              end
          end
      end
  | _, _ => remove s
  end.

End Body.
End Body.

(** [this._processNextTask()].  An activation either returns at once or
    takes one job off the queue before anything calls it again, so the
    activations nested in one call are at most one more than the queued
    jobs; [_processNextTask_fuel_enough] shows that the bound is never
    reached. *)
Fixpoint _processNextTask_fuel (fuel : nat) (now : Z) (s : Coordinator) : Coordinator :=
  match fuel with
  | O => s
  | S fuel' => Body._processNextTask now (_processNextTask_fuel fuel' now) s
  end.

Definition _processNextTask (now : Z) (s : Coordinator) : Coordinator :=
  _processNextTask_fuel (S (length (queue s))) now s.

Definition _completeTask (now : Z) : Coordinator -> Coordinator :=
  Body._completeTask now (_processNextTask now).

Definition _handleResult (now : Z) : Result -> string -> Coordinator -> Coordinator :=
  Body._handleResult now (_processNextTask now).

Definition _processChunkLocally (now : Z) :
    WorkerTask -> option nat -> Coordinator -> Coordinator :=
  Body._processChunkLocally now (_processNextTask now).

Definition _processLocally (now : Z) : Task -> Coordinator -> Coordinator :=
  Body._processLocally now (_processNextTask now).

Definition _distributeWork (now : Z) :
    Task -> list Candidate -> Coordinator -> Coordinator :=
  Body._distributeWork now (_processNextTask now).

Definition _handleWorkerDisconnect (now : Z) : string -> Coordinator -> Coordinator :=
  Body._handleWorkerDisconnect now (_processNextTask now).

(** ** Queue synchronisation *)

Definition project (t : Task) : Projection :=
  {| proj_id := task_id t; proj_prompt := prompt t; proj_status := status t;
     proj_createdBy := createdBy t; proj_createdAt := createdAt t |}.

Definition _broadcastQueueUpdate (s : Coordinator) : Coordinator :=
  emit (BroadcastQueueUpdate (map project (queue s))) s.

(** The object a received task-like value becomes on this side. *)
Definition of_wire (o : nat) (from : option string) (w : WireTask) : Task :=
  {| oid := o; task_id := wire_id w; task_type := wire_type w;
     prompt := wire_prompt w; negativePrompt := "";
     options := wire_options w; createdAt := wire_createdAt w;
     createdBy := wire_createdBy w; status := wire_status w;
     chunks := wire_chunks w; results := None; assignedWorkers := None;
     completedAt := None; receivedFrom := from |}.

(** [this.queue.find(t => t.id === task.id)] as a truth value. *)
Definition in_queue (id : string) (q : list Task) : bool :=
  existsb (fun t => String.eqb (task_id t) id) q.

(** The [for] loop of [_syncQueue]. *)
Fixpoint _syncQueue_loop (incoming : list WireTask) (s : Coordinator) : Coordinator :=
  match incoming with
  | [] => s
  | task :: rest =>
      let s :=
        if negb (in_queue (wire_id task) (queue s))
        then set_nextOid (S (nextOid s))
               (set_queue (queue s ++ [of_wire (nextOid s) None task]) s)
        else s in
      _syncQueue_loop rest s
  end.

Definition _syncQueue (queueData : QueueData) (peerId : string)
    (s : Coordinator) : Coordinator :=
  let s := _syncQueue_loop (default [] (tasks queueData)) s in
  if onQueueChangeCallback s then emit (OnQueueChange (queue s)) s else s.

(** ** Admission *)

Definition _notifyBackend (task : Task) (s : Coordinator) : Coordinator :=
  if negb (backendAvailable s) then s
  else match backendUrl s with
       | None => s
       | Some url =>
           if String.eqb url "" then s
           else emit (BackendPost (url +:+ "/queue") task) s
       end.

Definition make_options (o : OptionsArg) : TaskOptions :=
  {| model := default "prx-1024" (arg_model o);
     steps := default 20 (arg_steps o);
     width := default 1024 (arg_width o);
     height := default 1024 (arg_height o) |}.

(** How the promise of an [async] method settles. *)
Inductive Settled (A : Type) :=
| Fulfilled (value : A)
| Rejected (error : string).
Arguments Fulfilled {A} value.
Arguments Rejected {A} error.

(** The task object [addTask] builds.  [rnd] is the text
    [Math.random().toString(36).slice(2, 9)] evaluates to; a missing
    [prompt] argument is [None]. *)
Definition new_task (now : Z) (rnd : string) (prompt : option string)
    (negativePrompt : string) (options : OptionsArg) (s : Coordinator) : Task :=
  {| oid := nextOid s;
     task_id := "task_" +:+ pretty now +:+ "_" +:+ rnd;
     task_type := "generate";
     prompt := prompt; negativePrompt := negativePrompt;
     options := Some (make_options options);
     createdAt := now; createdBy := selfId s;
     status := "pending"; chunks := Some [];
     results := Some JSMap.empty; assignedWorkers := None;
     completedAt := None; receivedFrom := None |}.

(** [addTask(prompt, negativePrompt, options)]: how the returned promise
    settles, and the state at that point. *)
Definition addTask (now : Z) (rnd : string) (prompt : option string)
    (negativePrompt : string) (options : OptionsArg)
    (s : Coordinator) : Settled string * Coordinator :=
  let task := new_task now rnd prompt negativePrompt options s in
  let s := set_nextOid (S (nextOid s)) s in
  let s := set_queue (queue s ++ [task]) s in
  let s := _broadcastQueueUpdate s in
  let s := if backendAvailable s then _notifyBackend task s else s in
  let s := if onQueueChangeCallback s then emit (OnQueueChange (queue s)) s else s in
  let s := _processNextTask now s in
  (Fulfilled (task_id task), s).

(** [startGeneration] of p2p-diffusion.js, the caller of [addTask], as far
    as the coordinator is concerned.  [prompt] and [negativePrompt] are the
    trimmed texts of the form fields, [isConnected] stands for the test
    [this.isConnected && this.coordinator]; the result is [None] when the
    handler returns without calling [addTask]. *)
Definition startGeneration (now : Z) (rnd : string) (isConnected : bool)
    (prompt negativePrompt model : string)
    (s : Coordinator) : option (Settled string) * Coordinator :=
  if negb isConnected then (None, s)
  else if String.eqb prompt "" then (None, s)
  else
    let r := addTask now rnd (Some prompt) negativePrompt
               {| arg_model := Some model; arg_steps := None;
                  arg_width := None; arg_height := None |} s in
    (Some (fst r), snd r).

(** [_handleIncomingTask(task, peerId)] *)
Definition _handleIncomingTask (now : Z) (task : WireTask) (peerId : string)
    (s : Coordinator) : Coordinator :=
  if String.eqb (wire_type task) "process_chunk" then
    match wire_chunk task with
    | None => throw "TypeError" s
    | Some chunk =>
        let t := of_wire (nextOid s) None task in
        _processChunkLocally now {| wt_task := t; wt_chunk := chunk |} None
          (set_nextOid (S (nextOid s)) s)
    end
  else if String.eqb (wire_type task) "generate" then
    let t := of_wire (nextOid s) (Some peerId) task in
    let s := set_nextOid (S (nextOid s)) s in
    _processNextTask now (set_queue (queue s ++ [t]) s)
  else s.

(** ** Registry and progress *)

(** The [network.onCapabilities] handler. *)
Definition onCapabilities (capabilities : Capabilities) (peerId : string)
    (s : Coordinator) : Coordinator :=
  set_workers
    (JSMap.set peerId
       {| worker_id := peerId; worker_capabilities := capabilities;
          worker_status := "idle"; currentChunk := None;
          worker_progress := 0%Q |} (workers s)) s.

Definition setLocalCapabilities (capabilities : Capabilities)
    (s : Coordinator) : Coordinator :=
  set_localWorker
    (Some {| local_capabilities := capabilities; local_status := "idle";
             local_progress := None |}) s.

Definition set_progress (p : Q) (w : Worker) : Worker :=
  {| worker_id := worker_id w; worker_capabilities := worker_capabilities w;
     worker_status := worker_status w; currentChunk := currentChunk w;
     worker_progress := p |}.

Definition is_working (w : Worker) : bool :=
  String.eqb (worker_status w) "working".

(** The array [allProgress] of [_updateWorkerProgress]. *)
Definition allProgress (s : Coordinator) : list Q :=
  map worker_progress (List.filter is_working (JSMap.values (workers s)))
  ++ match localWorker s with
     | Some lw => match local_progress lw with Some p => [p] | None => [] end
     | None => []
     end.

(** [allProgress.reduce((a, b) => a + b, 0) / allProgress.length], or 0.
    The sum and the quotient are the exact ones; the source rounds each to
    a double, so the two agree only where no rounding occurs, and nothing
    below is stated about the mean of arbitrary reports. *)
Definition avgProgress (ps : list Q) : Q :=
  if Nat.ltb 0 (length ps)
  then (fold_left Qplus ps 0 / inject_Z (Z.of_nat (length ps)))%Q
  else 0%Q.

Definition _updateWorkerProgress (peerId : string) (progress : ProgressMsg)
    (s : Coordinator) : Coordinator :=
  let s := match JSMap.get peerId (workers s) with
           | Some worker =>
               set_workers
                 (JSMap.set peerId (set_progress (progress_value progress) worker)
                    (workers s)) s
           | None => s
           end in
  if onProgressCallback s && isSome (currentTask s) then
    emit (OnProgressAggregate (progress_taskId progress)
            (avgProgress (allProgress s)) (JSMap.size (workers s) + 1)) s
  else s.

(** ** Timers, registrations, queries *)

(** The timer of the [k]-th suspended body fires: the body leaves its
    [await], increments its loop counter and goes on. *)
Definition resume (now : Z) (k : nat) (s : Coordinator) : Coordinator :=
  match pending s !! k with
  | None => s
  | Some frame =>
      let s := set_pending (take k (pending s) ++ drop (S k) (pending s)) s in
      match frame with
      | ProcessLocally task totalSteps step =>
          Body._processLocally_loop now (_processNextTask now)
            task totalSteps (step + 1) s
      | ProcessChunkLocally workerTask owner i =>
          Body._processChunkLocally_loop now (_processNextTask now)
            workerTask owner (i + 1) s
      end
  end.

Definition onProgress (registered : bool) (s : Coordinator) : Coordinator :=
  set_callbacks registered (onCompleteCallback s) (onQueueChangeCallback s) s.
Definition onComplete (registered : bool) (s : Coordinator) : Coordinator :=
  set_callbacks (onProgressCallback s) registered (onQueueChangeCallback s) s.
Definition onQueueChange (registered : bool) (s : Coordinator) : Coordinator :=
  set_callbacks (onProgressCallback s) (onCompleteCallback s) registered s.

(** The outcome of [checkBackend]'s request: [Some true] for an ok response
    ([base] is the url without ['/health']), [Some false] for another
    response, [None] when the request failed. *)
Definition checkBackend (outcome : option bool) (base : string)
    (s : Coordinator) : Coordinator :=
  match outcome with
  | Some true => set_backend (Some base) true s
  | Some false => s
  | None => set_backend (backendUrl s) false s
  end.

Definition getQueue (s : Coordinator) : list Task := queue s.

(** The state the constructor leaves. *)
Definition new_coordinator (selfId : string) : Coordinator :=
  {| selfId := selfId; queue := []; currentTask := None;
     workers := JSMap.empty; localWorker := None;
     onProgressCallback := false; onCompleteCallback := false;
     onQueueChangeCallback := false;
     backendUrl := None; backendAvailable := false;
     detached := []; pending := []; nextOid := 0%nat; trace := [] |}.

(** ** The coordinator as a sequential actor *)

Inductive Event :=
| AddTask (now : Z) (rnd : string) (prompt : option string)
    (negativePrompt : string) (options : OptionsArg)
| NetTask (now : Z) (task : WireTask) (peerId : string)
| NetResult (now : Z) (result : Result) (peerId : string)
| NetProgress (progress : ProgressMsg) (peerId : string)
| NetCapabilities (capabilities : Capabilities) (peerId : string)
| NetQueueUpdate (queueData : QueueData) (peerId : string)
| PeerLeave (now : Z) (peerId : string)
| Tick (now : Z) (k : nat)
| SetLocalCapabilities (capabilities : Capabilities)
| Subscribe (onProgress onComplete onQueueChange : bool)
| BackendChecked (outcome : option bool) (base : string).

Definition handle (e : Event) (s : Coordinator) : Coordinator :=
  match e with
  | AddTask now rnd prompt negativePrompt options =>
      snd (addTask now rnd prompt negativePrompt options s)
  | NetTask now task peerId => _handleIncomingTask now task peerId s
  | NetResult now result peerId => _handleResult now result peerId s
  | NetProgress progress peerId => _updateWorkerProgress peerId progress s
  | NetCapabilities capabilities peerId => onCapabilities capabilities peerId s
  | NetQueueUpdate queueData peerId => _syncQueue queueData peerId s
  | PeerLeave now peerId => _handleWorkerDisconnect now peerId s
  | Tick now k => resume now k s
  | SetLocalCapabilities capabilities => setLocalCapabilities capabilities s
  | Subscribe p c q => onQueueChange q (onComplete c (onProgress p s))
  | BackendChecked outcome base => checkBackend outcome base s
  end.

Definition run (events : list Event) (s : Coordinator) : Coordinator :=
  fold_left (fun s e => handle e s) events s.

Inductive reachable (selfId : string) : Coordinator -> Prop :=
| reachable_new : reachable selfId (new_coordinator selfId)
| reachable_step s e : reachable selfId s -> reachable selfId (handle e s).

(** ** Vocabulary of the properties *)

Definition ids (q : list Task) : list string := map task_id q.




Definition chunk_size (c : Chunk) : Z := endStep c - startStep c.


(** The chunk list of the active job. *)
Definition active_chunks (s : Coordinator) : list Chunk :=
  match currentTask s with
  | Some t => default [] (chunks t)
  | None => []
  end.

(** The chunks the loop of [_distributeWork] pushes from index [i] on,
    with [n] candidates left. *)
Fixpoint loop_chunks (taskId : string) (totalSteps chunksPerWorker : Z)
    (i n : nat) : list Chunk :=
  match n with
  | O => []
  | S n' =>
      if totalSteps <=? Z.of_nat i * chunksPerWorker then []
      else new_chunk taskId totalSteps chunksPerWorker i
           :: loop_chunks taskId totalSteps chunksPerWorker (S i) n'
  end.

Fixpoint has_underscore (s : string) : bool :=
  match s with
  | EmptyString => false
  | String c s' => if Ascii.eqb c "_"%char then true else has_underscore s'
  end.

(** A job nothing has been recorded for. *)
Definition fresh (t : Task) : Prop :=
  results t = None \/ results t = Some [].


(** Between two events, the active job has not met the completion test:
    either nothing is recorded for it, or the number of chunk ids recorded
    complete differs from its number of chunks. *)
Definition awaiting_results (s : Coordinator) : Prop :=
  forall t m cs,
    currentTask s = Some t -> results t = Some m -> chunks t = Some cs ->
    m = [] \/ completedChunks m <> length cs.





Definition aggregator_ok (s : Coordinator) : Prop :=
  awaiting_results s /\ Forall fresh (queue s).

(** Writes to a task object that leave its results and the length of its
    chunk list alone. *)
Definition keeps_aggregate (g : Task -> Task) : Prop :=
  forall t, results (g t) = results t /\
            option_map length (chunks (g t)) = option_map length (chunks t).

(** The writes a method body is made of. *)
Inductive write : Coordinator -> Coordinator -> Prop :=
| write_emit e s : write s (emit e s)
| write_pending p s : write s (set_pending p s)
| write_task o g s :
    (forall t, results (g t) = results t) -> write s (update_task o g s)
| write_current t t' s :
    currentTask s = Some t ->
    results t' = results t \/
    (exists k v m, results t = Some m /\ results t' = Some (JSMap.set k v m)) ->
    write s (set_currentTask (Some t') s)
| write_clear s : write s (clear_currentTask s)
| write_shift t q s :
    currentTask s = None -> queue s = t :: q ->
    write s (set_currentTask (Some (set_status "processing" t)) (set_queue q s))
| write_working k cid w s :
    JSMap.get k (workers s) = Some w ->
    write s (set_workers (JSMap.set k (Body.set_working cid w) (workers s)) s)
| write_delete k s : write s (set_workers (JSMap.delete k (workers s)) s).

Definition writes : relation Coordinator := rtc write.

(** Every event is made of writes of method bodies and of the updates the
    handlers make themselves. *)
Inductive update : Coordinator -> Coordinator -> Prop :=
| update_write s s' : write s s' -> update s s'
| update_push t s : fresh t -> update s (set_queue (queue s ++ [t]) s)
| update_nextOid n s : update s (set_nextOid n s)
| update_announce capabilities peerId s :
    update s (onCapabilities capabilities peerId s)
| update_progress peerId w p s :
    JSMap.get peerId (workers s) = Some w ->
    update s (set_workers (JSMap.set peerId (set_progress p w) (workers s)) s)
| update_local capabilities s : update s (setLocalCapabilities capabilities s)
| update_callbacks p c q s : update s (set_callbacks p c q s)
| update_backend u a s : update s (set_backend u a s).

(** What no method body writes. *)
Definition same_setup (s s' : Coordinator) : Prop :=
  selfId s' = selfId s /\ localWorker s' = localWorker s /\
  onProgressCallback s' = onProgressCallback s /\
  onCompleteCallback s' = onCompleteCallback s /\
  onQueueChangeCallback s' = onQueueChangeCallback s /\
  backendUrl s' = backendUrl s /\ backendAvailable s' = backendAvailable s /\
  nextOid s' = nextOid s.

(** A registry entry that names a chunk has status working. *)
Definition holder_is_working (w : Worker) : Prop :=
  isSome (currentChunk w) = true -> worker_status w = "working".

(** What the specification asks of [addTask] for a job without prompt
    content: the promise rejects with InvalidJob and the queue is as it
    was. *)
Definition rejected_as_invalid (r : Settled string * Coordinator)
    (s : Coordinator) : Prop :=
  fst r = Rejected "InvalidJob" /\ queue (snd r) = queue s.

(** ** Scenarios *)

Definition no_options : OptionsArg :=
  {| arg_model := None; arg_steps := None; arg_width := None;
     arg_height := None |}.

Definition gpu : Capabilities := {| hasGPU := true |}.

(** The local worker and one peer, both with a GPU, every subscriber
    registered, and a job of 20 steps: chunk_0 runs locally, chunk_1 is
    with the peer. *)
Definition local_and_peer_busy : Coordinator :=
  run [SetLocalCapabilities gpu; NetCapabilities gpu "peerA";
       Subscribe true true true;
       AddTask 1000 "abc" (Some "a cat") "" no_options]
    (new_coordinator "me").

(** Two GPU peers working on a job; the first has reported progress 0.2. *)
Definition two_peers_busy : Coordinator :=
  run [NetCapabilities gpu "p1"; NetCapabilities gpu "p2";
       Subscribe true true true;
       AddTask 1000 "abc" (Some "a cat") "" no_options;
       NetProgress {| progress_taskId := "task_1000_abc";
                      progress_value := (2 # 10)%Q |} "p1"]
    (new_coordinator "me").


Definition chunk1_complete : Result :=
  {| result_taskId := "task_1000_abc"; result_chunkId := "chunk_1";
     result_workerId := "peerA"; result_status := "complete" |}.

Definition chunk0_again : Result :=
  {| result_taskId := "task_1000_abc"; result_chunkId := "chunk_0";
     result_workerId := "peerB"; result_status := "complete" |}.



(** The same projection entry as a peer running this code sends it. *)
Definition pending_entry : WireTask :=
  {| wire_id := "task_77_zzz"; wire_type := "generate";
     wire_prompt := Some "a dog"; wire_status := "pending";
     wire_options := None; wire_chunks := None; wire_chunk := None;
     wire_createdAt := 77; wire_createdBy := "peerA" |}.

(** A projection entry that names the job active in [alone_busy]. *)
Definition active_entry : WireTask :=
  {| wire_id := "task_1000_abc"; wire_type := "generate";
     wire_prompt := Some "a cat"; wire_status := "pending";
     wire_options := None; wire_chunks := None; wire_chunk := None;
     wire_createdAt := 1000; wire_createdBy := "me" |}.

(** The active job of a state (a placeholder when there is none). *)
Definition active_job (s : Coordinator) : Task :=
  default (new_task 0 "" None "" no_options s) (currentTask s).

(** [addTask] on a new coordinator, at its call of [_processNextTask]. *)
Definition first_job_queued : Coordinator :=
  let s := new_coordinator "me" in
  set_queue [new_task 1000 "abc" (Some "a cat") "" no_options s]
    (set_nextOid 1 s).

(** Three GPU peers known, and [_processNextTask] at its call of
    [_distributeWork] for a first job of 20 steps. *)
Definition three_peers_known : Coordinator :=
  run [NetCapabilities gpu "p1"; NetCapabilities gpu "p2";
       NetCapabilities gpu "p3"] (new_coordinator "me").

Definition first_job_taken : Coordinator :=
  set_currentTask
    (Some (set_status "processing"
             (new_task 1000 "abc" (Some "a cat") "" no_options three_peers_known)))
    (set_nextOid 1 three_peers_known).

(** The registry entry of peer p1 once it holds chunk_0. *)
Definition p1_working : Worker :=
  {| worker_id := "p1"; worker_capabilities := gpu;
     worker_status := "working"; currentChunk := Some "chunk_0";
     worker_progress := 0%Q |}.

(** A coordinator alone in its room with every subscriber registered and
    one job submitted. *)
Definition alone_subscribed_busy : Coordinator :=
  run [Subscribe true true true;
       AddTask 1000 "abc" (Some "a cat") "" no_options]
    (new_coordinator "me").

(** Three GPU peers and a job of 20 steps. *)
Definition three_peers_busy : Coordinator :=
  run [NetCapabilities gpu "p1"; NetCapabilities gpu "p2";
       NetCapabilities gpu "p3";
       AddTask 1000 "abc" (Some "a cat") "" no_options]
    (new_coordinator "me").

(** A coordinator alone in its room, no capabilities set, one job
    submitted: the job is active and runs locally. *)
Definition alone_busy : Coordinator :=
  run [AddTask 1000 "abc" (Some "a cat") "" no_options] (new_coordinator "me").

(** The registry entry of peerA once it holds chunk_1. *)
Definition peerA_working : Worker :=
  {| worker_id := "peerA"; worker_capabilities := gpu;
     worker_status := "working"; currentChunk := Some "chunk_1";
     worker_progress := 0%Q |}.






(** ** Statistics and binary chunks *)

(** What [getStats] returns. *)
Record Stats := {
  totalPeers : nat;
  gpuWorkers : nat;
  queueLength : nat;
  stats_currentTask : option string
}.

Definition has_gpu (w : Worker) : bool := hasGPU (worker_capabilities w).

Definition getStats (s : Coordinator) : Stats :=
  {| totalPeers := JSMap.size (workers s);
     gpuWorkers :=
       (length (List.filter has_gpu (JSMap.values (workers s)))
        + match localWorker s with
          | Some lw => if hasGPU (local_capabilities lw) then 1 else 0
          | None => 0
          end)%nat;
     queueLength := length (queue s);
     stats_currentTask := option_map task_id (currentTask s) |}.

(** The metadata that comes with a binary chunk. *)
Record ChunkMetadata := {
  meta_taskId : string;
  meta_chunkId : string
}.

(** [_handleChunk(data, peerId, metadata)] on [this.taskResults], a map
    from job id to a map from chunk id to data.  The inner map is an object
    of its own: writing to it leaves its place in the outer map. *)
Definition _handleChunk {Data : Type} (data : Data) (peerId : string)
    (metadata : ChunkMetadata) (s : Coordinator)
    (taskResults : JSMap.t (JSMap.t Data)) : JSMap.t (JSMap.t Data) :=
  match currentTask s with
  | None => taskResults
  | Some t =>
      if String.eqb (meta_taskId metadata) (task_id t) then
        let taskResults :=
          if negb (isSome (JSMap.get (meta_taskId metadata) taskResults))
          then JSMap.set (meta_taskId metadata) JSMap.empty taskResults
          else taskResults in
        match JSMap.get (meta_taskId metadata) taskResults with
        | Some chunksOfTask =>
            JSMap.set (meta_taskId metadata)
              (JSMap.set (meta_chunkId metadata) data chunksOfTask) taskResults
        | None => taskResults
        end
      else taskResults
  end.

(** ** Vocabulary of the further properties *)

(** The steps of a method body, with what it may emit and which registry
    entries it may delete: a step emits an effect in [E], marks a
    registered worker as working, deletes an entry whose key is in [D], or
    leaves the registry and the trace alone. *)
Inductive act (E : Effect -> Prop) (D : string -> Prop) :
    Coordinator -> Coordinator -> Prop :=
| act_emit e s : E e -> act E D s (emit e s)
| act_working k cid w s :
    JSMap.get k (workers s) = Some w ->
    act E D s (set_workers (JSMap.set k (Body.set_working cid w) (workers s)) s)
| act_delete k s :
    D k -> act E D s (set_workers (JSMap.delete k (workers s)) s)
| act_other s s' :
    workers s' = workers s -> trace s' = trace s -> act E D s s'.

Definition acts (E : Effect -> Prop) (D : string -> Prop) :
    relation Coordinator := rtc (act E D).

(** What the scheduling methods emit: task messages to exactly one peer,
    progress, completion, and uncaught errors. *)
Definition scheduling_effect (e : Effect) : Prop :=
  match e with
  | BroadcastTask _ targets => length targets = 1%nat
  | BroadcastProgress _ _ _ _ => True
  | OnProgressJob _ _ _ _ _ => True
  | OnProgressChunk _ _ _ _ _ => True
  | OnComplete _ => True
  | Uncaught _ => True
  | _ => False
  end.

(** A task message names exactly one peer. *)
Definition targeted (e : Effect) : Prop :=
  match e with
  | BroadcastTask _ targets => length targets = 1%nat
  | _ => True
  end.

Definition is_BackendPost (e : Effect) : bool :=
  match e with BackendPost _ _ => true | _ => false end.

(** The requests event [e] makes to the backend in state [s]. *)
Definition backend_posts (e : Event) (s : Coordinator) : list Effect :=
  match e with
  | AddTask now rnd prompt negativePrompt options =>
      if backendAvailable s then
        match backendUrl s with
        | Some url =>
            if String.eqb url "" then []
            else [BackendPost (url +:+ "/queue")
                    (new_task now rnd prompt negativePrompt options s)]
        | None => []
        end
      else []
  | _ => []
  end.

(** Event [e] is an announcement or the departure of peer [p]. *)
Definition resets (p : string) (e : Event) : Prop :=
  match e with
  | NetCapabilities _ q => q = p
  | PeerLeave _ q => q = p
  | _ => False
  end.

(** Each registry entry carries the id it is filed under. *)
Definition keyed_by_id (m : JSMap.t Worker) : Prop :=
  Forall (fun kw => worker_id kw.2 = kw.1) m.

(** A suspended body of [_processChunkLocally]. *)
Definition chunk_frame (f : Frame) : Prop :=
  match f with
  | ProcessChunkLocally _ _ _ => True
  | ProcessLocally _ _ _ => False
  end.

(** The calls of the progress subscriber that [n] iterations of the loop of
    [_processLocally] make from iteration [step] on. *)
Fixpoint local_progress_events (taskId : string) (totalSteps step : Z)
    (n : nat) : list Effect :=
  match n with
  | O => []
  | S n' =>
      OnProgressJob taskId (step + 1) totalSteps
        (inject_Z (step + 1) / inject_Z totalSteps)%Q (stage_of step totalSteps)
      :: local_progress_events taskId totalSteps (step + 1) n'
  end.

(** The timers of the suspended body at the head of [pending] fire at the
    clock readings [nows]. *)
Definition ticks (nows : list Z) : list Event :=
  map (fun now => Tick now 0%nat) nows.

(** The job [t] is active, no local run is suspended, and the queue
    starts with [q]. *)
Definition blocked_on (t : Task) (q : list Task) (s : Coordinator) : Prop :=
  currentTask s = Some t /\ Forall chunk_frame (pending s) /\
  q `prefix_of` queue s.

(** What [n] iterations of the loop of [_processChunkLocally] emit from
    iteration [i] on: the call of the progress subscriber, if one is
    registered, and the progress message to the room. *)
Fixpoint chunk_progress_events (taskId : string) (chunk : Chunk)
    (totalSteps : Z) (subscribed : bool) (self : string) (i : Z)
    (n : nat) : list Effect :=
  match n with
  | O => []
  | S n' =>
      (if subscribed
       then [OnProgressChunk taskId (chunk_id chunk) (startStep chunk + i + 1)
               totalSteps (inject_Z (i + 1) / inject_Z (chunk_size chunk))%Q]
       else [])
      ++ [BroadcastProgress taskId (chunk_id chunk)
            (inject_Z (i + 1) / inject_Z (chunk_size chunk))%Q self]
      ++ chunk_progress_events taskId chunk totalSteps subscribed self (i + 1) n'
  end.

(** * The backend server of serv/server.js

    The queue store of the optional backend: [queues] (room id -> array of
    tasks) and [roomStats] (room id -> statistics), the two functions that
    write them, the routes that read and write them, and the hourly
    clean-up.  [Date.now()] is the clock reading [now] of the request. *)

Module Server.

(** The [prompt] of a task, as far as [task.prompt?.slice(0, 100)] tells
    values apart: absent, null, a string (its UTF-16 code units), an array,
    or a number, boolean or object, none of which has a [slice] method. *)
#[warnings="-register-all"] Inductive Value :=
| Undefined
| Null
| Text (units : list N)
| Items (items : list Value)
| Other.

(** A task as a client posts it or a peer sends it.  The server reads its
    [id], [prompt] and [createdAt]; whatever else it holds is carried along
    unread.  An absent property is [None]; ids are strings, as the
    coordinator makes them. *)
Record Posted := {
  id : option string;
  prompt : Value;
  createdAt : option Z
}.

(** [{ ...task, serverReceived: Date.now(), serverStatus: 'queued' }] *)
Record Entry := {
  task : Posted;
  serverReceived : Z;
  serverStatus : string
}.

(** A value of [roomStats], as [updateRoomStats] stores it. *)
Record RoomStats := {
  created : Z;
  generated : nat;
  peers : nat;
  queueLength : nat;
  lastActivity : Z
}.

Record State := {
  queues : JSMap.t (list Entry);
  roomStats : JSMap.t RoomStats
}.

(** The store when the server starts. *)
Definition initial : State :=
  {| queues := JSMap.empty; roomStats := JSMap.empty |}.

(** [a === b] on ids: two absent ids are equal. *)
Definition id_eqb (a b : option string) : bool :=
  match a, b with
  | Some x, Some y => String.eqb x y
  | None, None => true
  | _, _ => false
  end.

Definition entry_id (e : Entry) : option string := id (task e).

(** [queue.find(t => t.id === task.id)] as a truth value. *)
Definition queued (i : option string) (queue : list Entry) : bool :=
  existsb (fun t => id_eqb (entry_id t) i) queue.

Definition room_queue (roomId : string) (st : State) : list Entry :=
  default [] (JSMap.get roomId (queues st)).

(** [updateRoomStats(roomId)] *)
Definition updateRoomStats (now : Z) (roomId : string) (st : State) : State :=
  let queue := room_queue roomId st in
  let stats :=
    default {| created := now; generated := 0; peers := 0;
               queueLength := 0; lastActivity := now |}
      (JSMap.get roomId (roomStats st)) in
  {| queues := queues st;
     roomStats :=
       JSMap.set roomId
         {| created := created stats; generated := generated stats;
            peers := peers stats; queueLength := length queue;
            lastActivity := now |} (roomStats st) |}.

(** [addToQueue(roomId, task)]: the queue it returns, and the store. *)
Definition addToQueue (now : Z) (roomId : string) (t : Posted)
    (st : State) : list Entry * State :=
  let st :=
    if negb (isSome (JSMap.get roomId (queues st)))
    then {| queues := JSMap.set roomId [] (queues st);
            roomStats := roomStats st |}
    else st in
  let queue := room_queue roomId st in
  if negb (queued (id t) queue) then
    let queue :=
      queue ++ [ {| task := t; serverReceived := now;
                    serverStatus := "queued" |} ] in
    let st := {| queues := JSMap.set roomId queue (queues st);
                 roomStats := roomStats st |} in
    (queue, updateRoomStats now roomId st)
  else (queue, st).

(** What [POST /api/queue/:roomId] answers. *)
Inductive PostResponse :=
| BadRequest (error : string)
| Accepted (position : nat) (taskId : string).

(** [POST /api/queue/:roomId]; [body] is [req.body], [None] when it is
    null or absent. *)
Definition post_queue (now : Z) (roomId : string) (body : option Posted)
    (st : State) : PostResponse * State :=
  match body with
  | None => (BadRequest "Invalid task", st)
  | Some t =>
      match id t with
      | None => (BadRequest "Invalid task", st)
      | Some taskId =>
          if String.eqb taskId "" then (BadRequest "Invalid task", st)
          else
            let r := addToQueue now roomId t st in
            (Accepted (length (fst r)) taskId, snd r)
      end
  end.

(** One line of the listing [GET /api/queue/:roomId] answers. *)
Record Listed := {
  listed_id : option string;
  listed_prompt : Value;
  listed_status : string;
  listed_createdAt : option Z;
  listed_serverReceived : Z
}.

(** [prompt?.slice(0, 100)]: nothing for an absent or null prompt, the
    first 100 code units of a string, the first 100 items of an array;
    [None] when the call raises a TypeError, the value having no [slice]. *)
Definition slice_prompt (v : Value) : option Value :=
  match v with
  | Undefined | Null => Some Undefined
  | Text units => Some (Text (take 100 units))
  | Items items => Some (Items (take 100 items))
  | Other => None
  end.

(** The function [queue.map] applies to an entry; [None] when it throws. *)
Definition list_entry (e : Entry) : option Listed :=
  match slice_prompt (prompt (task e)) with
  | Some shown =>
      Some {| listed_id := id (task e);
              listed_prompt := shown;
              listed_status := serverStatus e;
              listed_createdAt := createdAt (task e);
              listed_serverReceived := serverReceived e |}
  | None => None
  end.

(** What [GET /api/queue/:roomId] answers: the listing and the statistics
    of the room, or status 500 when the handler throws. *)
Inductive GetResponse :=
| InternalError
| Listing (queue : list Listed) (stats : option RoomStats).

(** [GET /api/queue/:roomId] *)
Definition get_queue (roomId : string) (st : State) : GetResponse :=
  match mapM list_entry (room_queue roomId st) with
  | Some listing => Listing listing (JSMap.get roomId (roomStats st))
  | None => InternalError
  end.

Record RoomSummary := {
  summary_queueLength : nat;
  summary_generated : nat;
  summary_lastActivity : Z
}.

Record GlobalStats := {
  activeRooms : nat;
  totalQueued : nat;
  p2pEnabled : bool;
  rooms : gmap string RoomSummary
}.

Definition summarize (r : RoomStats) : RoomSummary :=
  {| summary_queueLength := queueLength r; summary_generated := generated r;
     summary_lastActivity := lastActivity r |}.

(** [stats.rooms[roomId] = summary] on the plain object [stats.rooms].
    The key ["__proto__"] is the prototype accessor every plain object
    inherits: assigning an object to it replaces the prototype and adds no
    property, so no room is listed under it.  Any other key becomes a
    property of the object. *)
Definition assign_room (roomId : string) (summary : RoomSummary)
    (rooms : gmap string RoomSummary) : gmap string RoomSummary :=
  if String.eqb roomId "__proto__" then rooms
  else <[roomId := summary]> rooms.

(** [GET /api/stats]; [polyfill] is [isPolyfillAvailable()].  [rooms] holds
    the properties of [stats.rooms] that the answer lists. *)
Definition get_stats (polyfill : bool) (st : State) : GlobalStats :=
  {| activeRooms := JSMap.size (queues st);
     totalQueued :=
       fold_left (fun sum q => (sum + length q)%nat) (JSMap.values (queues st)) 0%nat;
     p2pEnabled := polyfill;
     rooms :=
       fold_left (fun rooms kv => assign_room kv.1 (summarize kv.2) rooms)
         (roomStats st) ∅ |}.

Definition maxAge : Z := 24 * 60 * 60 * 1000.

Definition stale (now : Z) (r : RoomStats) : bool :=
  maxAge <? now - lastActivity r.

(** The hourly clean-up: the loop over [roomStats]. *)
Definition cleanup (now : Z) (st : State) : State :=
  fold_left
    (fun st kv =>
       if stale now kv.2
       then {| queues := JSMap.delete kv.1 (queues st);
               roomStats := JSMap.delete kv.1 (roomStats st) |}
       else st)
    (roomStats st) st.

(** What reaches the store: a posted request, a task a peer sent to the
    server as helper of a room, the clean-up timer. *)
Inductive Event :=
| Post (now : Z) (roomId : string) (body : option Posted)
| HelperTask (now : Z) (roomId : string) (t : Posted)
| Cleanup (now : Z).

Definition handle (e : Event) (st : State) : State :=
  match e with
  | Post now roomId body => snd (post_queue now roomId body st)
  | HelperTask now roomId t => snd (addToQueue now roomId t st)
  | Cleanup now => cleanup now st
  end.

Definition run (events : list Event) (st : State) : State :=
  fold_left (fun st e => handle e st) events st.

(** The two maps name the same rooms in the same order, once each; every
    room has a queue that is not empty, holds no id twice and only entries
    with status queued, and statistics whose [queueLength] is the length of
    the queue. *)
Definition consistent (st : State) : Prop :=
  JSMap.keys (queues st) = JSMap.keys (roomStats st) /\
  NoDup (JSMap.keys (queues st)) /\
  forall roomId queue,
    JSMap.get roomId (queues st) = Some queue ->
    queue <> [] /\ NoDup (map entry_id queue) /\
    Forall (fun e => serverStatus e = "queued") queue /\
    exists stats, JSMap.get roomId (roomStats st) = Some stats /\
                  queueLength stats = length queue.
End Server.

(** What [Map.delete] does to the keys. *)
Fixpoint remove_first (k : string) (l : list string) : list string :=
  match l with
  | [] => []
  | x :: l' => if String.eqb x k then l' else x :: remove_first k l'
  end.

(** An event of the server other than the clean-up timer. *)
Definition not_cleanup (e : Server.Event) : Prop :=
  match e with Server.Cleanup _ => False | _ => True end.

(** An entry whose prompt has no [slice] method. *)
Definition unsliceable (e : Server.Entry) : Prop :=
  Server.prompt (Server.task e) = Server.Other.

(** What a listing shows of a prompt: nothing for an absent or null one;
    of a string or an array a prefix, 100 code units or items long, or all
    of it when it is shorter. *)
Definition shown_of (p shown : Server.Value) : Prop :=
  match p, shown with
  | Server.Undefined, Server.Undefined => True
  | Server.Null, Server.Undefined => True
  | Server.Text units, Server.Text cut =>
      (exists rest, units = cut ++ rest) /\
      length cut = Nat.min 100 (length units)
  | Server.Items items, Server.Items cut =>
      (exists rest, items = cut ++ rest) /\
      length cut = Nat.min 100 (length items)
  | _, _ => False
  end.

(** * The network layer of p2p-network.js

    The [P2PNetwork] class: the room joined, the peers seen in it, the
    callback slots (one subscriber each) and the send functions of the
    room's channels.  A callback slot holds the function registered last;
    the functions registered in this program are those of a
    [WorkerCoordinator] (its constructor registers seven) and those of the
    page.  A send function belongs to the room whose [makeAction] made it.
    The handlers a room calls are gone once the room is left. *)

Module Network.

Record Peer := {
  peer_id : string;
  peer_capabilities : option Capabilities;
  peer_status : string
}.

(** Whose function sits in a callback slot: the [instance]-th coordinator
    constructed, or the page. *)
Inductive Subscriber :=
| OfCoordinator (instance : nat)
| OfPage.

Inductive Channel :=
| TaskChannel
| ResultChannel
| ProgressChannel
| CapabilitiesChannel
| QueueChannel
| ChunkChannel.

Inductive Payload :=
| TaskPayload (workerTask : WorkerTask)
| ResultPayload (result : Result)
| ProgressPayload (taskId chunkId : string) (progress : Q) (workerId : string)
| CapabilitiesPayload (capabilities : Capabilities)
| QueuePayload (projection : list Projection)
| ChunkPayload (metadata : ChunkMetadata).

(** A call of a send function: the room it belongs to, the channel, what
    is sent, and the peers named ([None]: everyone in the room). *)
Record Sent := {
  sent_room : string;
  sent_channel : Channel;
  sent_payload : Payload;
  sent_targets : option (list string)
}.

Record P2PNetwork := {
  room : option string;
  peers : JSMap.t Peer;
  isConnected : bool;
  joinCapabilities : option Capabilities;
  onPeerJoinCallback : option Subscriber;
  onPeerLeaveCallback : option Subscriber;
  onTaskCallback : option Subscriber;
  onResultCallback : option Subscriber;
  onProgressCallback : option Subscriber;
  onCapabilitiesCallback : option Subscriber;
  onQueueUpdateCallback : option Subscriber;
  onChunkCallback : option Subscriber;
  sendTask : option string;
  sendResult : option string;
  sendProgress : option string;
  sendCapabilities : option string;
  sendQueueUpdate : option string;
  sendChunk : option string;
  announcements : list Capabilities
}.

(** The state the constructor leaves. *)
Definition new_network : P2PNetwork :=
  {| room := None; peers := JSMap.empty; isConnected := false;
     joinCapabilities := None;
     onPeerJoinCallback := None; onPeerLeaveCallback := None;
     onTaskCallback := None; onResultCallback := None;
     onProgressCallback := None; onCapabilitiesCallback := None;
     onQueueUpdateCallback := None; onChunkCallback := None;
     sendTask := None; sendResult := None; sendProgress := None;
     sendCapabilities := None; sendQueueUpdate := None; sendChunk := None;
     announcements := [] |}.

(** [leave()] *)
Definition leave (n : P2PNetwork) : P2PNetwork :=
  match room n with
  | None => n
  | Some _ =>
      {| room := None; peers := JSMap.empty; isConnected := false;
         joinCapabilities := joinCapabilities n;
         onPeerJoinCallback := onPeerJoinCallback n;
         onPeerLeaveCallback := onPeerLeaveCallback n;
         onTaskCallback := onTaskCallback n;
         onResultCallback := onResultCallback n;
         onProgressCallback := onProgressCallback n;
         onCapabilitiesCallback := onCapabilitiesCallback n;
         onQueueUpdateCallback := onQueueUpdateCallback n;
         onChunkCallback := onChunkCallback n;
         sendTask := sendTask n; sendResult := sendResult n;
         sendProgress := sendProgress n;
         sendCapabilities := sendCapabilities n;
         sendQueueUpdate := sendQueueUpdate n; sendChunk := sendChunk n;
         announcements := announcements n |}
  end.

(** [join(roomId, capabilities)]: a room still joined is left first; the
    room's handlers keep the [capabilities] of this call; [_setupActions]
    makes the six send functions anew; a timer is set to announce the
    capabilities. *)
Definition join (roomId : string) (capabilities : option Capabilities)
    (n : P2PNetwork) : P2PNetwork :=
  let n := leave n in
  {| room := Some roomId; peers := peers n; isConnected := true;
     joinCapabilities := capabilities;
     onPeerJoinCallback := onPeerJoinCallback n;
     onPeerLeaveCallback := onPeerLeaveCallback n;
     onTaskCallback := onTaskCallback n;
     onResultCallback := onResultCallback n;
     onProgressCallback := onProgressCallback n;
     onCapabilitiesCallback := onCapabilitiesCallback n;
     onQueueUpdateCallback := onQueueUpdateCallback n;
     onChunkCallback := onChunkCallback n;
     sendTask := Some roomId; sendResult := Some roomId;
     sendProgress := Some roomId; sendCapabilities := Some roomId;
     sendQueueUpdate := Some roomId; sendChunk := Some roomId;
     announcements :=
       announcements n
       ++ match capabilities with Some c => [c] | None => [] end |}.

Definition set_peers (p : JSMap.t Peer) (n : P2PNetwork) : P2PNetwork :=
  {| room := room n; peers := p; isConnected := isConnected n;
     joinCapabilities := joinCapabilities n;
     onPeerJoinCallback := onPeerJoinCallback n;
     onPeerLeaveCallback := onPeerLeaveCallback n;
     onTaskCallback := onTaskCallback n;
     onResultCallback := onResultCallback n;
     onProgressCallback := onProgressCallback n;
     onCapabilitiesCallback := onCapabilitiesCallback n;
     onQueueUpdateCallback := onQueueUpdateCallback n;
     onChunkCallback := onChunkCallback n;
     sendTask := sendTask n; sendResult := sendResult n;
     sendProgress := sendProgress n; sendCapabilities := sendCapabilities n;
     sendQueueUpdate := sendQueueUpdate n; sendChunk := sendChunk n;
     announcements := announcements n |}.

(** The event-handler setters. *)
Definition onPeerJoin (f : Subscriber) (n : P2PNetwork) : P2PNetwork :=
  {| room := room n; peers := peers n; isConnected := isConnected n;
     joinCapabilities := joinCapabilities n;
     onPeerJoinCallback := Some f;
     onPeerLeaveCallback := onPeerLeaveCallback n;
     onTaskCallback := onTaskCallback n;
     onResultCallback := onResultCallback n;
     onProgressCallback := onProgressCallback n;
     onCapabilitiesCallback := onCapabilitiesCallback n;
     onQueueUpdateCallback := onQueueUpdateCallback n;
     onChunkCallback := onChunkCallback n;
     sendTask := sendTask n; sendResult := sendResult n;
     sendProgress := sendProgress n; sendCapabilities := sendCapabilities n;
     sendQueueUpdate := sendQueueUpdate n; sendChunk := sendChunk n;
     announcements := announcements n |}.

Definition onPeerLeave (f : Subscriber) (n : P2PNetwork) : P2PNetwork :=
  {| room := room n; peers := peers n; isConnected := isConnected n;
     joinCapabilities := joinCapabilities n;
     onPeerJoinCallback := onPeerJoinCallback n;
     onPeerLeaveCallback := Some f;
     onTaskCallback := onTaskCallback n;
     onResultCallback := onResultCallback n;
     onProgressCallback := onProgressCallback n;
     onCapabilitiesCallback := onCapabilitiesCallback n;
     onQueueUpdateCallback := onQueueUpdateCallback n;
     onChunkCallback := onChunkCallback n;
     sendTask := sendTask n; sendResult := sendResult n;
     sendProgress := sendProgress n; sendCapabilities := sendCapabilities n;
     sendQueueUpdate := sendQueueUpdate n; sendChunk := sendChunk n;
     announcements := announcements n |}.

Definition onTask (f : Subscriber) (n : P2PNetwork) : P2PNetwork :=
  {| room := room n; peers := peers n; isConnected := isConnected n;
     joinCapabilities := joinCapabilities n;
     onPeerJoinCallback := onPeerJoinCallback n;
     onPeerLeaveCallback := onPeerLeaveCallback n;
     onTaskCallback := Some f;
     onResultCallback := onResultCallback n;
     onProgressCallback := onProgressCallback n;
     onCapabilitiesCallback := onCapabilitiesCallback n;
     onQueueUpdateCallback := onQueueUpdateCallback n;
     onChunkCallback := onChunkCallback n;
     sendTask := sendTask n; sendResult := sendResult n;
     sendProgress := sendProgress n; sendCapabilities := sendCapabilities n;
     sendQueueUpdate := sendQueueUpdate n; sendChunk := sendChunk n;
     announcements := announcements n |}.

Definition onResult (f : Subscriber) (n : P2PNetwork) : P2PNetwork :=
  {| room := room n; peers := peers n; isConnected := isConnected n;
     joinCapabilities := joinCapabilities n;
     onPeerJoinCallback := onPeerJoinCallback n;
     onPeerLeaveCallback := onPeerLeaveCallback n;
     onTaskCallback := onTaskCallback n;
     onResultCallback := Some f;
     onProgressCallback := onProgressCallback n;
     onCapabilitiesCallback := onCapabilitiesCallback n;
     onQueueUpdateCallback := onQueueUpdateCallback n;
     onChunkCallback := onChunkCallback n;
     sendTask := sendTask n; sendResult := sendResult n;
     sendProgress := sendProgress n; sendCapabilities := sendCapabilities n;
     sendQueueUpdate := sendQueueUpdate n; sendChunk := sendChunk n;
     announcements := announcements n |}.

Definition onProgress (f : Subscriber) (n : P2PNetwork) : P2PNetwork :=
  {| room := room n; peers := peers n; isConnected := isConnected n;
     joinCapabilities := joinCapabilities n;
     onPeerJoinCallback := onPeerJoinCallback n;
     onPeerLeaveCallback := onPeerLeaveCallback n;
     onTaskCallback := onTaskCallback n;
     onResultCallback := onResultCallback n;
     onProgressCallback := Some f;
     onCapabilitiesCallback := onCapabilitiesCallback n;
     onQueueUpdateCallback := onQueueUpdateCallback n;
     onChunkCallback := onChunkCallback n;
     sendTask := sendTask n; sendResult := sendResult n;
     sendProgress := sendProgress n; sendCapabilities := sendCapabilities n;
     sendQueueUpdate := sendQueueUpdate n; sendChunk := sendChunk n;
     announcements := announcements n |}.

Definition onCapabilities (f : Subscriber) (n : P2PNetwork) : P2PNetwork :=
  {| room := room n; peers := peers n; isConnected := isConnected n;
     joinCapabilities := joinCapabilities n;
     onPeerJoinCallback := onPeerJoinCallback n;
     onPeerLeaveCallback := onPeerLeaveCallback n;
     onTaskCallback := onTaskCallback n;
     onResultCallback := onResultCallback n;
     onProgressCallback := onProgressCallback n;
     onCapabilitiesCallback := Some f;
     onQueueUpdateCallback := onQueueUpdateCallback n;
     onChunkCallback := onChunkCallback n;
     sendTask := sendTask n; sendResult := sendResult n;
     sendProgress := sendProgress n; sendCapabilities := sendCapabilities n;
     sendQueueUpdate := sendQueueUpdate n; sendChunk := sendChunk n;
     announcements := announcements n |}.

Definition onQueueUpdate (f : Subscriber) (n : P2PNetwork) : P2PNetwork :=
  {| room := room n; peers := peers n; isConnected := isConnected n;
     joinCapabilities := joinCapabilities n;
     onPeerJoinCallback := onPeerJoinCallback n;
     onPeerLeaveCallback := onPeerLeaveCallback n;
     onTaskCallback := onTaskCallback n;
     onResultCallback := onResultCallback n;
     onProgressCallback := onProgressCallback n;
     onCapabilitiesCallback := onCapabilitiesCallback n;
     onQueueUpdateCallback := Some f;
     onChunkCallback := onChunkCallback n;
     sendTask := sendTask n; sendResult := sendResult n;
     sendProgress := sendProgress n; sendCapabilities := sendCapabilities n;
     sendQueueUpdate := sendQueueUpdate n; sendChunk := sendChunk n;
     announcements := announcements n |}.

Definition onChunk (f : Subscriber) (n : P2PNetwork) : P2PNetwork :=
  {| room := room n; peers := peers n; isConnected := isConnected n;
     joinCapabilities := joinCapabilities n;
     onPeerJoinCallback := onPeerJoinCallback n;
     onPeerLeaveCallback := onPeerLeaveCallback n;
     onTaskCallback := onTaskCallback n;
     onResultCallback := onResultCallback n;
     onProgressCallback := onProgressCallback n;
     onCapabilitiesCallback := onCapabilitiesCallback n;
     onQueueUpdateCallback := onQueueUpdateCallback n;
     onChunkCallback := Some f;
     sendTask := sendTask n; sendResult := sendResult n;
     sendProgress := sendProgress n; sendCapabilities := sendCapabilities n;
     sendQueueUpdate := sendQueueUpdate n; sendChunk := sendChunk n;
     announcements := announcements n |}.

(** [getPeers()] and [getGPUPeers()] *)
Definition getPeers (n : P2PNetwork) : list Peer := JSMap.values (peers n).

Definition peer_has_gpu (p : Peer) : bool :=
  match peer_capabilities p with
  | Some c => hasGPU c
  | None => false
  end.

Definition getGPUPeers (n : P2PNetwork) : list Peer :=
  List.filter peer_has_gpu (getPeers n).

(** [broadcastTask(task, targetPeers)]: what is handed to [sendTask]. *)
Definition broadcastTask (workerTask : WorkerTask)
    (targetPeers : option (list string)) (n : P2PNetwork) : list Sent :=
  match sendTask n with
  | None => []
  | Some r =>
      match targetPeers with
      | Some (p :: ps) =>
          [ {| sent_room := r; sent_channel := TaskChannel;
               sent_payload := TaskPayload workerTask;
               sent_targets := Some (p :: ps) |} ]
      | _ =>
          [ {| sent_room := r; sent_channel := TaskChannel;
               sent_payload := TaskPayload workerTask;
               sent_targets := None |} ]
      end
  end.

(** What the room hands to the handlers [join] and [_setupActions]
    registered on it. *)
Inductive RoomEvent :=
| PeerJoin (peerId : string)
| PeerLeave (peerId : string)
| GetTask (task : WireTask) (peerId : string)
| GetResult (result : Result) (peerId : string)
| GetProgress (progress : ProgressMsg) (peerId : string)
| GetCapabilities (capabilities : Capabilities) (peerId : string)
| GetQueueUpdate (queueData : QueueData) (peerId : string)
| GetChunk (metadata : ChunkMetadata) (peerId : string).

(** A handler of the room runs: the network after it, the subscriber it
    calls with the event if the slot is filled, and what it sends. *)
Definition receive (ev : RoomEvent) (n : P2PNetwork) :
    P2PNetwork * option Subscriber * list Sent :=
  match room n with
  | None => (n, None, [])
  | Some _ =>
      match ev with
      | PeerJoin peerId =>
          (set_peers
             (JSMap.set peerId
                {| peer_id := peerId; peer_capabilities := None;
                   peer_status := "connected" |} (peers n)) n,
           onPeerJoinCallback n,
           match sendCapabilities n, joinCapabilities n with
           | Some r, Some c =>
               [ {| sent_room := r; sent_channel := CapabilitiesChannel;
                    sent_payload := CapabilitiesPayload c;
                    sent_targets := Some [peerId] |} ]
           | _, _ => []
           end)
      | PeerLeave peerId =>
          (set_peers (JSMap.delete peerId (peers n)) n,
           onPeerLeaveCallback n, [])
      | GetTask _ _ => (n, onTaskCallback n, [])
      | GetResult _ _ => (n, onResultCallback n, [])
      | GetProgress _ _ => (n, onProgressCallback n, [])
      | GetCapabilities capabilities peerId =>
          (match JSMap.get peerId (peers n) with
           | Some peer =>
               set_peers
                 (JSMap.set peerId
                    {| peer_id := peer_id peer;
                       peer_capabilities := Some capabilities;
                       peer_status := peer_status peer |} (peers n)) n
           | None => n
           end,
           onCapabilitiesCallback n, [])
      | GetQueueUpdate _ _ => (n, onQueueUpdateCallback n, [])
      | GetChunk _ _ => (n, onChunkCallback n, [])
      end
  end.

(** The timer [join] set fires: the capabilities are sent to the room the
    send function belongs to at that moment. *)
Definition announce (k : nat) (n : P2PNetwork) : P2PNetwork * list Sent :=
  match announcements n !! k with
  | None => (n, [])
  | Some c =>
      ({| room := room n; peers := peers n; isConnected := isConnected n;
          joinCapabilities := joinCapabilities n;
          onPeerJoinCallback := onPeerJoinCallback n;
          onPeerLeaveCallback := onPeerLeaveCallback n;
          onTaskCallback := onTaskCallback n;
          onResultCallback := onResultCallback n;
          onProgressCallback := onProgressCallback n;
          onCapabilitiesCallback := onCapabilitiesCallback n;
          onQueueUpdateCallback := onQueueUpdateCallback n;
          onChunkCallback := onChunkCallback n;
          sendTask := sendTask n; sendResult := sendResult n;
          sendProgress := sendProgress n;
          sendCapabilities := sendCapabilities n;
          sendQueueUpdate := sendQueueUpdate n; sendChunk := sendChunk n;
          announcements :=
            take k (announcements n) ++ drop (S k) (announcements n) |},
       match sendCapabilities n with
       | Some r =>
           [ {| sent_room := r; sent_channel := CapabilitiesChannel;
                sent_payload := CapabilitiesPayload c;
                sent_targets := None |} ]
       | None => []
       end)
  end.

Inductive Slot :=
| SlotPeerJoin
| SlotPeerLeave
| SlotTask
| SlotResult
| SlotProgress
| SlotCapabilities
| SlotQueueUpdate
| SlotChunk.

Definition register (slot : Slot) (f : Subscriber) (n : P2PNetwork) : P2PNetwork :=
  match slot with
  | SlotPeerJoin => onPeerJoin f n
  | SlotPeerLeave => onPeerLeave f n
  | SlotTask => onTask f n
  | SlotResult => onResult f n
  | SlotProgress => onProgress f n
  | SlotCapabilities => onCapabilities f n
  | SlotQueueUpdate => onQueueUpdate f n
  | SlotChunk => onChunk f n
  end.

(** What is done to a network object. *)
Inductive Op :=
| Join (roomId : string) (capabilities : option Capabilities)
| Leave
| Receive (ev : RoomEvent)
| Register (slot : Slot) (f : Subscriber)
| Fire (k : nat).

Definition apply (op : Op) (n : P2PNetwork) : P2PNetwork :=
  match op with
  | Join roomId capabilities => join roomId capabilities n
  | Leave => leave n
  | Receive ev => (receive ev n).1.1
  | Register slot f => register slot f n
  | Fire k => (announce k n).1
  end.

Definition run (ops : list Op) (n : P2PNetwork) : P2PNetwork :=
  fold_left (fun n op => apply op n) ops n.

(** The room joined last, left or not. *)
Fixpoint last_joined (ops : list Op) (r : option string) : option string :=
  match ops with
  | [] => r
  | Join roomId _ :: ops' => last_joined ops' (Some roomId)
  | _ :: ops' => last_joined ops' r
  end.
End Network.

(** * The page of p2p-diffusion.js

    The [P2PDiffusion] class as far as it wires the network and the
    coordinator together: [connect], [disconnect], [toggleConnection],
    [_setupNetworkCallbacks], [startGeneration].  The page is taken once
    [_init] has detected the device capabilities.  What the page writes to
    the document ([_updateStats], [_updatePeersList], [_updateQueueList],
    [_updateProgress], the state of the buttons) is read back by nothing
    here and is left out, so the functions the page registers with the
    network and with the coordinator leave the state as it is; the log is
    modelled apart, at the end of the module. *)

Module Page.

Record P2PDiffusion := {
  selfId : string;
  network : Network.P2PNetwork;
  coordinators : list Coordinator;
  coordinator : option nat;
  isConnected : bool;
  connecting : bool;
  backendAvailable : bool;
  deviceCapabilities : Capabilities;
  sent : list Network.Sent
}.

Definition set_network (n : Network.P2PNetwork) (a : P2PDiffusion) : P2PDiffusion :=
  {| selfId := selfId a; network := n; coordinators := coordinators a;
     coordinator := coordinator a; isConnected := isConnected a;
     connecting := connecting a; backendAvailable := backendAvailable a;
     deviceCapabilities := deviceCapabilities a; sent := sent a |}.

Definition set_coordinators (cs : list Coordinator) (a : P2PDiffusion) : P2PDiffusion :=
  {| selfId := selfId a; network := network a; coordinators := cs;
     coordinator := coordinator a; isConnected := isConnected a;
     connecting := connecting a; backendAvailable := backendAvailable a;
     deviceCapabilities := deviceCapabilities a; sent := sent a |}.

Definition set_coordinator (c : option nat) (a : P2PDiffusion) : P2PDiffusion :=
  {| selfId := selfId a; network := network a; coordinators := coordinators a;
     coordinator := c; isConnected := isConnected a;
     connecting := connecting a; backendAvailable := backendAvailable a;
     deviceCapabilities := deviceCapabilities a; sent := sent a |}.

Definition set_isConnected (b : bool) (a : P2PDiffusion) : P2PDiffusion :=
  {| selfId := selfId a; network := network a; coordinators := coordinators a;
     coordinator := coordinator a; isConnected := b;
     connecting := connecting a; backendAvailable := backendAvailable a;
     deviceCapabilities := deviceCapabilities a; sent := sent a |}.

Definition set_connecting (b : bool) (a : P2PDiffusion) : P2PDiffusion :=
  {| selfId := selfId a; network := network a; coordinators := coordinators a;
     coordinator := coordinator a; isConnected := isConnected a;
     connecting := b; backendAvailable := backendAvailable a;
     deviceCapabilities := deviceCapabilities a; sent := sent a |}.

Definition send (out : list Network.Sent) (a : P2PDiffusion) : P2PDiffusion :=
  {| selfId := selfId a; network := network a; coordinators := coordinators a;
     coordinator := coordinator a; isConnected := isConnected a;
     connecting := connecting a; backendAvailable := backendAvailable a;
     deviceCapabilities := deviceCapabilities a; sent := sent a ++ out |}.

(** The page when its constructor and [_init] are done; [backend] is what
    [_checkBackend] found. *)
Definition new_page (selfId : string) (capabilities : Capabilities)
    (backend : bool) : P2PDiffusion :=
  {| selfId := selfId; network := Network.new_network; coordinators := [];
     coordinator := None; isConnected := false; connecting := false;
     backendAvailable := backend; deviceCapabilities := capabilities;
     sent := [] |}.

(** The coordinator object [this.coordinator] refers to. *)
Definition the_coordinator (a : P2PDiffusion) : option Coordinator :=
  match coordinator a with
  | Some i => coordinators a !! i
  | None => None
  end.

(** [_setupNetworkCallbacks()]: the page registers its own functions for
    peer join, peer leave and capabilities. *)
Definition _setupNetworkCallbacks (a : P2PDiffusion) : P2PDiffusion :=
  set_network
    (Network.onCapabilities Network.OfPage
       (Network.onPeerLeave Network.OfPage
          (Network.onPeerJoin Network.OfPage (network a)))) a.

(** [new WorkerCoordinator(network, selfId)]: the constructor registers
    the functions of the new coordinator with the network
    ([_setupNetworkHandlers]). *)
Definition construct_coordinator (a : P2PDiffusion) : P2PDiffusion :=
  let i := length (coordinators a) in
  let f := Network.OfCoordinator i in
  set_coordinator (Some i)
    (set_coordinators (coordinators a ++ [new_coordinator (selfId a)])
       (set_network
          (Network.onPeerLeave f
             (Network.onChunk f
                (Network.onQueueUpdate f
                   (Network.onCapabilities f
                      (Network.onProgress f
                         (Network.onResult f
                            (Network.onTask f (network a)))))))) a)).

(** A write to the coordinator object [this.coordinator] refers to. *)
Definition with_coordinator (f : Coordinator -> Coordinator)
    (a : P2PDiffusion) : P2PDiffusion :=
  match coordinator a with
  | Some i =>
      match coordinators a !! i with
      | Some c => set_coordinators (<[i := f c]> (coordinators a)) a
      | None => a
      end
  | None => a
  end.

(** [connect()] from the line after [await checkBackend()] on. *)
Definition connect_rest (a : P2PDiffusion) : P2PDiffusion :=
  _setupNetworkCallbacks (set_connecting false (set_isConnected true a)).

(** [connect()] up to its first real suspension; [roomId] is the trimmed
    text of the room field.  Joining is taken to succeed. *)
Definition connect (roomId : string) (a : P2PDiffusion) : P2PDiffusion :=
  if String.eqb roomId "" then a
  else
    let a := set_connecting true a in
    let a := set_network
               (Network.join roomId (Some (deviceCapabilities a)) (network a)) a in
    let a := construct_coordinator a in
    let a := with_coordinator
               (fun c =>
                  onQueueChange true
                    (onComplete true
                       (onProgress true
                          (setLocalCapabilities (deviceCapabilities a) c)))) a in
    if backendAvailable a then a else connect_rest a.

(** The request of [coordinator.checkBackend()] is answered and [connect]
    goes on. *)
Definition backend_answered (outcome : option bool) (a : P2PDiffusion) : P2PDiffusion :=
  if connecting a
  then connect_rest (with_coordinator (checkBackend outcome "/api") a)
  else a.

(** [disconnect()] *)
Definition disconnect (a : P2PDiffusion) : P2PDiffusion :=
  let a := set_network (Network.leave (network a)) a in
  set_coordinator None (set_isConnected false a).

(** A click on the join button ([toggleConnection]); the button is
    disabled while [connect] is under way. *)
Definition toggleConnection (roomId : string) (a : P2PDiffusion) : P2PDiffusion :=
  if connecting a then a
  else if isConnected a then disconnect a else connect roomId a.

(** What a coordinator does with what the network hands it
    ([_setupNetworkHandlers]). *)
Definition coordinator_event (now : Z) (ev : Network.RoomEvent) : option Event :=
  match ev with
  | Network.PeerJoin _ => None
  | Network.PeerLeave peerId => Some (PeerLeave now peerId)
  | Network.GetTask task peerId => Some (NetTask now task peerId)
  | Network.GetResult result peerId => Some (NetResult now result peerId)
  | Network.GetProgress progress peerId => Some (NetProgress progress peerId)
  | Network.GetCapabilities capabilities peerId =>
      Some (NetCapabilities capabilities peerId)
  | Network.GetQueueUpdate queueData peerId =>
      Some (NetQueueUpdate queueData peerId)
  | Network.GetChunk _ _ => None
  end.

(** The subscriber of a slot is called. *)
Definition deliver (now : Z) (ev : Network.RoomEvent)
    (f : option Network.Subscriber) (a : P2PDiffusion) : P2PDiffusion :=
  match f with
  | None => a
  | Some (Network.OfCoordinator i) =>
      match coordinators a !! i, coordinator_event now ev with
      | Some c, Some e => set_coordinators (<[i := handle e c]> (coordinators a)) a
      | _, _ => a
      end
  | Some Network.OfPage => a
  end.

(** What happens to the page. *)
Inductive PageEvent :=
| Click (roomId : string)
| BackendAnswered (outcome : option bool)
| FromRoom (now : Z) (ev : Network.RoomEvent)
| Generate (now : Z) (rnd : string) (prompt negativePrompt model : string)
| Timer (instance : nat) (now : Z) (k : nat)
| Announce (k : nat).

Definition step (e : PageEvent) (a : P2PDiffusion) : P2PDiffusion :=
  match e with
  | Click roomId => toggleConnection roomId a
  | BackendAnswered outcome => backend_answered outcome a
  | FromRoom now ev =>
      let r := Network.receive ev (network a) in
      deliver now ev r.1.2 (send r.2 (set_network r.1.1 a))
  | Generate now rnd prompt negativePrompt model =>
      match the_coordinator a with
      | Some c =>
          with_coordinator
            (fun c => snd (startGeneration now rnd (isConnected a) prompt
                             negativePrompt model c)) a
      | None => a
      end
  | Timer i now k =>
      match coordinators a !! i with
      | Some c => set_coordinators (<[i := handle (Tick now k) c]> (coordinators a)) a
      | None => a
      end
  | Announce k =>
      let r := Network.announce k (network a) in
      send r.2 (set_network r.1 a)
  end.

Definition run (events : list PageEvent) (a : P2PDiffusion) : P2PDiffusion :=
  fold_left (fun a e => step e a) events a.

(** A line of the log the page shows. *)
Record LogEntry := {
  className : string;
  textContent : string
}.

(** The loop of [_log]: while the container has more than 100 children,
    the first one is removed.  Every turn removes one child, so as many
    turns as there are children are enough. *)
Fixpoint trim_log (turns : nat) (children : list LogEntry) : list LogEntry :=
  match turns with
  | O => children
  | S turns' =>
      if Nat.ltb 100 (length children)
      then trim_log turns' (tail children)
      else children
  end.

(** [_log(type, message)] on the children of the log container, which
    holds nothing but the entries [_log] appended; [timestamp] is the text
    of the clock. *)
Definition _log (timestamp type message : string)
    (children : list LogEntry) : list LogEntry :=
  let children :=
    children ++ [ {| className := "log-entry " +:+ type;
                     textContent := "[" +:+ timestamp +:+ "] " +:+ message |} ] in
  trim_log (length children) children.
End Page.

(** ** Vocabulary of the network and the page *)

(** A network object in order, [r] being the room joined last. *)
Definition network_ok (r : option string) (n : Network.P2PNetwork) : Prop :=
  Network.isConnected n = isSome (Network.room n) /\
  (Network.room n = None -> Network.peers n = JSMap.empty) /\
  NoDup (JSMap.keys (Network.peers n)) /\
  Forall (fun kp => Network.peer_id kp.2 = kp.1 /\
                    Network.peer_status kp.2 = "connected") (Network.peers n) /\
  (forall x, Network.room n = Some x -> r = Some x) /\
  Network.sendTask n = r /\ Network.sendResult n = r /\
  Network.sendProgress n = r /\ Network.sendCapabilities n = r /\
  Network.sendQueueUpdate n = r /\ Network.sendChunk n = r.

(** The page has registered its own functions for peer join, peer leave
    and capabilities. *)
Definition page_listens (n : Network.P2PNetwork) : Prop :=
  Network.onPeerJoinCallback n = Some Network.OfPage /\
  Network.onPeerLeaveCallback n = Some Network.OfPage /\
  Network.onCapabilitiesCallback n = Some Network.OfPage.

(** An event of the room about who is there and what they can do. *)
Definition about_peers (ev : Network.RoomEvent) : Prop :=
  match ev with
  | Network.PeerJoin _ => True
  | Network.PeerLeave _ => True
  | Network.GetCapabilities _ _ => True
  | _ => False
  end.

(** No coordinator is told of capabilities. *)
Definition capabilities_not_to_coordinator (n : Network.P2PNetwork) : Prop :=
  Network.onCapabilitiesCallback n = None \/
  Network.onCapabilitiesCallback n = Some Network.OfPage.

(** Nothing suspended in [connect], no coordinator in the capabilities
    slot, and every registry empty. *)
Definition alone (a : Page.P2PDiffusion) : Prop :=
  Page.backendAvailable a = false /\ Page.connecting a = false /\
  capabilities_not_to_coordinator (Page.network a) /\
  Forall (fun c => workers c = JSMap.empty) (Page.coordinators a).

(** The function in a callback slot of the network. *)
Definition slot_of (slot : Network.Slot) (n : Network.P2PNetwork) :
    option Network.Subscriber :=
  match slot with
  | Network.SlotPeerJoin => Network.onPeerJoinCallback n
  | Network.SlotPeerLeave => Network.onPeerLeaveCallback n
  | Network.SlotTask => Network.onTaskCallback n
  | Network.SlotResult => Network.onResultCallback n
  | Network.SlotProgress => Network.onProgressCallback n
  | Network.SlotCapabilities => Network.onCapabilitiesCallback n
  | Network.SlotQueueUpdate => Network.onQueueUpdateCallback n
  | Network.SlotChunk => Network.onChunkCallback n
  end.

(** The coordinator functions in the slots are those of the coordinator
    constructed last, none of them sits in the slot for peer join, and
    [this.coordinator] is that coordinator or null. *)
Definition latest_only (a : Page.P2PDiffusion) : Prop :=
  (forall slot i,
      slot_of slot (Page.network a) = Some (Network.OfCoordinator i) ->
      slot <> Network.SlotPeerJoin /\ S i = length (Page.coordinators a)) /\
  (forall i, Page.coordinator a = Some i -> S i = length (Page.coordinators a)).

(** An event other than a timer of a coordinator. *)
Definition not_a_timer (e : Page.PageEvent) : Prop :=
  match e with Page.Timer _ _ _ => False | _ => True end.

(** * Properties *)

(** ** [JSMap] *)

Lemma JSMap_get_set_eq {V : Type} (k : string) (v : V) (m : JSMap.t V) :
  JSMap.get k (JSMap.set k v m) = Some v.
Proof.
  induction m as [|[k' v'] m IH]; simpl.
  - by rewrite String.eqb_refl.
  - destruct (String.eqb k' k) eqn:E; simpl.
    + by rewrite String.eqb_refl.
    + by rewrite E.
Qed.

Lemma JSMap_get_set_ne {V : Type} (k k0 : string) (v : V) (m : JSMap.t V) :
  k0 <> k -> JSMap.get k0 (JSMap.set k v m) = JSMap.get k0 m.
Proof.
  intros Hne. induction m as [|[k' v'] m IH]; simpl.
  - destruct (String.eqb k k0) eqn:E; [|done].
    apply String.eqb_eq in E. by subst.
  - destruct (String.eqb k' k) eqn:E; simpl.
    + apply String.eqb_eq in E. subst k'.
      destruct (String.eqb k k0) eqn:E'; [|done].
      apply String.eqb_eq in E'. by subst.
    + by rewrite IH.
Qed.

Lemma JSMap_get_delete_ne {V : Type} (k k0 : string) (m : JSMap.t V) :
  k0 <> k -> JSMap.get k0 (JSMap.delete k m) = JSMap.get k0 m.
Proof.
  intros Hne. induction m as [|[k' v'] m IH]; simpl; [done|].
  destruct (String.eqb k' k) eqn:E; simpl.
  - apply String.eqb_eq in E. subst k'.
    destruct (String.eqb k k0) eqn:E'; [|done].
    apply String.eqb_eq in E'. by subst.
  - by rewrite IH.
Qed.

Lemma JSMap_delete_set {V : Type} (k : string) (v : V) (m : JSMap.t V) :
  JSMap.delete k (JSMap.set k v m) = JSMap.delete k m.
Proof.
  induction m as [|[k' v'] m IH]; simpl.
  - by rewrite String.eqb_refl.
  - destruct (String.eqb k' k) eqn:E; simpl.
    + by rewrite String.eqb_refl.
    + by rewrite E, IH.
Qed.

Lemma JSMap_get_None {V : Type} (k : string) (m : JSMap.t V) :
  JSMap.get k m = None <-> k ∉ JSMap.keys m.
Proof.
  unfold JSMap.keys. induction m as [|[k' v'] m IH]; simpl.
  - split; [intros _ H; by apply elem_of_nil in H|done].
  - destruct (String.eqb k' k) eqn:E.
    + apply String.eqb_eq in E. subst. split; [done|].
      intros H. destruct H. by left.
    + apply String.eqb_neq in E. rewrite IH. split.
      * intros H Hin. apply elem_of_cons in Hin as [->|Hin]; done.
      * intros H Hin. apply H. by right.
Qed.

Lemma JSMap_get_delete_eq {V : Type} (k : string) (m : JSMap.t V) :
  NoDup (JSMap.keys m) -> JSMap.get k (JSMap.delete k m) = None.
Proof.
  unfold JSMap.keys. induction m as [|[k' v'] m IH]; simpl; [done|].
  intros H. apply NoDup_cons in H as [Hni Hnd].
  destruct (String.eqb k' k) eqn:E; simpl.
  - apply String.eqb_eq in E. subst k'. by apply JSMap_get_None.
  - rewrite E. by apply IH.
Qed.

Lemma JSMap_get_elem {V : Type} (k : string) (v : V) (m : JSMap.t V) :
  NoDup (JSMap.keys m) -> (k, v) ∈ m -> JSMap.get k m = Some v.
Proof.
  unfold JSMap.keys. induction m as [|[k' v'] m IH]; simpl.
  - intros _ H. by apply elem_of_nil in H.
  - intros Hnd H. apply NoDup_cons in Hnd as [Hni Hnd].
    apply elem_of_cons in H as [[= -> ->]|H].
    + by rewrite String.eqb_refl.
    + destruct (String.eqb k' k) eqn:E; [|by apply IH].
      apply String.eqb_eq in E. subst k'. destruct Hni.
      apply list_elem_of_fmap. by exists (k, v).
Qed.

(** ** Queue synchronisation *)

Lemma in_queue_true (id : string) (q : list Task) :
  in_queue id q = true <-> id ∈ ids q.
Proof.
  unfold in_queue, ids. rewrite existsb_exists, list_elem_of_fmap.
  split.
  - intros (t & Hin & E). apply String.eqb_eq in E. exists t.
    split; [done|]. by apply list_elem_of_In.
  - intros (t & -> & Hin). exists t. split; [by apply list_elem_of_In|].
    apply String.eqb_refl.
Qed.

Lemma in_queue_false (id : string) (q : list Task) :
  in_queue id q = false <-> id ∉ ids q.
Proof.
  rewrite <- in_queue_true. destruct (in_queue id q); naive_solver.
Qed.

(** The loop only touches the queue and the identity counter. *)
Lemma _syncQueue_loop_frame (incoming : list WireTask) (s : Coordinator) :
  let s' := _syncQueue_loop incoming s in
  currentTask s' = currentTask s /\ workers s' = workers s /\
  trace s' = trace s /\ pending s' = pending s /\ detached s' = detached s /\
  onQueueChangeCallback s' = onQueueChangeCallback s.
Proof.
  revert s. induction incoming as [|w inc IH]; intros s; simpl; [done|].
  destruct (in_queue (wire_id w) (queue s)); simpl.
  - apply IH.
  - specialize (IH (set_nextOid (S (nextOid s))
                      (set_queue (queue s ++ [of_wire (nextOid s) None w]) s))).
    simpl in IH. apply IH.
Qed.

(** What the loop appends: received entries, as received, whose ids were
    absent, each id once. *)
Lemma _syncQueue_loop_appends (incoming : list WireTask) (s : Coordinator) :
  exists added,
    queue (_syncQueue_loop incoming s) = queue s ++ added /\
    NoDup (ids added) /\
    (forall t, t ∈ added ->
       (task_id t ∉ ids (queue s)) /\
       (exists w o, w ∈ incoming /\ t = of_wire o None w)).
Proof.
  revert s. induction incoming as [|w inc IH]; intros s; simpl.
  - exists []. rewrite app_nil_r. split; [done|]. split; [constructor|].
    intros t Ht. by apply elem_of_nil in Ht.
  - destruct (in_queue (wire_id w) (queue s)) eqn:E; simpl.
    + destruct (IH s) as (added & Hq & Hnd & Hall).
      exists added. split; [done|]. split; [done|].
      intros t Ht. destruct (Hall t Ht) as (Hni & w' & o & Hw' & ->).
      split; [done|]. exists w', o. split; [by right|done].
    + set (t0 := of_wire (nextOid s) None w).
      destruct (IH (set_nextOid (S (nextOid s)) (set_queue (queue s ++ [t0]) s)))
        as (added & Hq & Hnd & Hall). simpl in Hq, Hall.
      exists (t0 :: added). split.
      { rewrite Hq. by rewrite <- app_assoc. }
      apply in_queue_false in E.
      split.
      { simpl. constructor; [|done].
        intros Hin. apply list_elem_of_fmap in Hin as (t & Hid & Ht).
        destruct (Hall t Ht) as (Hni & _). apply Hni.
        unfold ids. rewrite fmap_app. apply elem_of_app. right.
        simpl. rewrite <- Hid. by left. }
      intros t Ht. apply elem_of_cons in Ht as [-> | Ht].
      * split; [done|]. exists w, (nextOid s). split; [by left|done].
      * destruct (Hall t Ht) as (Hni & w' & o & Hw' & ->).
        split.
        { intros Hin. apply Hni. unfold ids. rewrite fmap_app.
          apply elem_of_app. by left. }
        exists w', o. split; [by right|done].
Qed.

Lemma _syncQueue_loop_prefix (incoming : list WireTask) (s : Coordinator) :
  queue s `prefix_of` queue (_syncQueue_loop incoming s).
Proof.
  destruct (_syncQueue_loop_appends incoming s) as (added & -> & _).
  by apply prefix_app_r.
Qed.

(** After the loop every received id is in the queue. *)
Lemma _syncQueue_loop_covers (incoming : list WireTask) (s : Coordinator) :
  forall w, w ∈ incoming -> wire_id w ∈ ids (queue (_syncQueue_loop incoming s)).
Proof.
  revert s. induction incoming as [|w0 inc IH]; intros s w Hw.
  - by apply elem_of_nil in Hw.
  - simpl. apply elem_of_cons in Hw as [-> | Hw]; [|by apply IH].
    match goal with |- _ ∈ ids (queue (_syncQueue_loop inc ?s1)) =>
      assert (Hin : wire_id w0 ∈ ids (queue s1)) end.
    { destruct (in_queue (wire_id w0) (queue s)) eqn:E; simpl.
      - by apply in_queue_true.
      - unfold ids. rewrite fmap_app. apply elem_of_app. right. simpl. by left. }
    match goal with |- _ ∈ ids (queue (_syncQueue_loop inc ?s1)) =>
      destruct (_syncQueue_loop_prefix inc s1) as [k ->] end.
    unfold ids in *. rewrite fmap_app. apply elem_of_app. by left.
Qed.

(** A projection whose ids are all queued changes nothing. *)
Lemma _syncQueue_loop_noop (incoming : list WireTask) (s : Coordinator) :
  (forall w, w ∈ incoming -> wire_id w ∈ ids (queue s)) ->
  _syncQueue_loop incoming s = s.
Proof.
  induction incoming as [|w inc IH]; intros H; simpl; [done|].
  assert (E : in_queue (wire_id w) (queue s) = true).
  { apply in_queue_true, H. by left. }
  rewrite E. simpl. apply IH. intros w' Hw'. apply H. by right.
Qed.

Lemma _syncQueue_queue (queueData : QueueData) (peerId : string) (s : Coordinator) :
  queue (_syncQueue queueData peerId s)
  = queue (_syncQueue_loop (default [] (tasks queueData)) s).
Proof. unfold _syncQueue. by destruct (onQueueChangeCallback _). Qed.

Lemma _syncQueue_currentTask (queueData : QueueData) (peerId : string) (s : Coordinator) :
  currentTask (_syncQueue queueData peerId s) = currentTask s.
Proof.
  unfold _syncQueue.
  destruct (_syncQueue_loop_frame (default [] (tasks queueData)) s) as (H & _).
  by destruct (onQueueChangeCallback _).
Qed.

(** C7.  The merge of a received queue projection is add-only and
    idempotent by job id.  The local queue survives as a prefix (no entry
    removed, moved or rewritten, so no status is downgraded); what is
    appended are received entries, exactly as received, whose ids were
    missing, one per id; afterwards every received id is queued; a second
    reception of the same projection leaves the queue as the first left it;
    and a queue without duplicate ids stays without. *)
Theorem C7_syncQueue_add_only_idempotent
    (queueData : QueueData) (peerId peerId' : string) (s : Coordinator) :
  let incoming := default [] (tasks queueData) in
  let s1 := _syncQueue queueData peerId s in
  let s2 := _syncQueue queueData peerId' s1 in
  (exists added,
      queue s1 = queue s ++ added /\
      NoDup (ids added) /\
      (forall t, t ∈ added ->
         (task_id t ∉ ids (queue s)) /\
         (exists w o, w ∈ incoming /\ t = of_wire o None w))) /\
  (forall w, w ∈ incoming -> wire_id w ∈ ids (queue s1)) /\
  queue s2 = queue s1 /\
  (NoDup (ids (queue s)) -> NoDup (ids (queue s1))) /\
  currentTask s1 = currentTask s.
Proof.
  intros incoming s1 s2. subst s1 s2.
  rewrite !_syncQueue_queue. fold incoming.
  pose proof (_syncQueue_loop_appends incoming s) as Happ.
  pose proof (_syncQueue_loop_covers incoming s) as Hcov.
  split; [exact Happ|]. split; [exact Hcov|]. split.
  - rewrite _syncQueue_loop_noop; [by rewrite _syncQueue_queue|].
    intros w Hw. rewrite _syncQueue_queue. by apply Hcov.
  - split; [|apply _syncQueue_currentTask].
    destruct Happ as (added & -> & Hnd & Hall). intros Hq.
    unfold ids. rewrite fmap_app. apply NoDup_app.
    split; [done|]. split; [|done].
    intros i Hi Hi'. apply list_elem_of_fmap in Hi' as (t & -> & Ht).
    by destruct (Hall t Ht) as (Hni & _).
Qed.

(** C10.  The membership test of the merge looks at the queue only.  When
    a received projection names the job in the active slot, the active
    slot is left as it is and the job's id is in the queue afterwards; if
    the id was not queued (the job left the queue when it became active),
    an entry with that id is appended.  The same id is then held twice. *)
Theorem C10_active_job_requeued
    (queueData : QueueData) (peerId : string) (s : Coordinator)
    (t : Task) (w : WireTask) :
  currentTask s = Some t ->
  w ∈ default [] (tasks queueData) ->
  wire_id w = task_id t ->
  let s' := _syncQueue queueData peerId s in
  currentTask s' = Some t /\
  task_id t ∈ ids (queue s') /\
  (task_id t ∉ ids (queue s) ->
     exists added, queue s' = queue s ++ added /\ task_id t ∈ ids added).
Proof.
  intros Hcur Hw Hid s'. subst s'.
  rewrite _syncQueue_currentTask, _syncQueue_queue.
  split; [done|].
  pose proof (_syncQueue_loop_covers _ s w Hw) as Hin. rewrite Hid in Hin.
  split; [done|]. intros Hni.
  destruct (_syncQueue_loop_appends (default [] (tasks queueData)) s)
    as (added & Hq & _). exists added. split; [done|].
  rewrite Hq in Hin. unfold ids in Hin. rewrite fmap_app in Hin.
  apply elem_of_app in Hin as [Hin|Hin]; [by destruct Hni|done].
Qed.

(** ** The writes a method body is made of

    Every scheduling method is a finite sequence of the following writes.
    A property kept by each of them is kept by every method and so by every
    event. *)


Lemma writes_refl s : writes s s.
Proof. apply rtc_refl. Qed.

Lemma writes_then s1 s2 s3 : writes s1 s2 -> write s2 s3 -> writes s1 s3.
Proof. intros H1 H2. eapply rtc_r; eauto. Qed.

Lemma writes_trans s1 s2 s3 : writes s1 s2 -> writes s2 s3 -> writes s1 s3.
Proof. intros H1 H2. by etrans. Qed.

Lemma writes_throw msg s1 s2 : writes s1 s2 -> writes s1 (throw msg s2).
Proof. intros H. eapply writes_then; [exact H|apply write_emit]. Qed.

(** Peel the outermost write off the target state. *)
Ltac peel :=
  first
    [ apply writes_refl
    | assumption
    | apply writes_throw
    | eapply writes_then; [|solve [ apply write_emit | apply write_pending
                                  | apply write_task; done | apply write_clear
                                  | apply write_delete
                                  | eapply write_current; simpl; eauto 7
                                  | eapply write_working; simpl; eauto
                                  | eapply write_shift; simpl; eauto ]] ].

Section Writes.
Variable now : Z.
Variable next : Coordinator -> Coordinator.
Hypothesis next_writes : forall s, writes s (next s).

Lemma _completeTask_writes s : writes s (Body._completeTask now next s).
Proof.
  unfold Body._completeTask. destruct (currentTask s) as [t|] eqn:Hc.
  - eapply writes_trans; [|apply next_writes].
    simpl. destruct (onCompleteCallback s); repeat peel.
  - repeat peel.
Qed.

Lemma _handleResult_writes result peerId s :
  writes s (Body._handleResult now next result peerId s).
Proof.
  unfold Body._handleResult. destruct (currentTask s) as [t|] eqn:Hc; [|peel].
  destruct (negb _); [peel|].
  destruct (results t) as [m|] eqn:Hm; [|repeat peel].
  set (m' := JSMap.set (result_chunkId result) result m).
  assert (Hrec : write s (set_currentTask (Some (set_results (Some m') t)) s)).
  { eapply write_current; [done|]. right. by eexists _, _, _. }
  destruct (chunks t); [|apply writes_throw, rtc_once, Hrec].
  destruct (Nat.eqb _ _); [|apply rtc_once, Hrec].
  eapply writes_trans; [apply rtc_once, Hrec|apply _completeTask_writes].
Qed.

Lemma _processChunkLocally_loop_writes workerTask owner i s :
  writes s (Body._processChunkLocally_loop now next workerTask owner i s).
Proof.
  unfold Body._processChunkLocally_loop. destruct (_ <? _).
  - destruct (onProgressCallback s); [destruct (options _)|]; repeat peel.
  - eapply writes_trans; [|apply _handleResult_writes].
    destruct owner; repeat peel.
Qed.

Lemma _processLocally_loop_writes task totalSteps step s :
  writes s (Body._processLocally_loop now next task totalSteps step s).
Proof.
  unfold Body._processLocally_loop. destruct (_ <? _).
  - destruct (onProgressCallback s); repeat peel.
  - eapply writes_trans; [|apply next_writes].
    simpl. destruct (onCompleteCallback _); repeat peel.
Qed.

Lemma _processLocally_writes task s :
  writes s (Body._processLocally now next task s).
Proof.
  unfold Body._processLocally. destruct (options task); [|repeat peel].
  apply _processLocally_loop_writes.
Qed.

Lemma _distributeWork_loop_writes task totalSteps chunksPerWorker i rest s :
  writes s (Body._distributeWork_loop now next task totalSteps
              chunksPerWorker i rest s).
Proof.
  revert i s. induction rest as [|worker rest IH]; intros i s; simpl; [peel|].
  destruct (_ <=? _); [peel|].
  eapply writes_trans; [|apply IH].
  destruct (isLocal worker).
  - eapply writes_trans; [|apply _processChunkLocally_loop_writes]. repeat peel.
  - destruct (JSMap.get _ _) eqn:Hg; repeat peel.
Qed.

Lemma _distributeWork_writes task workers s :
  writes s (Body._distributeWork now next task workers s).
Proof.
  unfold Body._distributeWork. destruct (options task); [|repeat peel].
  eapply writes_trans; [|apply _distributeWork_loop_writes]. repeat peel.
Qed.

Lemma _processNextTask_body_writes s :
  writes s (Body._processNextTask now next s).
Proof.
  unfold Body._processNextTask.
  destruct (currentTask s) eqn:Hc; [peel|].
  destruct (queue s) as [|t q] eqn:Hq; [peel|].
  destruct (Nat.eqb _ _).
  - eapply writes_trans; [|apply _processLocally_writes]. repeat peel.
  - eapply writes_trans; [|apply _distributeWork_writes]. repeat peel.
Qed.

Lemma _handleWorkerDisconnect_writes peerId s :
  writes s (Body._handleWorkerDisconnect now next peerId s).
Proof.
  unfold Body._handleWorkerDisconnect.
  destruct (JSMap.get peerId (workers s)) as [worker|]; [|repeat peel].
  destruct (currentTask s) as [t|]; [|repeat peel].
  destruct (currentChunk worker) as [cid|]; [|repeat peel].
  destruct (chunks t) as [cs|]; [|repeat peel].
  destruct (List.find _ cs) as [chunk|]; [|repeat peel].
  destruct (negb _); [|repeat peel].
  eapply writes_then; [|apply write_delete].
  destruct (_getAvailableWorkers _); [|repeat peel].
  eapply writes_trans; [|apply _processChunkLocally_loop_writes]. repeat peel.
Qed.
End Writes.

Lemma _processNextTask_fuel_writes fuel now s :
  writes s (_processNextTask_fuel fuel now s).
Proof.
  revert s. induction fuel as [|fuel IH]; intros s; simpl.
  - apply writes_refl.
  - by apply _processNextTask_body_writes.
Qed.

Lemma _processNextTask_writes now s : writes s (_processNextTask now s).
Proof. apply _processNextTask_fuel_writes. Qed.

Lemma update_task_queue o g s : queue (update_task o g s) = queue s.
Proof. unfold update_task. by repeat case_match. Qed.

Lemma update_task_trace o g s : trace (update_task o g s) = trace s.
Proof. unfold update_task. by repeat case_match. Qed.

Lemma update_task_workers o g s : workers (update_task o g s) = workers s.
Proof. unfold update_task. by repeat case_match. Qed.

Lemma update_task_pending o g s : pending (update_task o g s) = pending s.
Proof. unfold update_task. by repeat case_match. Qed.

Lemma clear_currentTask_queue s : queue (clear_currentTask s) = queue s.
Proof. unfold clear_currentTask. by case_match. Qed.

Lemma clear_currentTask_trace s : trace (clear_currentTask s) = trace s.
Proof. unfold clear_currentTask. by case_match. Qed.

Lemma clear_currentTask_workers s : workers (clear_currentTask s) = workers s.
Proof. unfold clear_currentTask. by case_match. Qed.


(** Jobs leave the queue from its head only. *)
Lemma write_queue s s' : write s s' -> queue s' `suffix_of` queue s.
Proof.
  destruct 1; simpl; rewrite ?update_task_queue, ?clear_currentTask_queue;
    try done.
  rewrite H0. by apply suffix_cons_r.
Qed.

Lemma writes_queue s s' : writes s s' -> queue s' `suffix_of` queue s.
Proof.
  induction 1 as [|s1 s2 s3 H1 _ IH]; [done|].
  etrans; [exact IH|]. by apply write_queue.
Qed.

(** The trace only grows. *)
Lemma write_trace s s' : write s s' -> trace s `prefix_of` trace s'.
Proof.
  destruct 1; simpl; rewrite ?update_task_trace, ?clear_currentTask_trace;
    try done.
  by apply prefix_app_r.
Qed.

Lemma writes_trace s s' : writes s s' -> trace s `prefix_of` trace s'.
Proof.
  induction 1 as [|s1 s2 s3 H1 _ IH]; [done|].
  etrans; [|exact IH]. by apply write_trace.
Qed.

Lemma write_setup s s' : write s s' -> same_setup s s'.
Proof.
  destruct 1; unfold same_setup, update_task, clear_currentTask; simpl;
    repeat case_match; simpl; done.
Qed.

Lemma writes_setup s s' : writes s s' -> same_setup s s'.
Proof.
  induction 1 as [|s1 s2 s3 H1 _ IH]; [done|].
  apply write_setup in H1. unfold same_setup in *.
  destruct IH as (?&?&?&?&?&?&?&?), H1 as (?&?&?&?&?&?&?&?).
  repeat split; congruence.
Qed.

(** ** [_processNextTask] *)

Lemma _processNextTask_busy now s :
  isSome (currentTask s) = true -> _processNextTask now s = s.
Proof.
  unfold _processNextTask. simpl. unfold Body._processNextTask.
  by destruct (currentTask s).
Qed.

Lemma _processNextTask_empty now s :
  queue s = [] -> _processNextTask now s = s.
Proof.
  intros H. unfold _processNextTask. rewrite H. simpl.
  unfold Body._processNextTask. rewrite H. by destruct (currentTask s).
Qed.

(** *** The fuel of [_processNextTask] never runs out

    Two stand-ins for the recursive call that agree on all states with at
    most [n] queued jobs give the same result on such states: a method body
    reaches its recursive calls by writes, which never lengthen the queue. *)

Section Agree.
Variable now : Z.
Variables next next' : Coordinator -> Coordinator.
Variable n : nat.
Hypothesis next_writes : forall s, writes s (next s).
Hypothesis agree : forall s, (length (queue s) <= n)%nat -> next s = next' s.

Lemma writes_short s s' :
  writes s s' -> (length (queue s) <= n)%nat -> (length (queue s') <= n)%nat.
Proof.
  intros H Hn. apply writes_queue, suffix_length in H. lia.
Qed.

Lemma _completeTask_agree s :
  (length (queue s) <= n)%nat ->
  Body._completeTask now next s = Body._completeTask now next' s.
Proof.
  intros Hn. unfold Body._completeTask. destruct (currentTask s); [|done].
  apply agree. rewrite clear_currentTask_queue.
  by destruct (onCompleteCallback _).
Qed.

Lemma _handleResult_agree result peerId s :
  (length (queue s) <= n)%nat ->
  Body._handleResult now next result peerId s
  = Body._handleResult now next' result peerId s.
Proof.
  intros Hn. unfold Body._handleResult.
  repeat case_match; try done. by apply _completeTask_agree.
Qed.

Lemma _processChunkLocally_loop_agree workerTask owner i s :
  (length (queue s) <= n)%nat ->
  Body._processChunkLocally_loop now next workerTask owner i s
  = Body._processChunkLocally_loop now next' workerTask owner i s.
Proof.
  intros Hn. unfold Body._processChunkLocally_loop.
  destruct (_ <? _); [done|]. apply _handleResult_agree.
  destruct owner; [|done]. by rewrite update_task_queue.
Qed.

Lemma _processLocally_agree task s :
  (length (queue s) <= n)%nat ->
  Body._processLocally now next task s = Body._processLocally now next' task s.
Proof.
  intros Hn. unfold Body._processLocally, Body._processLocally_loop.
  destruct (options task); [|done]. destruct (_ <? _); [done|].
  apply agree. rewrite clear_currentTask_queue.
  destruct (onCompleteCallback _); simpl; by rewrite update_task_queue.
Qed.

Lemma _distributeWork_loop_agree task totalSteps chunksPerWorker i rest s :
  (length (queue s) <= n)%nat ->
  Body._distributeWork_loop now next task totalSteps chunksPerWorker i rest s
  = Body._distributeWork_loop now next' task totalSteps chunksPerWorker i rest s.
Proof.
  revert i s. induction rest as [|worker rest IH]; intros i s Hn; simpl; [done|].
  destruct (_ <=? _); [done|]. destruct (isLocal worker).
  - unfold Body._processChunkLocally.
    rewrite <- _processChunkLocally_loop_agree
      by (by rewrite update_task_queue).
    apply IH. eapply writes_short.
    + apply _processChunkLocally_loop_writes, next_writes.
    + by rewrite update_task_queue.
  - apply IH. simpl. destruct (JSMap.get _ _); simpl;
      by rewrite update_task_queue.
Qed.

Lemma _distributeWork_agree task workers s :
  (length (queue s) <= n)%nat ->
  Body._distributeWork now next task workers s
  = Body._distributeWork now next' task workers s.
Proof.
  intros Hn. unfold Body._distributeWork. destruct (options task); [|done].
  apply _distributeWork_loop_agree. by rewrite update_task_queue.
Qed.
End Agree.

Lemma _processNextTask_fuel_agree now fuel fuel' s :
  (length (queue s) < fuel)%nat -> (length (queue s) < fuel')%nat ->
  _processNextTask_fuel fuel now s = _processNextTask_fuel fuel' now s.
Proof.
  revert fuel' s. induction fuel as [|fuel IH]; intros fuel' s H H'; [lia|].
  destruct fuel' as [|fuel']; [lia|]. simpl. unfold Body._processNextTask.
  destruct (currentTask s); [done|].
  destruct (queue s) as [|t q] eqn:Hq; [done|]. simpl in H, H'.
  assert (Hag : forall s', (length (queue s') <= length q)%nat ->
            _processNextTask_fuel fuel now s' = _processNextTask_fuel fuel' now s').
  { intros s' Hs'. apply IH; lia. }
  destruct (Nat.eqb _ _).
  - eapply _processLocally_agree; [exact Hag|done].
  - eapply _distributeWork_agree;
      [intros; apply _processNextTask_fuel_writes|exact Hag|done].
Qed.

(** More fuel than [_processNextTask] takes changes nothing. *)
Lemma _processNextTask_fuel_enough now fuel s :
  (length (queue s) < fuel)%nat ->
  _processNextTask_fuel fuel now s = _processNextTask now s.
Proof. intros H. apply _processNextTask_fuel_agree; [done|lia]. Qed.

(** One activation of [_processNextTask], with the real recursive call. *)
Lemma _processNextTask_unfold now s :
  _processNextTask now s = Body._processNextTask now (_processNextTask now) s.
Proof.
  unfold _processNextTask at 1. simpl. unfold Body._processNextTask.
  destruct (currentTask s); [done|].
  destruct (queue s) as [|t q] eqn:Hq; [done|].
  assert (Hag : forall s', (length (queue s') <= length q)%nat ->
            _processNextTask_fuel (length (t :: q)) now s' = _processNextTask now s').
  { intros s' Hs'. apply _processNextTask_fuel_enough. simpl. lia. }
  destruct (Nat.eqb _ _).
  - eapply _processLocally_agree; [exact Hag|done].
  - eapply _distributeWork_agree;
      [intros; apply _processNextTask_fuel_writes|exact Hag|done].
Qed.

(** ** Generated ids *)

Lemma pretty_N_char_underscore (x : N) :
  pretty_N_char x <> "_"%char.
Proof. unfold pretty_N_char. by repeat case_match. Qed.

Lemma pretty_N_go_underscore (x : N) (s : string) :
  has_underscore (pretty_N_go x s) = has_underscore s.
Proof.
  revert s. induction (N.lt_wf_0 x) as [x _ IH]; intros s.
  assert (x = 0 \/ 0 < x)%N as [->|?] by lia.
  - by rewrite pretty_N_go_0.
  - rewrite pretty_N_go_step by done. rewrite IH by (by apply N.div_lt).
    simpl. pose proof (pretty_N_char_underscore (x `mod` 10)) as Hc.
    destruct (Ascii.eqb _ _) eqn:E; [|done].
    by apply Ascii.eqb_eq in E.
Qed.

Lemma pretty_N_underscore (x : N) : has_underscore (pretty x) = false.
Proof.
  unfold pretty, pretty_N. case_decide; [done|].
  by rewrite pretty_N_go_underscore.
Qed.

Lemma pretty_Z_underscore (x : Z) : has_underscore (pretty x) = false.
Proof.
  destruct x as [|p|p]; [done| |].
  - apply (pretty_N_underscore (N.pos p)).
  - change (has_underscore ("-" +:+ pretty (N.pos p)) = false). simpl.
    apply pretty_N_underscore.
Qed.

Lemma split_at_underscore (a a' r r' : string) :
  has_underscore a = false -> has_underscore a' = false ->
  a +:+ String "_" r = a' +:+ String "_" r' -> a = a' /\ r = r'.
Proof.
  revert a'. induction a as [|c a IH]; intros [|c' a']; simpl.
  - intros _ _ [= ->]. done.
  - intros _ H [= <- _]. by rewrite Ascii.eqb_refl in H.
  - intros H _ [= -> _]. by rewrite Ascii.eqb_refl in H.
  - intros H H' [= -> E].
    destruct (Ascii.eqb c' "_"%char); [done|].
    destruct (IH a' H H' E) as [-> ->]. done.
Qed.

(** The id [addTask] generates determines the clock reading and the random
    suffix it was built from. *)
Lemma generated_id_inj (now now' : Z) (rnd rnd' : string) :
  "task_" +:+ pretty now +:+ "_" +:+ rnd
  = "task_" +:+ pretty now' +:+ "_" +:+ rnd' ->
  now = now' /\ rnd = rnd'.
Proof.
  intros H. simpl in H. injection H as H.
  apply split_at_underscore in H as [Hn ->]; try apply pretty_Z_underscore.
  split; [|done]. by apply (inj pretty).
Qed.

(** ** Admission *)

(** The state [addTask] hands to [_processNextTask]. *)
Lemma addTask_pushed now rnd prompt negativePrompt options s :
  exists s1,
    snd (addTask now rnd prompt negativePrompt options s)
    = _processNextTask now s1 /\
    queue s1 = queue s ++ [new_task now rnd prompt negativePrompt options s] /\
    currentTask s1 = currentTask s /\
    (trace s ++ [BroadcastQueueUpdate
                   (map project (queue s ++
                      [new_task now rnd prompt negativePrompt options s]))])
      `prefix_of` trace s1.
Proof.
  unfold addTask. simpl. eexists. split; [reflexivity|].
  unfold _notifyBackend, _broadcastQueueUpdate. simpl.
  repeat case_match; simpl; repeat split; try done;
    try (by apply prefix_app_r); by rewrite <- app_assoc; apply prefix_app_r.
Qed.

(** The claim C4 fails: a call without prompt is fulfilled and queued. *)
Lemma C4_counterexample :
  let r := addTask 2000 "xyz" None "" no_options alone_busy in
  fst r = Fulfilled "task_2000_xyz" /\
  map prompt (queue (snd r)) = [None] /\
  length (queue (snd r)) = S (length (queue alone_busy)) /\
  ~ rejected_as_invalid r alone_busy.
Proof.
  vm_compute. repeat split; try done. intros [H _]. discriminate H.
Qed.

(** C4, as the code has it.  [addTask] validates nothing: whatever the
    prompt (missing, empty or not), the promise is fulfilled with the
    generated id and never rejected, the job is appended with the prompt it
    was given and announced to the peers in the queue projection, and when a
    job is already active the queue is one entry longer on return.  What
    keeps a job without prompt content out of the queue is the caller: the
    submit handler of the page returns without calling [addTask] when the
    trimmed prompt is empty, and the coordinator is left as it was. *)
Theorem C4_addTask_never_rejects
    (now : Z) (rnd : string) (text : option string) (negativePrompt : string)
    (options : OptionsArg) (s : Coordinator) :
  let task := new_task now rnd text negativePrompt options s in
  let r := addTask now rnd text negativePrompt options s in
  fst r = Fulfilled (task_id task) /\
  prompt task = text /\
  (trace s ++ [BroadcastQueueUpdate (map project (queue s ++ [task]))])
    `prefix_of` trace (snd r) /\
  (isSome (currentTask s) = true -> queue (snd r) = queue s ++ [task]) /\
  (forall isConnected model,
      startGeneration now rnd isConnected "" negativePrompt model s = (None, s)).
Proof.
  intros task r.
  destruct (addTask_pushed now rnd text negativePrompt options s)
    as (s1 & Hr & Hq & Hc & Htr).
  split; [done|]. split; [done|]. subst r. rewrite Hr. split; [|split].
  - etrans; [exact Htr|]. apply writes_trace, _processNextTask_writes.
  - intros Hbusy. rewrite _processNextTask_busy; [done|by rewrite Hc].
  - intros isConnected model. unfold startGeneration.
    by destruct isConnected.
Qed.

(** The claim C9 fails: on an idle coordinator the job goes straight to
    the active slot and the queue is as long as before; and the id repeats
    when the clock and the random suffix do. *)
Lemma C9_counterexample :
  let s := new_coordinator "me" in
  let r := addTask 1000 "abc" (Some "a cat") "" no_options s in
  let r' := addTask 1000 "abc" (Some "a dog") "" no_options (snd r) in
  fst r = Fulfilled "task_1000_abc" /\
  length (queue (snd r)) = length (queue s) /\
  length (queue (snd r)) <> S (length (queue s)) /\
  fst r' = fst r.
Proof. vm_compute. repeat split; done. Qed.

(** C9, as the code has it.  A call is fulfilled with the generated id
    [task_<clock>_<random>], which differs from the id of any call made
    with another clock reading or another random suffix; the job is
    appended at the tail; on return the queue is exactly one entry longer
    if a job was active at the call, and otherwise not longer than before,
    because the head of the queue is moved to the active slot within the
    call. *)
Theorem C9_addTask_valid
    (now : Z) (rnd : string) (prompt : option string) (negativePrompt : string)
    (options : OptionsArg) (s : Coordinator) :
  let task := new_task now rnd prompt negativePrompt options s in
  let r := addTask now rnd prompt negativePrompt options s in
  fst r = Fulfilled (task_id task) /\
  (forall now' rnd' prompt' negativePrompt' options' s',
      fst (addTask now' rnd' prompt' negativePrompt' options' s') = fst r ->
      now' = now /\ rnd' = rnd) /\
  (isSome (currentTask s) = true ->
     queue (snd r) = queue s ++ [task] /\
     length (queue (snd r)) = S (length (queue s))) /\
  (currentTask s = None ->
     queue (snd r) `suffix_of` tail (queue s ++ [task]) /\
     (length (queue (snd r)) <= length (queue s))%nat).
Proof.
  intros task r.
  destruct (addTask_pushed now rnd prompt negativePrompt options s)
    as (s1 & Hr & Hq & Hc & Htr).
  split; [done|]. split.
  { intros now' rnd' ? ? ? ? H.
    change (Fulfilled ("task_" +:+ pretty now' +:+ "_" +:+ rnd')
            = Fulfilled ("task_" +:+ pretty now +:+ "_" +:+ rnd)) in H.
    apply generated_id_inj. congruence. }
  subst r. rewrite Hr. split.
  - intros Hbusy. rewrite _processNextTask_busy by (by rewrite Hc).
    rewrite Hq. split; [done|]. rewrite length_app. simpl. lia.
  - intros Hidle. rewrite _processNextTask_unfold.
    unfold Body._processNextTask. rewrite Hc, Hidle, Hq. subst task.
    destruct (queue s ++ [_]) as [|h q] eqn:E.
    { by destruct (queue s). }
    assert (Hlen : length q = length (queue s)).
    { apply (f_equal length) in E. rewrite length_app in E. simpl in E. lia. }
    simpl.
    match goal with |- context [if ?b then ?x else ?y] =>
      assert (Hw : writes (set_currentTask (Some (set_status "processing" h))
                            (set_queue q s1)) (if b then x else y)) end.
    { destruct (Nat.eqb _ _).
      - apply _processLocally_writes, _processNextTask_writes.
      - apply _distributeWork_writes, _processNextTask_writes. }
    apply writes_queue in Hw. simpl in Hw. split; [done|].
    apply suffix_length in Hw. lia.
Qed.

(** ** No candidate worker *)

Lemma _getAvailableWorkers_ext s s' :
  selfId s' = selfId s -> localWorker s' = localWorker s ->
  workers s' = workers s ->
  _getAvailableWorkers s' = _getAvailableWorkers s.
Proof. unfold _getAvailableWorkers. by intros -> -> ->. Qed.

Lemma _getAvailableWorkers_nil s :
  _getAvailableWorkers s = [] ->
  (forall lw, localWorker s = Some lw -> hasGPU (local_capabilities lw) = false) /\
  List.filter is_idle_gpu (JSMap.values (workers s)) = [].
Proof.
  unfold _getAvailableWorkers. intros H. apply app_eq_nil in H as [Hl Hp].
  split.
  - intros lw Hlw. rewrite Hlw in Hl. by destruct (hasGPU _).
  - by destruct (List.filter _ _).
Qed.

(** The local run goes on one step per timer, and completes the job after
    the last one. *)
Lemma resume_ProcessLocally now k s job totalSteps step :
  pending s !! k = Some (ProcessLocally job totalSteps step) ->
  let s1 := set_pending (take k (pending s) ++ drop (S k) (pending s)) s in
  (step + 1 < totalSteps ->
     pending (resume now k s)
     = pending s1 ++ [ProcessLocally job totalSteps (step + 1)] /\
     currentTask (resume now k s) = currentTask s) /\
  (totalSteps <= step + 1 ->
     resume now k s
     = _processNextTask now
         (clear_currentTask
            (let s2 := update_task (oid job)
                         (fun t => set_completedAt (Some now)
                                     (set_status "complete" t)) s1 in
             if onCompleteCallback s2
             then emit (OnComplete (deref job s2)) s2 else s2))).
Proof.
  intros Hk s1. unfold resume. rewrite Hk. fold s1.
  unfold Body._processLocally_loop. split; intros H.
  - assert (E : (step + 1 <? totalSteps) = true) by (apply Z.ltb_lt; lia).
    rewrite E. by destruct (onProgressCallback s1).
  - assert (E : (step + 1 <? totalSteps) = false) by (apply Z.ltb_ge; lia).
    by rewrite E.
Qed.

(** The claim C5 fails: with no candidate the job gets no chunk at all, and
    still has none when the local run has completed it. *)
Lemma C5_counterexample :
  _getAvailableWorkers (new_coordinator "me") = [] /\
  (option_map chunks (currentTask alone_busy)) = Some (Some []) /\
  option_map status (currentTask alone_busy) = Some "processing" /\
  ~ (exists t c, currentTask alone_busy = Some t /\ chunks t = Some [c]) /\
  let finished := run (repeat (Tick 2000 0%nat) 20) alone_busy in
  map status (detached finished) = ["complete"] /\
  map chunks (detached finished) = [Some []].
Proof.
  vm_compute. repeat split; try done.
  intros (t & c & [= <-] & H). discriminate H.
Qed.

(** C5, as the code has it.  When [_processNextTask] takes a job (with a
    positive step count) and there is no candidate worker, it creates no
    chunk: the job becomes the active job with its chunk list untouched,
    nothing is sent to any peer and no registry entry changes; the whole
    job is handed to the local run [_processLocally], which starts at step
    0 of its [totalSteps] steps, goes on one step per timer and, after the
    last step, marks the job complete, tells the completion subscriber,
    clears the active slot and looks for the next job.  The candidate set
    being empty means the local worker has no GPU flag set, or no
    capabilities at all, and no registered peer is idle with a GPU. *)
Theorem C5_no_candidate_runs_whole_job_locally
    (now : Z) (s : Coordinator) (t : Task) (q : list Task) (o : TaskOptions) :
  currentTask s = None ->
  queue s = t :: q ->
  _getAvailableWorkers s = [] ->
  options t = Some o ->
  0 < steps o ->
  let s' := _processNextTask now s in
  let job := set_status "processing" t in
  currentTask s' = Some job /\
  chunks job = chunks t /\
  queue s' = q /\
  pending s' = pending s ++ [ProcessLocally job (steps o) 0] /\
  workers s' = workers s /\
  trace s' = trace s ++
    (if onProgressCallback s
     then [OnProgressJob (task_id t) 1 (steps o)
             (inject_Z 1 / inject_Z (steps o))%Q "clip"]
     else []) /\
  (forall lw, localWorker s = Some lw -> hasGPU (local_capabilities lw) = false) /\
  List.filter is_idle_gpu (JSMap.values (workers s)) = [] /\
  (forall later k s1 step,
      pending s1 !! k = Some (ProcessLocally job (steps o) step) ->
      let s2 := set_pending (take k (pending s1) ++ drop (S k) (pending s1)) s1 in
      (step + 1 < steps o ->
         pending (resume later k s1)
         = pending s2 ++ [ProcessLocally job (steps o) (step + 1)] /\
         currentTask (resume later k s1) = currentTask s1) /\
      (steps o <= step + 1 ->
         resume later k s1
         = _processNextTask later
             (clear_currentTask
                (let s3 := update_task (oid job)
                             (fun t => set_completedAt (Some later)
                                         (set_status "complete" t)) s2 in
                 if onCompleteCallback s3
                 then emit (OnComplete (deref job s3)) s3 else s3)))).
Proof.
  intros Hc Hq Hw Ho Hsteps s' job.
  assert (Hlater : forall later k s1 step,
            pending s1 !! k = Some (ProcessLocally job (steps o) step) ->
            let s2 := set_pending (take k (pending s1) ++ drop (S k) (pending s1)) s1 in
            (step + 1 < steps o ->
               pending (resume later k s1)
               = pending s2 ++ [ProcessLocally job (steps o) (step + 1)] /\
               currentTask (resume later k s1) = currentTask s1) /\
            (steps o <= step + 1 ->
               resume later k s1
               = _processNextTask later
                   (clear_currentTask
                      (let s3 := update_task (oid job)
                                   (fun t => set_completedAt (Some later)
                                               (set_status "complete" t)) s2 in
                       if onCompleteCallback s3
                       then emit (OnComplete (deref job s3)) s3 else s3)))).
  { intros later k s1 step Hk. by apply resume_ProcessLocally. }
  subst s'.
  rewrite _processNextTask_unfold. unfold Body._processNextTask.
  rewrite Hc, Hq.
  rewrite (_getAvailableWorkers_ext s) by done. rewrite Hw. simpl.
  unfold Body._processLocally. simpl. rewrite Ho.
  unfold Body._processLocally_loop.
  assert (E : (0 <? steps o) = true) by (apply Z.ltb_lt; lia).
  rewrite E. simpl.
  destruct (onProgressCallback s); simpl; rewrite ?app_nil_r;
    do 8 (split; [first [done|by apply _getAvailableWorkers_nil]|]);
    exact Hlater.
Qed.


(** ** Chunk construction *)

Lemma ceil_div_bounds (totalSteps : Z) (numWorkers : nat) :
  (0 < numWorkers)%nat ->
  Z.of_nat numWorkers * (ceil_div totalSteps numWorkers - 1) < totalSteps
  /\ totalSteps <= Z.of_nat numWorkers * ceil_div totalSteps numWorkers.
Proof.
  intros HW. unfold ceil_div.
  assert (HWz : 0 < Z.of_nat numWorkers) by lia.
  pose proof (Z.div_mod (- totalSteps) (Z.of_nat numWorkers)).
  pose proof (Z.mod_pos_bound (- totalSteps) (Z.of_nat numWorkers) HWz).
  nia.
Qed.

Lemma ceil_div_pos (totalSteps : Z) (numWorkers : nat) :
  (0 < numWorkers)%nat -> 1 <= totalSteps -> 1 <= ceil_div totalSteps numWorkers.
Proof.
  intros HW HN. destruct (ceil_div_bounds totalSteps numWorkers HW) as [_ H].
  nia.
Qed.

Section LoopChunks.
Variable taskId : string.
Variables totalSteps chunksPerWorker : Z.
Hypothesis size_pos : 1 <= chunksPerWorker.

Lemma loop_chunks_length i n : (length (loop_chunks taskId totalSteps chunksPerWorker i n) <= n)%nat.
Proof.
  revert i. induction n as [|n IH]; intros i; simpl; [lia|].
  destruct (_ <=? _); simpl; [lia|]. specialize (IH (S i)). lia.
Qed.

Lemma loop_chunks_lookup i n j c :
  loop_chunks taskId totalSteps chunksPerWorker i n !! j = Some c ->
  c = new_chunk taskId totalSteps chunksPerWorker (i + j)%nat /\
  Z.of_nat (i + j) * chunksPerWorker < totalSteps.
Proof.
  revert i j. induction n as [|n IH]; intros i j; simpl; [done|].
  destruct (_ <=? _) eqn:E; [done|]. apply Z.leb_gt in E.
  destruct j as [|j]; simpl.
  - intros [= <-]. by rewrite Nat.add_0_r.
  - intros H. apply IH in H. by replace (i + S j)%nat with (S i + j)%nat by lia.
Qed.

(** If the loop stopped before the last candidate, it stopped because
    the next start offset had reached [totalSteps]. *)
Lemma loop_chunks_stop i n :
  (length (loop_chunks taskId totalSteps chunksPerWorker i n) < n)%nat ->
  totalSteps <= Z.of_nat (i + length (loop_chunks taskId totalSteps chunksPerWorker i n)) * chunksPerWorker.
Proof.
  revert i. induction n as [|n IH]; intros i; simpl; [lia|].
  destruct (_ <=? _) eqn:E; simpl.
  - intros _. apply Z.leb_le in E. by rewrite Nat.add_0_r.
  - intros H. replace (i + S _)%nat
      with (S i + length (loop_chunks taskId totalSteps chunksPerWorker (S i) n))%nat by lia.
    apply IH. lia.
Qed.

Lemma new_chunk_fields i :
  let c := new_chunk taskId totalSteps chunksPerWorker i in
  startStep c = Z.of_nat i * chunksPerWorker /\
  endStep c = Z.min (startStep c + chunksPerWorker) totalSteps /\
  chunk_id c = "chunk_" +:+ pretty i /\
  chunk_taskId c = taskId /\ workerIndex c = i /\ chunk_status c = "pending".
Proof. done. Qed.
End LoopChunks.

(** A chunk runs locally: with at least one step to do, the body emits the
    progress of its first step and suspends. *)
Lemma _processChunkLocally_loop_suspend now next workerTask owner i s o :
  i < chunk_size (wt_chunk workerTask) ->
  options (wt_task workerTask) = Some o ->
  Body._processChunkLocally_loop now next workerTask owner i s
  = set_pending (pending s ++ [ProcessChunkLocally workerTask owner i])
      (set_trace
         (trace s ++
          (if onProgressCallback s
           then [OnProgressChunk (task_id (wt_task workerTask))
                   (chunk_id (wt_chunk workerTask))
                   (startStep (wt_chunk workerTask) + i + 1) (steps o)
                   (inject_Z (i + 1) / inject_Z (chunk_size (wt_chunk workerTask)))%Q]
           else []) ++
          [BroadcastProgress (task_id (wt_task workerTask))
             (chunk_id (wt_chunk workerTask))
             (inject_Z (i + 1) / inject_Z (chunk_size (wt_chunk workerTask)))%Q
             (selfId s)]) s).
Proof.
  unfold chunk_size. intros Hi Ho. unfold Body._processChunkLocally_loop.
  assert (E : (i <? endStep (wt_chunk workerTask) - startStep (wt_chunk workerTask)) = true)
    by (apply Z.ltb_lt; lia).
  rewrite E, Ho. unfold emit.
  destruct (onProgressCallback s); simpl; [|done].
  by rewrite <- app_assoc.
Qed.



(** The loop of [_distributeWork] on the active job: it pushes exactly the
    chunks of [loop_chunks] and leaves the rest of the job as it was. *)
Lemma _distributeWork_loop_chunks now next task o chunksPerWorker :
  options task = Some o ->
  1 <= chunksPerWorker ->
  forall rest i s tc acc,
    currentTask s = Some tc -> oid tc = oid task ->
    options tc = Some o -> chunks tc = Some acc ->
    exists tc',
      currentTask
        (Body._distributeWork_loop now next task (steps o) chunksPerWorker i rest s)
      = Some tc' /\
      oid tc' = oid task /\ options tc' = Some o /\
      results tc' = results tc /\ status tc' = status tc /\
      task_id tc' = task_id tc /\
      chunks tc' = Some (acc ++ loop_chunks (task_id task) (steps o)
                                  chunksPerWorker i (length rest)).
Proof.
  intros Ho Hsize rest. induction rest as [|worker rest IH];
    intros i s tc acc Hc Hoid Hopt Hch; simpl.
  { exists tc. rewrite app_nil_r. done. }
  destruct (_ <=? _) eqn:E.
  { exists tc. rewrite app_nil_r. done. }
  apply Z.leb_gt in E.
  set (chunk := new_chunk (task_id task) (steps o) chunksPerWorker i).
  assert (Hup : forall s0, currentTask s0 = Some tc ->
            currentTask (update_task (oid task) (Body.push_chunk chunk worker) s0)
            = Some (Body.push_chunk chunk worker tc)).
  { intros s0 H0. unfold update_task, has_oid. rewrite H0, Hoid.
    by rewrite Nat.eqb_refl. }
  set (tc1 := Body.push_chunk chunk worker tc).
  assert (Hsz : 0 < chunk_size chunk).
  { unfold chunk_size, chunk, new_chunk. simpl. lia. }
  match goal with |- context [Body._distributeWork_loop _ _ _ _ _ _ rest ?s1] =>
    assert (Hc1 : currentTask s1 = Some tc1) end.
  { destruct (isLocal worker).
    - unfold Body._processChunkLocally.
      erewrite _processChunkLocally_loop_suspend; simpl; [by apply Hup|done|].
      unfold deref, lookup_task. rewrite (Hup s Hc). unfold has_oid.
      simpl. rewrite Hoid, Nat.eqb_refl. simpl. exact Hopt.
    - simpl. destruct (JSMap.get _ _); simpl; by apply Hup. }
  destruct (IH (S i) _ tc1 (acc ++ [chunk]) Hc1) as (tc' & H1 & H2 & H3 & H4 & H5 & H6 & H7);
    try done.
  { simpl. by rewrite Hch. }
  exists tc'. repeat split; try done.
  rewrite H7. by rewrite <- app_assoc.
Qed.

(** What [_distributeWork] leaves as the chunk list of the active job. *)
Lemma _distributeWork_chunks now next t o candidates s :
  currentTask s = Some t ->
  options t = Some o ->
  1 <= steps o ->
  (0 < length candidates)%nat ->
  exists t',
    currentTask (Body._distributeWork now next t candidates s) = Some t' /\
    oid t' = oid t /\ task_id t' = task_id t /\ status t' = status t /\
    results t' = results t /\
    chunks t' = Some (loop_chunks (task_id t) (steps o)
                        (ceil_div (steps o) (length candidates)) 0
                        (length candidates)).
Proof.
  intros Hc Ho HN HW. unfold Body._distributeWork. rewrite Ho.
  set (t0 := set_assignedWorkers (Some JSMap.empty) (set_chunks (Some []) t)).
  destruct (_distributeWork_loop_chunks now next t o
              (ceil_div (steps o) (length candidates)) Ho
              (ceil_div_pos _ _ HW HN) candidates 0%nat
              (update_task (oid t)
                 (fun t => set_assignedWorkers (Some JSMap.empty)
                             (set_chunks (Some []) t)) s) t0 [])
    as (t' & H1 & H2 & H3 & H4 & H5 & H6 & H7); try done.
  { unfold update_task, has_oid. by rewrite Hc, Nat.eqb_refl. }
  exists t'. done.
Qed.

(** The claim C2 fails on the size of the last chunk: 20 steps over three
    candidates give chunks of 7, 7 and 6 steps, where [ceil(20/3)] is 7. *)
Lemma C2_counterexample :
  length (_getAvailableWorkers
            (run [NetCapabilities gpu "p1"; NetCapabilities gpu "p2";
                  NetCapabilities gpu "p3"] (new_coordinator "me"))) = 3%nat /\
  ceil_div 20 3 = 7 /\
  map (fun c => (startStep c, endStep c)) (active_chunks three_peers_busy)
  = [(0, 7); (7, 14); (14, 20)] /\
  map chunk_size (active_chunks three_peers_busy) = [7; 7; 6] /\
  ~ Forall (fun c => chunk_size c = ceil_div 20 3)
      (active_chunks three_peers_busy).
Proof.
  repeat split; try (vm_compute; reflexivity).
  intros H. rewrite Forall_lookup in H.
  assert (E : active_chunks three_peers_busy !! 2%nat
              = Some (new_chunk "task_1000_abc" 20 7 2))
    by (vm_compute; reflexivity).
  specialize (H _ _ E). vm_compute in H. discriminate H.
Qed.

(** C2, as the code has it.  For a job of [N >= 1] steps distributed over
    [W >= 1] candidates, with [size = ceil(N/W)]: chunk [j] is
    [j*size, min((j+1)*size, N)), so every chunk but the last has exactly
    [size] steps and the last has between 1 and [size]; the chunks are
    contiguous from step 0 to step [N]; every step of [0, N) lies in exactly
    one chunk; there are between 1 and [W] chunks, and a candidate without a
    chunk is one whose start offset had reached [N]. *)
Theorem C2_chunks_partition
    (now : Z) (s : Coordinator) (t : Task) (o : TaskOptions)
    (candidates : list Candidate) :
  currentTask s = Some t ->
  options t = Some o ->
  1 <= steps o ->
  (1 <= length candidates)%nat ->
  let N := steps o in
  let W := length candidates in
  let size := ceil_div N W in
  exists t' cs,
    currentTask (_distributeWork now t candidates s) = Some t' /\
    oid t' = oid t /\
    chunks t' = Some cs /\
    (1 <= length cs <= W)%nat /\
    (forall j c, cs !! j = Some c ->
       startStep c = Z.of_nat j * size /\
       endStep c = Z.min (startStep c + size) N /\
       chunk_id c = "chunk_" +:+ pretty j /\
       1 <= chunk_size c <= size /\
       0 <= startStep c /\ endStep c <= N /\
       ((S j < length cs)%nat -> chunk_size c = size) /\
       (S j = length cs -> endStep c = N)) /\
    (forall j c c', cs !! j = Some c -> cs !! S j = Some c' ->
       endStep c = startStep c') /\
    (forall step, 0 <= step < N ->
       exists j c, cs !! j = Some c /\ startStep c <= step < endStep c /\
         forall j' c', cs !! j' = Some c' ->
           startStep c' <= step < endStep c' -> j' = j) /\
    (forall j, (length cs <= j < W)%nat -> N <= Z.of_nat j * size).
Proof.
  intros Hc Ho HN HW N W size.
  destruct (_distributeWork_chunks now (_processNextTask now) t o candidates s)
    as (t' & H1 & H2 & _ & _ & _ & H3); try done.
  fold N W size in H3.
  set (cs := loop_chunks (task_id t) N size 0 W) in *.
  assert (Hsize : 1 <= size) by (apply ceil_div_pos; lia).
  assert (HWN : N <= Z.of_nat W * size) by (apply ceil_div_bounds; lia).
  assert (Hlen : (length cs <= W)%nat) by apply loop_chunks_length.
  assert (Hlook : forall j c, cs !! j = Some c ->
            c = new_chunk (task_id t) N size j /\ Z.of_nat j * size < N).
  { intros j c H. by apply loop_chunks_lookup in H. }
  assert (Hstop : N <= Z.of_nat (length cs) * size).
  { destruct (decide (length cs < W)%nat) as [Hlt|Hge].
    - by apply (loop_chunks_stop (task_id t) N size 0 W) in Hlt.
    - replace (length cs) with W by lia. done. }
  assert (Hne : (1 <= length cs)%nat).
  { destruct (length cs); [|lia]. simpl in Hstop. lia. }
  exists t', cs. split; [done|]. split; [done|]. split; [done|].
  split; [lia|]. split; [|split; [|split]].
  - intros j c Hj. pose proof (lookup_lt_Some _ _ _ Hj) as Hjl.
    destruct (Hlook j c Hj) as [-> Hlt]. unfold chunk_size, new_chunk. simpl.
    repeat split; try lia.
    intros HS. destruct (cs !! S j) as [c'|] eqn:E.
    + apply Hlook in E as [_ E]. lia.
    + apply lookup_ge_None in E. lia.
  - intros j c c' Hj Hj'. destruct (Hlook j c Hj) as [-> _].
    destruct (Hlook (S j) c' Hj') as [-> Hlt]. unfold new_chunk. simpl. lia.
  - intros step Hstep.
    assert (Hq : 0 <= step / size) by (apply Z.div_pos; lia).
    pose proof (Z.div_mod step size ltac:(lia)) as Hdm.
    pose proof (Z.mod_pos_bound step size ltac:(lia)) as Hmod.
    set (j := Z.to_nat (step / size)).
    assert (Hj : Z.of_nat j = step / size) by (unfold j; lia).
    assert (Hjl : (j < length cs)%nat).
    { destruct (decide (j < length cs)%nat); [done|exfalso].
      assert (Z.of_nat (length cs) <= Z.of_nat j) by lia. nia. }
    destruct (lookup_lt_is_Some_2 cs j Hjl) as [c Hcj].
    exists j, c. split; [done|].
    destruct (Hlook j c Hcj) as [-> Hlt]. unfold new_chunk. simpl.
    split; [nia|].
    intros j' c' Hj' Hin. destruct (Hlook j' c' Hj') as [-> _].
    unfold new_chunk in Hin. simpl in Hin. nia.
  - intros j Hj. nia.
Qed.

(** ** Progress aggregation *)

(** What [_updateWorkerProgress] reports: the mean over [allProgress] of
    the registry as it is once the sender's value is recorded. *)
Lemma _updateWorkerProgress_reports peerId progress s t :
  onProgressCallback s = true ->
  currentTask s = Some t ->
  let recorded :=
    match JSMap.get peerId (workers s) with
    | Some worker =>
        set_workers (JSMap.set peerId
                       (set_progress (progress_value progress) worker)
                       (workers s)) s
    | None => s
    end in
  trace (_updateWorkerProgress peerId progress s)
  = trace s ++ [OnProgressAggregate (progress_taskId progress)
                  (avgProgress (allProgress recorded))
                  (JSMap.size (workers recorded) + 1)].
Proof.
  intros Hcb Hc recorded. unfold _updateWorkerProgress. fold recorded.
  assert (E : onProgressCallback recorded && isSome (currentTask recorded) = true).
  { unfold recorded. destruct (JSMap.get _ _); simpl; by rewrite Hcb, Hc. }
  rewrite E. simpl. f_equal.
  unfold recorded. by destruct (JSMap.get _ _).
Qed.

(** Without a [progress] property on the local worker object, the values
    averaged are those of the working peers alone. *)
Lemma allProgress_peers_only s :
  (forall lw, localWorker s = Some lw -> local_progress lw = None) ->
  allProgress s
  = map worker_progress (List.filter is_working (JSMap.values (workers s))).
Proof.
  intros H. unfold allProgress. destruct (localWorker s) as [lw|].
  - rewrite (H lw eq_refl). by rewrite app_nil_r.
  - by rewrite app_nil_r.
Qed.

(** ** Every event is a sequence of updates *)

Lemma writes_updates s s' : writes s s' -> rtc update s s'.
Proof.
  induction 1 as [|s1 s2 s3 H _ IH]; [done|].
  eapply rtc_l; [by apply update_write|done].
Qed.

Lemma _syncQueue_loop_updates incoming s :
  rtc update s (_syncQueue_loop incoming s).
Proof.
  revert s. induction incoming as [|w inc IH]; intros s; simpl; [done|].
  destruct (negb _); [|apply IH].
  etrans; [|apply IH].
  eapply rtc_l; [apply (update_push (of_wire (nextOid s) None w)); by left|].
  apply rtc_once, update_nextOid.
Qed.

Lemma handle_updates e s : rtc update s (handle e s).
Proof.
  destruct e as [now rnd text neg opts|now task peerId|now result peerId
                |progress peerId|capabilities peerId|queueData peerId
                |now peerId|now k|capabilities|p c q|outcome base]; simpl.
  - unfold addTask. simpl.
    etrans; [|apply writes_updates, _processNextTask_writes].
    unfold _notifyBackend, _broadcastQueueUpdate.
    eapply rtc_l; [apply (update_nextOid (S (nextOid s)))|].
    eapply rtc_l; [apply (update_push (new_task now rnd text neg opts s));
                   by right|].
    eapply rtc_l; [apply update_write, write_emit|].
    repeat case_match; simpl;
      repeat (first [ reflexivity
                    | eapply rtc_l; [apply update_write, write_emit|] ]).
  - unfold _handleIncomingTask. destruct (String.eqb _ "process_chunk").
    + destruct (wire_chunk task).
      * eapply rtc_l; [apply (update_nextOid (S (nextOid s)))|].
        apply writes_updates, _processChunkLocally_loop_writes,
          _processNextTask_writes.
      * apply rtc_once, update_write, write_emit.
    + destruct (String.eqb _ "generate"); [|done].
      etrans; [|apply writes_updates, _processNextTask_writes].
      eapply rtc_l; [apply (update_nextOid (S (nextOid s)))|].
      apply rtc_once, (update_push (of_wire (nextOid s) (Some peerId) task)).
      by left.
  - apply writes_updates, _handleResult_writes, _processNextTask_writes.
  - unfold _updateWorkerProgress.
    destruct (JSMap.get peerId (workers s)) eqn:Hg.
    + eapply rtc_l; [by eapply update_progress|].
      destruct (_ && _); [|done]. apply rtc_once, update_write, write_emit.
    + destruct (_ && _); [|done]. apply rtc_once, update_write, write_emit.
  - apply rtc_once, update_announce.
  - unfold _syncQueue. etrans; [apply _syncQueue_loop_updates|].
    destruct (onQueueChangeCallback _); [|done].
    apply rtc_once, update_write, write_emit.
  - apply writes_updates, _handleWorkerDisconnect_writes, _processNextTask_writes.
  - unfold resume. destruct (pending s !! k) as [frame|]; [|done].
    eapply rtc_l; [apply update_write, write_pending|].
    destruct frame.
    + apply writes_updates, _processLocally_loop_writes, _processNextTask_writes.
    + apply writes_updates, _processChunkLocally_loop_writes,
        _processNextTask_writes.
  - apply rtc_once, update_local.
  - unfold onQueueChange, onComplete, onProgress.
    eapply rtc_l; [apply update_callbacks|].
    eapply rtc_l; [apply update_callbacks|]. apply rtc_once, update_callbacks.
  - unfold checkBackend. destruct outcome as [[]|]; [|done|];
      apply rtc_once, update_backend.
Qed.

(** A property of the new coordinator that every update keeps holds in
    every reachable state. *)
Lemma reachable_invariant (P : Coordinator -> Prop) (selfId : string) :
  P (new_coordinator selfId) ->
  (forall s s', update s s' -> P s -> P s') ->
  forall s, reachable selfId s -> P s.
Proof.
  intros Hnew Hstep s H. induction H as [|s e _ IH]; [done|].
  pose proof (handle_updates e s) as Hu.
  induction Hu as [|s1 s2 s3 H1 _ IH']; [done|]. apply IH'. by eapply Hstep.
Qed.

(** The local worker object never has a [progress] property. *)
Lemma reachable_local_progress selfId s :
  reachable selfId s ->
  forall lw, localWorker s = Some lw -> local_progress lw = None.
Proof.
  apply (reachable_invariant
           (fun s => forall lw, localWorker s = Some lw -> local_progress lw = None)).
  - done.
  - intros s1 s2 Hu IH. destruct Hu as [s1 s2 Hw| | | | | | |]; simpl; try done.
    + apply write_setup in Hw as (_ & -> & _). done.
    + by intros lw [= <-].
Qed.

Lemma JSMap_set_Forall {V : Type} (P : V -> Prop) (k : string) (v : V)
    (m : JSMap.t V) :
  P v -> Forall P (JSMap.values m) -> Forall P (JSMap.values (JSMap.set k v m)).
Proof.
  intros Hv. unfold JSMap.values. induction m as [|[k' v'] m IH]; simpl.
  - intros _. by constructor.
  - intros H. apply Forall_cons_1 in H as [H1 H2].
    destruct (String.eqb k' k); simpl; constructor; auto.
Qed.

Lemma JSMap_delete_Forall {V : Type} (P : V -> Prop) (k : string)
    (m : JSMap.t V) :
  Forall P (JSMap.values m) -> Forall P (JSMap.values (JSMap.delete k m)).
Proof.
  unfold JSMap.values. induction m as [|[k' v'] m IH]; simpl; [done|].
  intros H. apply Forall_cons_1 in H as [H1 H2].
  destruct (String.eqb k' k); simpl; [done|]. constructor; auto.
Qed.

Lemma JSMap_get_Forall {V : Type} (P : V -> Prop) (k : string) (v : V)
    (m : JSMap.t V) :
  Forall P (JSMap.values m) -> JSMap.get k m = Some v -> P v.
Proof.
  unfold JSMap.values. induction m as [|[k' v'] m IH]; simpl; [done|].
  intros H. apply Forall_cons_1 in H as [H1 H2].
  destruct (String.eqb k' k); [by intros [= <-]|auto].
Qed.

(** A registry entry that names a chunk has status working: the entry of a
    worker that holds a chunk is never among the candidates. *)
Lemma reachable_holder_is_working selfId s :
  reachable selfId s -> Forall holder_is_working (JSMap.values (workers s)).
Proof.
  apply (reachable_invariant
           (fun s => Forall holder_is_working (JSMap.values (workers s)))).
  - constructor.
  - intros s1 s2 Hu IH. destruct Hu as [s1 s2 Hw| | | | | | |]; simpl; try done.
    + destruct Hw; simpl; rewrite ?update_task_workers,
        ?clear_currentTask_workers; try done.
      * by apply JSMap_set_Forall.
      * by apply JSMap_delete_Forall.
    + by apply JSMap_set_Forall.
    + apply JSMap_set_Forall; [|done].
      pose proof (JSMap_get_Forall _ _ _ _ IH H) as Hw. exact Hw.
Qed.

Lemma reachable_holder_not_candidate selfId s peerId worker cid :
  reachable selfId s ->
  JSMap.get peerId (workers s) = Some worker ->
  currentChunk worker = Some cid ->
  is_idle_gpu worker = false.
Proof.
  intros Hr Hg Hc.
  pose proof (JSMap_get_Forall _ _ _ _ (reachable_holder_is_working _ _ Hr) Hg) as H.
  unfold holder_is_working in H. rewrite Hc in H. unfold is_idle_gpu.
  by rewrite (H eq_refl).
Qed.

(** ** The result aggregator between events *)


Lemma aggregator_ok_emit e s : aggregator_ok s -> aggregator_ok (emit e s).
Proof. done. Qed.





Lemma keeps_aggregate_stamp now :
  keeps_aggregate (fun t => set_completedAt (Some now) (set_status "complete" t)).
Proof. done. Qed.


Section Aggregator.
Variable now : Z.
Variable next : Coordinator -> Coordinator.
Hypothesis next_ok : forall s, aggregator_ok s -> aggregator_ok (next s).









End Aggregator.






Lemma reachable_run selfId events :
  reachable selfId (run events (new_coordinator selfId)).
Proof.
  unfold run. generalize (new_coordinator selfId), (reachable_new selfId).
  induction events as [|e events IH]; intros s H; simpl; [done|].
  apply IH. by constructor.
Qed.

(** ** The aggregate and the local worker *)

(** C6.  After any sequence of events the values averaged are those of the
    registry entries with status working, in registration order, and
    nothing else: the local worker is never among them, because nothing
    ever gives the local worker object the [progress] property the
    aggregation looks for.  With two working peers at 0.2 and 0.6 the
    subscriber is told 0.4, the unweighted mean.  With the local worker
    running chunk_0 (it has announced 0.1 for its first step) and one peer
    reporting 0.6, the subscriber is told 0.6, not 0.35. *)
Theorem C6_aggregate_leaves_local_worker_out :
  (forall (self : string) (events : list Event),
      allProgress (run events (new_coordinator self))
      = map worker_progress
          (List.filter is_working
             (JSMap.values (workers (run events (new_coordinator self)))))) /\
  (exists p n,
      last (trace (handle (NetProgress {| progress_taskId := "task_1000_abc";
                                          progress_value := (6 # 10)%Q |} "p2")
                     two_peers_busy))
      = Some (OnProgressAggregate "task_1000_abc" p n) /\
      (p == 4 # 10)%Q) /\
  (exists wt p n,
      pending local_and_peer_busy = [ProcessChunkLocally wt (Some 0%nat) 0] /\
      chunk_id (wt_chunk wt) = "chunk_0" /\
      In (BroadcastProgress "task_1000_abc" "chunk_0" (1 # 10)%Q "me")
         (trace local_and_peer_busy) /\
      last (trace (handle (NetProgress {| progress_taskId := "task_1000_abc";
                                          progress_value := (6 # 10)%Q |} "peerA")
                     local_and_peer_busy))
      = Some (OnProgressAggregate "task_1000_abc" p n) /\
      (p == 6 # 10)%Q /\ ~ (p == 35 # 100)%Q).
Proof.
  split; [|split].
  - intros self events. apply allProgress_peers_only.
    apply (reachable_local_progress self), reachable_run.
  - eexists _, _. split; [vm_compute; reflexivity|]. vm_compute. reflexivity.
  - eexists _, _, _. split; [vm_compute; reflexivity|].
    split; [vm_compute; reflexivity|].
    split; [vm_compute; tauto|].
    split; [vm_compute; reflexivity|].
    split; [vm_compute; reflexivity|]. vm_compute. discriminate.
Qed.

(** ** Completion *)

Lemma JSMap_set_keys {V : Type} (k x : string) (v : V) (m : JSMap.t V) :
  x ∈ JSMap.keys (JSMap.set k v m) -> x = k \/ x ∈ JSMap.keys m.
Proof.
  unfold JSMap.keys. induction m as [|[k' v'] m IH]; simpl.
  - intros H. apply list_elem_of_singleton in H. by left.
  - destruct (String.eqb k' k) eqn:E; simpl; intros H;
      apply elem_of_cons in H as [->|H]; auto.
    + right. by right.
    + right. by left.
    + destruct (IH H) as [->|H']; [by left|]. right. by right.
Qed.

Lemma JSMap_set_NoDup {V : Type} (k : string) (v : V) (m : JSMap.t V) :
  NoDup (JSMap.keys m) -> NoDup (JSMap.keys (JSMap.set k v m)).
Proof.
  induction m as [|[k' v'] m IH]; simpl.
  - intros _. apply NoDup_singleton.
  - intros H. apply NoDup_cons in H as [Hni Hnd].
    destruct (String.eqb k' k) eqn:E; simpl.
    + apply String.eqb_eq in E as ->. by apply NoDup_cons.
    + apply NoDup_cons. split; [|by apply IH].
      intros Hin. apply JSMap_set_keys in Hin as [->|Hin]; [|done].
      by rewrite String.eqb_refl in E.
Qed.





(** ** One active job, first come first served *)





(** ** The worker registry *)

Lemma keyed_by_id_set k w m :
  worker_id w = k -> keyed_by_id m -> keyed_by_id (JSMap.set k w m).
Proof.
  intros Hw. unfold keyed_by_id. induction m as [|[k' w'] m IH]; simpl.
  - intros _. by constructor.
  - intros H. apply Forall_cons_1 in H as [H1 H2].
    destruct (String.eqb k' k); constructor; auto.
Qed.

Lemma keyed_by_id_delete k m : keyed_by_id m -> keyed_by_id (JSMap.delete k m).
Proof.
  unfold keyed_by_id. induction m as [|[k' w'] m IH]; simpl; [done|].
  intros H. apply Forall_cons_1 in H as [H1 H2].
  destruct (String.eqb k' k); [done|]. constructor; auto.
Qed.

Lemma keyed_by_id_get k w m :
  keyed_by_id m -> JSMap.get k m = Some w -> worker_id w = k.
Proof.
  unfold keyed_by_id. induction m as [|[k' w'] m IH]; simpl; [done|].
  intros H. apply Forall_cons_1 in H as [H1 H2].
  destruct (String.eqb k' k) eqn:E; [|auto].
  intros [= <-]. apply String.eqb_eq in E. by subst.
Qed.

Lemma keyed_by_id_ids m :
  keyed_by_id m -> map worker_id (JSMap.values m) = JSMap.keys m.
Proof.
  unfold keyed_by_id, JSMap.values, JSMap.keys.
  induction 1 as [|[k w] m H _ IH]; simpl; [done|]. simpl in H. by rewrite H, IH.
Qed.

Lemma JSMap_delete_keys_sublist {V : Type} (k : string) (m : JSMap.t V) :
  JSMap.keys (JSMap.delete k m) `sublist_of` JSMap.keys m.
Proof.
  unfold JSMap.keys. induction m as [|[k' v'] m IH]; simpl; [done|].
  destruct (String.eqb k' k); simpl.
  - by apply sublist_cons.
  - by apply sublist_skip.
Qed.

Lemma reachable_registry selfId s :
  reachable selfId s ->
  NoDup (JSMap.keys (workers s)) /\ keyed_by_id (workers s).
Proof.
  apply (reachable_invariant
           (fun s => NoDup (JSMap.keys (workers s)) /\ keyed_by_id (workers s))).
  - split; constructor.
  - intros s1 s2 Hu [IH1 IH2].
    destruct Hu as [s1 s2 Hw| | |capabilities peerId s1|peerId w p s1 Hg| | |];
      simpl; try done.
    + destruct Hw; simpl; rewrite ?update_task_workers,
        ?clear_currentTask_workers; try done.
      * split; [by apply JSMap_set_NoDup|].
        apply keyed_by_id_set; [|done]. simpl. by eapply keyed_by_id_get.
      * split; [|by apply keyed_by_id_delete].
        eapply sublist_NoDup; [done|apply JSMap_delete_keys_sublist].
    + split; [by apply JSMap_set_NoDup|]. by apply keyed_by_id_set.
    + split; [by apply JSMap_set_NoDup|].
      apply keyed_by_id_set; [|done]. simpl. by eapply keyed_by_id_get.
Qed.

(** ** Departure of a worker *)

(** Removing a registry entry that is not an idle GPU worker does not
    change the candidates read from the registry. *)
Lemma filter_idle_delete (peerId : string) (worker : Worker) (m : JSMap.t Worker) :
  JSMap.get peerId m = Some worker ->
  is_idle_gpu worker = false ->
  List.filter is_idle_gpu (JSMap.values (JSMap.delete peerId m))
  = List.filter is_idle_gpu (JSMap.values m).
Proof.
  induction m as [|[k w] m IH]; simpl; [done|].
  destruct (String.eqb k peerId).
  - intros [= ->] ->. done.
  - intros Hg Hw. specialize (IH Hg Hw). unfold JSMap.values in *.
    simpl. by rewrite IH.
Qed.

Lemma _getAvailableWorkers_delete (peerId : string) (worker : Worker) (s : Coordinator) :
  JSMap.get peerId (workers s) = Some worker ->
  is_idle_gpu worker = false ->
  _getAvailableWorkers (set_workers (JSMap.delete peerId (workers s)) s)
  = _getAvailableWorkers s.
Proof.
  intros Hg Hw. unfold _getAvailableWorkers. simpl.
  by rewrite (filter_idle_delete _ _ _ Hg Hw).
Qed.

Lemma find_write_chunk_status (cid st : string) (cs : list Chunk) (chunk : Chunk) :
  List.find (fun c => String.eqb (chunk_id c) cid) cs = Some chunk ->
  List.find (fun c => String.eqb (chunk_id c) cid) (write_chunk_status cid st cs)
  = Some (set_chunk_status st chunk) /\
  length (write_chunk_status cid st cs) = length cs.
Proof.
  induction cs as [|c cs IH]; simpl; [done|].
  destruct (String.eqb (chunk_id c) cid) eqn:E; simpl.
  - intros [= ->]. by rewrite E.
  - intros H. rewrite E. destruct (IH H) as [-> ->]. done.
Qed.

(** [chunks.find(c => c.id === cid)] returns the first chunk with that id;
    the write to its status leaves every other place of the array as it
    is. *)
Lemma write_chunk_status_insert (cid st : string) (cs : list Chunk) (chunk : Chunk) :
  List.find (fun c => String.eqb (chunk_id c) cid) cs = Some chunk ->
  exists i,
    cs !! i = Some chunk /\
    (forall j c, (j < i)%nat -> cs !! j = Some c -> chunk_id c <> cid) /\
    write_chunk_status cid st cs = <[i := set_chunk_status st chunk]> cs.
Proof.
  induction cs as [|c cs IH]; simpl; [done|].
  destruct (String.eqb (chunk_id c) cid) eqn:E.
  - intros [= ->]. exists 0%nat. split; [done|]. split; [intros; lia|done].
  - intros H. destruct (IH H) as (i & Hi & Hlt & ->). exists (S i).
    split; [done|]. split; [|done].
    intros [|j] c0 Hj; simpl.
    + intros [= <-]. by apply String.eqb_neq.
    + apply Hlt. lia.
Qed.

(** A departure of a peer the registry names no chunk for, or while no job
    is active, only removes the entry. *)
Lemma departure_without_chunk now peerId s :
  (forall worker, JSMap.get peerId (workers s) = Some worker ->
                  currentChunk worker = None \/ currentTask s = None) ->
  _handleWorkerDisconnect now peerId s
  = set_workers (JSMap.delete peerId (workers s)) s.
Proof.
  intros H. unfold _handleWorkerDisconnect, Body._handleWorkerDisconnect.
  destruct (JSMap.get peerId (workers s)) as [worker|]; [|done].
  destruct (H worker eq_refl) as [-> | ->]; [|done].
  by destruct (currentTask s).
Qed.

Lemma reachable_idle_holds_nothing selfId s k w :
  reachable selfId s -> JSMap.get k (workers s) = Some w ->
  worker_status w = "idle" -> currentChunk w = None.
Proof.
  intros Hr Hg Hst.
  pose proof (JSMap_get_Forall _ _ _ _ (reachable_holder_is_working _ _ Hr) Hg) as H.
  unfold holder_is_working in H. destruct (currentChunk w); [|done].
  specialize (H eq_refl). congruence.
Qed.

(** C3.  What a departure does, in any state the coordinator can be in.
    If the registry entry of the peer names no chunk, the entry is removed
    and nothing else happens, whatever chunk the peer was sent.  With a GPU
    of its own the coordinator is the first of its candidates.  If the
    entry names chunk [cid], a chunk of the active job that is not complete
    (the job has its options and the chunk at least one step, as every
    distributed job and chunk has), then the first chunk with that id is
    set back to pending and nothing else of the job changes; the entry is
    removed and the other entries are left as they are, so the candidates
    after the removal are those read before it; and one thing is done with
    the chunk.  With no candidate, a single local run of it is started and
    no task message is sent.  With a candidate, a single task message
    carrying the chunk is addressed to the id of the first candidate and
    nothing is started locally.  When the coordinator has a GPU that first
    candidate is the coordinator itself, also when idle GPU peers are
    registered: the message names its own id, and the chunk is neither run
    nor handed to a peer.  When the first candidate is a peer, its registry
    entry stays idle and names no chunk, so the departure of that peer
    reassigns nothing. *)
Theorem C3_departure_goes_to_first_candidate
    (self : string) (now : Z) (peerId : string) (s : Coordinator) :
  reachable self s ->
  let s' := _handleWorkerDisconnect now peerId s in
  (forall worker,
      JSMap.get peerId (workers s) = Some worker -> currentChunk worker = None ->
      currentTask s' = currentTask s /\ pending s' = pending s /\
      trace s' = trace s /\
      JSMap.get peerId (workers s') = None /\
      forall k, k <> peerId -> JSMap.get k (workers s') = JSMap.get k (workers s)) /\
  (forall lw,
      localWorker s = Some lw -> hasGPU (local_capabilities lw) = true ->
      exists newWorker rest,
        _getAvailableWorkers s = newWorker :: rest /\
        isLocal newWorker = true /\ cand_id newWorker = selfId s) /\
  (forall worker cid t cs chunk o,
      JSMap.get peerId (workers s) = Some worker ->
      currentChunk worker = Some cid ->
      currentTask s = Some t ->
      chunks t = Some cs ->
      List.find (fun c => String.eqb (chunk_id c) cid) cs = Some chunk ->
      chunk_status chunk <> "complete" ->
      options t = Some o ->
      0 < chunk_size chunk ->
      exists t' i c',
        currentTask s' = Some t' /\
        cs !! i = Some chunk /\ chunks t' = Some (<[i := c']> cs) /\
        chunk_status c' = "pending" /\ chunk_id c' = chunk_id chunk /\
        chunk_taskId c' = chunk_taskId chunk /\
        startStep c' = startStep chunk /\ endStep c' = endStep chunk /\
        workerIndex c' = workerIndex chunk /\
        task_id t' = task_id t /\ status t' = status t /\
        options t' = options t /\ results t' = results t /\
        JSMap.get peerId (workers s') = None /\
        (forall k, k <> peerId ->
                   JSMap.get k (workers s') = JSMap.get k (workers s)) /\
        _getAvailableWorkers s' = _getAvailableWorkers s /\
        let workerTask := {| wt_task := t'; wt_chunk := c' |} in
        match _getAvailableWorkers s with
        | newWorker :: _ =>
            trace s' = trace s ++ [BroadcastTask workerTask [cand_id newWorker]] /\
            pending s' = pending s /\
            (isLocal newWorker = false ->
             cand_id newWorker <> peerId /\
             exists w, JSMap.get (cand_id newWorker) (workers s') = Some w /\
                       worker_status w = "idle" /\ currentChunk w = None)
        | [] =>
            pending s'
            = pending s ++ [ProcessChunkLocally workerTask (Some (oid t)) 0] /\
            trace s' = trace s ++
              (if onProgressCallback s
               then [OnProgressChunk (task_id t) (chunk_id chunk)
                       (startStep chunk + 0 + 1) (steps o)
                       (inject_Z (0 + 1) / inject_Z (chunk_size chunk))%Q]
               else []) ++
              [BroadcastProgress (task_id t) (chunk_id chunk)
                 (inject_Z (0 + 1) / inject_Z (chunk_size chunk))%Q (selfId s)]
        end).
Proof.
  intros Hreach s'.
  destruct (reachable_registry _ _ Hreach) as [Hnd Hkeyed].
  split; [|split].
  - intros worker Hg Hcc. unfold s'.
    rewrite departure_without_chunk
      by (intros w Hw; left; congruence).
    cbn [currentTask pending trace workers set_workers].
    split; [done|]. split; [done|]. split; [done|].
    split; [by apply JSMap_get_delete_eq|].
    intros k Hk. by apply JSMap_get_delete_ne.
  - intros lw Hlw Hgpu. unfold _getAvailableWorkers. rewrite Hlw, Hgpu.
    by eexists _, _.
  - intros worker cid t cs chunk o Hg Hcc Hc Hch Hfind Hst Ho Hsz.
    destruct (write_chunk_status_insert cid "pending" cs chunk Hfind)
      as (i & Hi & _ & Hins).
    set (t' := mark_chunk cid "pending" t).
    set (c' := set_chunk_status "pending" chunk).
    set (workerTask := {| wt_task := t'; wt_chunk := c' |}).
    assert (Hidle : is_idle_gpu worker = false)
      by (by eapply reachable_holder_not_candidate).
    assert (Hneg : negb (String.eqb (chunk_status chunk) "complete") = true).
    { apply negb_true_iff, String.eqb_neq. done. }
    assert (Hup : update_task (oid t) (mark_chunk cid "pending") s
                  = set_currentTask (Some t') s).
    { unfold update_task, has_oid. by rewrite Hc, Nat.eqb_refl. }
    assert (Hderef : deref t (set_currentTask (Some t') s) = t').
    { unfold deref, lookup_task, has_oid. simpl. by rewrite Nat.eqb_refl. }
    assert (Hcand : _getAvailableWorkers (set_currentTask (Some t') s)
                    = _getAvailableWorkers s) by done.
    set (sent :=
           match _getAvailableWorkers s with
           | newWorker :: _ =>
               emit (BroadcastTask workerTask [cand_id newWorker])
                 (set_currentTask (Some t') s)
           | [] =>
               set_pending
                 (pending s ++ [ProcessChunkLocally workerTask (Some (oid t)) 0])
                 (set_trace
                    (trace s ++
                     (if onProgressCallback s
                      then [OnProgressChunk (task_id t) (chunk_id chunk)
                              (startStep chunk + 0 + 1) (steps o)
                              (inject_Z (0 + 1) / inject_Z (chunk_size chunk))%Q]
                      else []) ++
                     [BroadcastProgress (task_id t) (chunk_id chunk)
                        (inject_Z (0 + 1) / inject_Z (chunk_size chunk))%Q
                        (selfId s)])
                    (set_currentTask (Some t') s))
           end).
    assert (Es' : s' = set_workers (JSMap.delete peerId (workers s)) sent).
    { unfold s', sent, _handleWorkerDisconnect, Body._handleWorkerDisconnect.
      rewrite Hg, Hc, Hcc, Hch, Hfind, Hneg, Hup, Hderef, Hcand.
      fold c' workerTask. destruct (_getAvailableWorkers s); [|done].
      unfold Body._processChunkLocally.
      by rewrite (_processChunkLocally_loop_suspend _ _ _ _ _ _ o). }
    clearbody s'. subst s'.
    exists t', i, c'.
    assert (Hsent : currentTask sent = Some t' /\ workers sent = workers s /\
                    selfId sent = selfId s /\ localWorker sent = localWorker s).
    { unfold sent. by destruct (_getAvailableWorkers s). }
    destruct Hsent as (Hs1 & Hs2 & Hs3 & Hs4).
    split; [exact Hs1|]. split; [exact Hi|].
    split.
    { unfold t', mark_chunk. cbn [chunks set_chunks]. rewrite Hch.
      cbn [option_map]. by rewrite Hins. }
    do 10 (split; [reflexivity|]).
    split; [by apply JSMap_get_delete_eq|].
    split; [intros k Hk; by apply JSMap_get_delete_ne|].
    split.
    { rewrite <- (_getAvailableWorkers_delete peerId worker s Hg Hidle).
      by apply _getAvailableWorkers_ext. }
    cbv zeta. fold workerTask. unfold sent.
    destruct (_getAvailableWorkers s) as [|newWorker rest] eqn:Ecand.
    { split; reflexivity. }
    split; [reflexivity|]. split; [reflexivity|].
    intros Hloc.
    assert (Hin : newWorker ∈ map as_candidate
                    (List.filter is_idle_gpu (JSMap.values (workers s)))).
    { assert (H0 : newWorker ∈ _getAvailableWorkers s)
        by (rewrite Ecand; by left).
      unfold _getAvailableWorkers in H0. apply elem_of_app in H0 as [H0|H0]; [|done].
      destruct (localWorker s) as [lw|]; [|by apply elem_of_nil in H0].
      destruct (hasGPU (local_capabilities lw)); [|by apply elem_of_nil in H0].
      apply list_elem_of_singleton in H0. subst newWorker. done. }
    apply list_elem_of_fmap in Hin as (w & -> & Hw).
    apply list_elem_of_In, filter_In in Hw as [Hw Hwidle].
    apply list_elem_of_In in Hw. unfold JSMap.values in Hw.
    apply list_elem_of_fmap in Hw as ([k w0] & -> & Hkw). cbn [snd as_candidate cand_id].
    assert (Hk : worker_id w0 = k).
    { unfold keyed_by_id in Hkeyed. rewrite Forall_forall in Hkeyed.
      exact (Hkeyed (k, w0) Hkw). }
    assert (Hgk : JSMap.get k (workers s) = Some w0) by (by apply JSMap_get_elem).
    rewrite Hk.
    assert (Hne : k <> peerId).
    { intros ->. rewrite Hg in Hgk. injection Hgk as ->. simpl in Hwidle. congruence. }
    split; [exact Hne|]. exists w0.
    cbn [workers set_workers]. rewrite JSMap_get_delete_ne by done.
    split; [exact Hgk|].
    assert (Hst0 : worker_status w0 = "idle").
    { simpl in Hwidle. unfold is_idle_gpu in Hwidle.
      apply andb_true_iff in Hwidle as [E _]. by apply String.eqb_eq. }
    split; [exact Hst0|]. by eapply reachable_idle_holds_nothing.
Qed.

(** ** Statistics *)

Lemma filter_both_length {A : Type} (f g : A -> bool) (l : list A) :
  (length (List.filter (fun x => f x && g x) l) <= length (List.filter g l))%nat /\
  (length (List.filter (fun x => f x && g x) l) = length (List.filter g l) <->
   forall x, x ∈ l -> g x = true -> f x = true).
Proof.
  induction l as [|x l [IH1 IH2]]; simpl.
  - split; [lia|]. split; [|done]. intros _ x H. by apply elem_of_nil in H.
  - destruct (g x) eqn:Eg, (f x) eqn:Ef; simpl.
    + split; [lia|]. split.
      * intros H y Hy. apply elem_of_cons in Hy as [->|Hy]; [done|].
        apply IH2; [lia|done].
      * intros H. f_equal. apply IH2. intros y Hy. apply H. by right.
    + split; [lia|]. split; [lia|].
      intros H. specialize (H x ltac:(by left) Eg). congruence.
    + split; [done|]. split.
      * intros H y Hy. apply elem_of_cons in Hy as [->|Hy]; [congruence|].
        by apply IH2.
      * intros H. apply IH2. intros y Hy. apply H. by right.
    + split; [done|]. split.
      * intros H y Hy. apply elem_of_cons in Hy as [->|Hy]; [congruence|].
        by apply IH2.
      * intros H. apply IH2. intros y Hy. apply H. by right.
Qed.

(** X1.  [getStats] counts as GPU workers every registry entry with a GPU,
    whatever its status, plus the local worker when it has one.  The
    candidates [_getAvailableWorkers] returns are never more than that
    count, which is never more than the peers plus one; and the two agree
    exactly when every GPU peer in the registry is idle. *)
Theorem X1_getStats_bounds_candidates (s : Coordinator) :
  (length (_getAvailableWorkers s) <= gpuWorkers (getStats s))%nat /\
  (gpuWorkers (getStats s) <= totalPeers (getStats s) + 1)%nat /\
  (length (_getAvailableWorkers s) = gpuWorkers (getStats s) <->
   forall w, w ∈ JSMap.values (workers s) ->
             has_gpu w = true -> worker_status w = "idle").
Proof.
  unfold _getAvailableWorkers, getStats. simpl.
  rewrite length_app, length_map.
  destruct (filter_both_length (fun w => String.eqb (worker_status w) "idle")
              has_gpu (JSMap.values (workers s))) as [Hle Hiff].
  change (fun x => String.eqb (worker_status x) "idle" && has_gpu x)
    with is_idle_gpu in Hle, Hiff.
  assert (Hlen : (length (List.filter has_gpu (JSMap.values (workers s)))
                  <= JSMap.size (workers s))%nat).
  { unfold JSMap.size, JSMap.values.
    etrans; [apply List.filter_length_le|]. by rewrite length_map. }
  assert (Hloc : length (match localWorker s with
                         | Some lw =>
                             if hasGPU (local_capabilities lw)
                             then [ {| cand_id := selfId s;
                                       cand_capabilities := local_capabilities lw;
                                       isLocal := true |} ]
                             else []
                         | None => []
                         end)
                 = match localWorker s with
                   | Some lw => if hasGPU (local_capabilities lw) then 1 else 0
                   | None => 0
                   end%nat).
  { destruct (localWorker s) as [lw|]; [|done]. by destruct (hasGPU _). }
  rewrite Hloc. split; [lia|]. split.
  { destruct (localWorker s) as [lw|]; [destruct (hasGPU _)|]; lia. }
  split.
  - intros H w Hw Hg. apply String.eqb_eq. apply Hiff; [lia|done|done].
  - intros H.
    assert (E : length (List.filter is_idle_gpu (JSMap.values (workers s)))
                = length (List.filter has_gpu (JSMap.values (workers s)))).
    { apply Hiff. intros w Hw Hg. apply String.eqb_eq. by apply H. }
    lia.
Qed.

(** ** Binary chunks *)

(** X2.  [_handleChunk] stores a binary chunk only for the active job: with
    no active job, or metadata naming another job, the store is left as it
    is.  For the active job the data is found again under the job id and
    the chunk id (the last write for a chunk id wins), the data stored for
    the other chunks of the job is kept, and the entries of other jobs are
    untouched. *)
Theorem X2_handleChunk_stores_for_active_job
    {Data : Type} (data : Data) (peerId : string) (metadata : ChunkMetadata)
    (s : Coordinator) (taskResults : JSMap.t (JSMap.t Data)) :
  let r := _handleChunk data peerId metadata s taskResults in
  (currentTask s = None -> r = taskResults) /\
  (forall t, currentTask s = Some t ->
             meta_taskId metadata <> task_id t -> r = taskResults) /\
  (forall t, currentTask s = Some t -> meta_taskId metadata = task_id t ->
     exists chunksOfTask,
       JSMap.get (task_id t) r = Some chunksOfTask /\
       JSMap.get (meta_chunkId metadata) chunksOfTask = Some data /\
       (forall cid, cid <> meta_chunkId metadata ->
          JSMap.get cid chunksOfTask
          = JSMap.get cid (default JSMap.empty (JSMap.get (task_id t) taskResults))) /\
       (forall tid, tid <> task_id t ->
          JSMap.get tid r = JSMap.get tid taskResults)).
Proof.
  intros r. subst r. unfold _handleChunk. split; [by intros ->|]. split.
  - intros t -> Hne. apply String.eqb_neq in Hne. by rewrite Hne.
  - intros t -> ->. rewrite String.eqb_refl.
    destruct (JSMap.get (task_id t) taskResults) as [inner|] eqn:E; simpl.
    + rewrite E. exists (JSMap.set (meta_chunkId metadata) data inner).
      split; [apply JSMap_get_set_eq|]. split; [apply JSMap_get_set_eq|].
      split.
      * intros cid Hc. by apply JSMap_get_set_ne.
      * intros tid Ht. by apply JSMap_get_set_ne.
    + rewrite JSMap_get_set_eq.
      exists (JSMap.set (meta_chunkId metadata) data JSMap.empty).
      split; [apply JSMap_get_set_eq|]. split; [apply JSMap_get_set_eq|].
      split.
      * intros cid Hc. by rewrite JSMap_get_set_ne.
      * intros tid Ht. by rewrite !JSMap_get_set_ne.
Qed.

(** ** The registry *)

(** X4.  After any sequence of events the registry has one entry per peer
    id, each entry carries the id it is filed under, and the peers among
    the candidates of [_getAvailableWorkers] have pairwise distinct ids: no
    peer is handed two chunks of one job. *)
Theorem X4_registry_one_entry_per_peer (self : string) (events : list Event) :
  let s := run events (new_coordinator self) in
  NoDup (JSMap.keys (workers s)) /\
  (forall k w, JSMap.get k (workers s) = Some w -> worker_id w = k) /\
  NoDup (map cand_id
           (List.filter (fun c => negb (isLocal c)) (_getAvailableWorkers s))).
Proof.
  intros s.
  destruct (reachable_registry self s (reachable_run self events)) as [Hnd Hk].
  split; [done|]. split; [intros k w; by apply keyed_by_id_get|].
  unfold _getAvailableWorkers. rewrite List.filter_app.
  assert (E1 : List.filter (fun c => negb (isLocal c))
                 match localWorker s with
                 | Some lw =>
                     if hasGPU (local_capabilities lw)
                     then [ {| cand_id := selfId s;
                               cand_capabilities := local_capabilities lw;
                               isLocal := true |} ]
                     else []
                 | None => []
                 end = []).
  { destruct (localWorker s) as [lw|]; [|done]. by destruct (hasGPU _). }
  rewrite E1. simpl.
  assert (E2 : forall l, List.filter (fun c => negb (isLocal c)) (map as_candidate l)
                         = map as_candidate l).
  { induction l as [|w l IH]; simpl; [done|]. by rewrite IH. }
  rewrite E2, map_map. simpl.
  eapply sublist_NoDup; [exact Hnd|].
  rewrite <- (keyed_by_id_ids _ Hk).
  induction (JSMap.values (workers s)) as [|w l IH]; simpl; [done|].
  destruct (is_idle_gpu w); simpl.
  - by apply sublist_skip.
  - by apply sublist_cons.
Qed.

(** X5.  A capability announcement files a new idle entry under the
    sender's id, with no chunk and progress 0, whatever the registry held
    for that peer; other entries are untouched.  So a peer that re-announces
    while it holds a chunk is forgotten as its holder: when it leaves next,
    nothing is reassigned and nothing is sent, the entry is just removed. *)
Theorem X5_announcement_forgets_the_chunk
    (now : Z) (capabilities : Capabilities) (peerId : string) (s : Coordinator) :
  let s1 := handle (NetCapabilities capabilities peerId) s in
  JSMap.get peerId (workers s1)
  = Some {| worker_id := peerId; worker_capabilities := capabilities;
            worker_status := "idle"; currentChunk := None;
            worker_progress := 0%Q |} /\
  (forall k, k <> peerId -> JSMap.get k (workers s1) = JSMap.get k (workers s)) /\
  handle (PeerLeave now peerId) s1
  = set_workers (JSMap.delete peerId (workers s)) s.
Proof.
  intros s1. subst s1. cbn [handle]. unfold onCapabilities. simpl.
  split; [apply JSMap_get_set_eq|]. split.
  { intros k Hk. by apply JSMap_get_set_ne. }
  unfold _handleWorkerDisconnect, Body._handleWorkerDisconnect. simpl.
  rewrite JSMap_get_set_eq. simpl. rewrite JSMap_delete_set.
  by destruct (currentTask s).
Qed.

(** ** What the scheduling methods emit and delete *)

Section Acts.
Variable D : string -> Prop.

Lemma acts_emit e s s1 : scheduling_effect e -> acts scheduling_effect D s s1 ->
  acts scheduling_effect D s (emit e s1).
Proof. intros He H. eapply rtc_r; [exact H|by apply act_emit]. Qed.

Lemma acts_throw msg s s1 : acts scheduling_effect D s s1 ->
  acts scheduling_effect D s (throw msg s1).
Proof. intros H. by apply acts_emit. Qed.

Lemma acts_other s s1 s2 :
  workers s2 = workers s1 -> trace s2 = trace s1 -> acts scheduling_effect D s s1 ->
  acts scheduling_effect D s s2.
Proof. intros Hw Ht H. eapply rtc_r; [exact H|by apply act_other]. Qed.

Lemma acts_set_pending p s s1 : acts scheduling_effect D s s1 ->
  acts scheduling_effect D s (set_pending p s1).
Proof. by apply acts_other. Qed.

Lemma acts_set_currentTask c s s1 : acts scheduling_effect D s s1 ->
  acts scheduling_effect D s (set_currentTask c s1).
Proof. by apply acts_other. Qed.

Lemma acts_set_queue q s s1 : acts scheduling_effect D s s1 ->
  acts scheduling_effect D s (set_queue q s1).
Proof. by apply acts_other. Qed.

Lemma acts_set_nextOid n s s1 : acts scheduling_effect D s s1 ->
  acts scheduling_effect D s (set_nextOid n s1).
Proof. by apply acts_other. Qed.

Lemma acts_update_task o g s s1 : acts scheduling_effect D s s1 ->
  acts scheduling_effect D s (update_task o g s1).
Proof.
  apply acts_other; [apply update_task_workers|apply update_task_trace].
Qed.

Lemma acts_clear s s1 : acts scheduling_effect D s s1 ->
  acts scheduling_effect D s (clear_currentTask s1).
Proof.
  apply acts_other; [apply clear_currentTask_workers|apply clear_currentTask_trace].
Qed.

Lemma acts_delete k s s1 :
  D k -> acts scheduling_effect D s s1 ->
  acts scheduling_effect D s (set_workers (JSMap.delete k (workers s1)) s1).
Proof. intros Hk H. eapply rtc_r; [exact H|by apply act_delete]. Qed.

Ltac step :=
  first
    [ assumption
    | apply rtc_refl
    | apply acts_throw
    | apply acts_emit; [simpl; done|]
    | apply acts_set_pending
    | apply acts_set_currentTask
    | apply acts_set_queue
    | apply acts_update_task
    | apply acts_clear ].

Variable now : Z.
Variable next : Coordinator -> Coordinator.
Hypothesis next_acts : forall s, acts scheduling_effect D s (next s).

Lemma acts_next s s1 : acts scheduling_effect D s s1 ->
  acts scheduling_effect D s (next s1).
Proof. intros H. etrans; [exact H|apply next_acts]. Qed.

Lemma _completeTask_acts s s1 :
  acts scheduling_effect D s s1 ->
  acts scheduling_effect D s (Body._completeTask now next s1).
Proof.
  intros H. unfold Body._completeTask. destruct (currentTask s1); [|by step].
  apply acts_next. simpl. destruct (onCompleteCallback s1); repeat step.
Qed.

Lemma _handleResult_acts result peerId s s1 :
  acts scheduling_effect D s s1 ->
  acts scheduling_effect D s (Body._handleResult now next result peerId s1).
Proof.
  intros H. unfold Body._handleResult.
  destruct (currentTask s1) as [t|]; [|done].
  destruct (negb _); [done|]. destruct (results t); [|by step].
  destruct (chunks t); [|by repeat step].
  destruct (Nat.eqb _ _); [|by step].
  apply _completeTask_acts. by step.
Qed.

Lemma _processChunkLocally_loop_acts workerTask owner i s s1 :
  acts scheduling_effect D s s1 ->
  acts scheduling_effect D s (Body._processChunkLocally_loop now next workerTask owner i s1).
Proof.
  intros H. unfold Body._processChunkLocally_loop. destruct (_ <? _).
  - destruct (onProgressCallback s1); [destruct (options _)|]; repeat step.
  - apply _handleResult_acts. destruct owner; repeat step.
Qed.

Lemma _processLocally_loop_acts task totalSteps step s s1 :
  acts scheduling_effect D s s1 ->
  acts scheduling_effect D s (Body._processLocally_loop now next task totalSteps step s1).
Proof.
  intros H. unfold Body._processLocally_loop. destruct (_ <? _).
  - destruct (onProgressCallback s1); repeat step.
  - apply acts_next. simpl. destruct (onCompleteCallback _); repeat step.
Qed.

Lemma _processLocally_acts task s s1 :
  acts scheduling_effect D s s1 ->
  acts scheduling_effect D s (Body._processLocally now next task s1).
Proof.
  intros H. unfold Body._processLocally. destruct (options task); [|by step].
  by apply _processLocally_loop_acts.
Qed.

Lemma _distributeWork_loop_acts task totalSteps chunksPerWorker i rest s s1 :
  acts scheduling_effect D s s1 ->
  acts scheduling_effect D s (Body._distributeWork_loop now next task totalSteps
            chunksPerWorker i rest s1).
Proof.
  revert i s1. induction rest as [|worker rest IH]; intros i s1 H; simpl; [done|].
  destruct (_ <=? _); [done|]. apply IH.
  destruct (isLocal worker).
  - apply _processChunkLocally_loop_acts. by step.
  - apply acts_emit; [done|].
    destruct (JSMap.get _ _) as [peerWorker|] eqn:Hg; [|by step].
    eapply rtc_r; [apply acts_update_task, H|].
    apply act_working. exact Hg.
Qed.

Lemma _distributeWork_acts task workers s s1 :
  acts scheduling_effect D s s1 ->
  acts scheduling_effect D s (Body._distributeWork now next task workers s1).
Proof.
  intros H. unfold Body._distributeWork. destruct (options task); [|by step].
  apply _distributeWork_loop_acts. by step.
Qed.

Lemma _processNextTask_body_acts s s1 :
  acts scheduling_effect D s s1 ->
  acts scheduling_effect D s (Body._processNextTask now next s1).
Proof.
  intros H. unfold Body._processNextTask.
  destruct (currentTask s1); [done|]. destruct (queue s1) as [|t q]; [done|].
  destruct (Nat.eqb _ _).
  - apply _processLocally_acts. by repeat step.
  - apply _distributeWork_acts. by repeat step.
Qed.

Lemma _handleWorkerDisconnect_acts peerId s s1 :
  D peerId ->
  acts scheduling_effect D s s1 ->
  acts scheduling_effect D s (Body._handleWorkerDisconnect now next peerId s1).
Proof.
  intros Hd H. unfold Body._handleWorkerDisconnect.
  destruct (JSMap.get peerId (workers s1)) as [worker|]; [|by apply acts_delete].
  destruct (currentTask s1) as [t|]; [|by apply acts_delete].
  destruct (currentChunk worker) as [cid|]; [|by apply acts_delete].
  destruct (chunks t) as [cs|]; [|by step].
  destruct (List.find _ cs) as [chunk|]; [|by apply acts_delete].
  destruct (negb _); [|by apply acts_delete].
  apply acts_delete; [done|].
  destruct (_getAvailableWorkers _); [|by repeat step].
  apply _processChunkLocally_loop_acts. by step.
Qed.
End Acts.

Lemma _processNextTask_fuel_acts D fuel now s s1 :
  acts scheduling_effect D s s1 ->
  acts scheduling_effect D s (_processNextTask_fuel fuel now s1).
Proof.
  revert s s1. induction fuel as [|fuel IH]; intros s s1 H; simpl; [done|].
  apply _processNextTask_body_acts; [|done]. intros s2. apply IH, rtc_refl.
Qed.

Lemma _processNextTask_acts D now s s1 :
  acts scheduling_effect D s s1 ->
  acts scheduling_effect D s (_processNextTask now s1).
Proof. apply _processNextTask_fuel_acts. Qed.

Lemma _processNextTask_acts0 D now s :
  acts scheduling_effect D s (_processNextTask now s).
Proof. apply _processNextTask_acts, rtc_refl. Qed.

(** What a sequence of steps adds to the trace. *)
Lemma acts_trace E D s s' :
  acts E D s s' -> exists es, trace s' = trace s ++ es /\ Forall E es.
Proof.
  induction 1 as [s|s1 s2 s3 H1 _ (es & Ht & Hes)].
  - exists []. by rewrite app_nil_r.
  - destruct H1 as [e s1 He|k cid w s1 Hg|k s1 Hk|s1 s2 Hw Htr].
    + exists (e :: es). rewrite Ht. simpl. rewrite <- app_assoc. split; [done|].
      by constructor.
    + exists es. by rewrite Ht.
    + exists es. by rewrite Ht.
    + exists es. by rewrite Ht, Htr.
Qed.

(** A steps sequence that deletes no entry of [p] keeps [p] working. *)
Lemma acts_working E D s s' p :
  acts E D s s' -> ~ D p ->
  (exists w, JSMap.get p (workers s) = Some w /\ worker_status w = "working") ->
  exists w', JSMap.get p (workers s') = Some w' /\ worker_status w' = "working".
Proof.
  intros H Hd. induction H as [s|s1 s2 s3 H1 _ IH]; [done|].
  intros (w & Hg & Hw). apply IH.
  destruct H1 as [e s1 He|k cid w0 s1 Hg0|k s1 Hk|s1 s2 Hws Htr]; simpl.
  - by exists w.
  - destruct (decide (k = p)) as [->|Hne].
    + rewrite JSMap_get_set_eq. by eexists.
    + rewrite JSMap_get_set_ne by done. by exists w.
  - destruct (decide (k = p)) as [->|Hne]; [done|].
    rewrite JSMap_get_delete_ne by done. by exists w.
  - rewrite Hws. by exists w.
Qed.

Lemma scheduling_effect_targeted e : scheduling_effect e -> targeted e.
Proof. by destruct e. Qed.


(** What [addTask] emits before it calls [_processNextTask]. *)
Lemma addTask_front now rnd text neg opts s :
  exists s1,
    snd (addTask now rnd text neg opts s) = _processNextTask now s1 /\
    workers s1 = workers s /\
    trace s1 = trace s ++
      [BroadcastQueueUpdate
         (map project (queue s ++ [new_task now rnd text neg opts s]))]
      ++ backend_posts (AddTask now rnd text neg opts) s
      ++ (if onQueueChangeCallback s
          then [OnQueueChange (queue s ++ [new_task now rnd text neg opts s])]
          else []).
Proof.
  unfold addTask. cbn [snd]. eexists. split; [reflexivity|].
  split.
  { unfold _notifyBackend, _broadcastQueueUpdate. simpl.
    by repeat case_match. }
  unfold _notifyBackend, _broadcastQueueUpdate, backend_posts. simpl.
  destruct (backendAvailable s) eqn:Ba; simpl; rewrite ?Ba; simpl.
  - destruct (backendUrl s) as [url|] eqn:Bu; simpl.
    + destruct (String.eqb url "") eqn:Eu; simpl;
        destruct (onQueueChangeCallback s) eqn:Oq; simpl;
        rewrite <- ?app_assoc; reflexivity.
    + destruct (onQueueChangeCallback s) eqn:Oq; simpl;
        rewrite <- ?app_assoc; reflexivity.
  - destruct (onQueueChangeCallback s) eqn:Oq; simpl;
      rewrite <- ?app_assoc; reflexivity.
Qed.

(** What an event adds to the trace: first what its handler emits itself,
    then what the scheduling methods it calls emit. *)
Lemma handle_trace e s :
  exists front es,
    trace (handle e s) = trace s ++ front ++ es /\
    Forall scheduling_effect es /\
    Forall targeted front /\
    List.filter is_BackendPost front = backend_posts e s.
Proof.
  assert (Hbody : forall D s', acts scheduling_effect D s s' ->
            exists front es,
              trace s' = trace s ++ front ++ es /\
              Forall scheduling_effect es /\
              Forall targeted front /\
              List.filter is_BackendPost front = []).
  { intros D s' H. apply acts_trace in H as (es & Ht & Hes).
    exists [], es. repeat split; try done; constructor. }
  assert (Hsame : forall s', trace s' = trace s ->
            exists front es,
              trace s' = trace s ++ front ++ es /\
              Forall scheduling_effect es /\
              Forall targeted front /\
              List.filter is_BackendPost front = []).
  { intros s' ->. exists [], []. rewrite app_nil_r.
    repeat split; try done; constructor. }
  destruct e as [now rnd text neg opts|now task peerId|now result peerId
                |progress peerId|capabilities peerId|queueData peerId
                |now peerId|now k|capabilities|p c q|outcome base];
    cbn [handle backend_posts].
  - destruct (addTask_front now rnd text neg opts s) as (s1 & -> & _ & Ht).
    destruct (acts_trace _ _ _ _ (_processNextTask_acts0 (fun _ => False) now s1))
      as (es & -> & Hes).
    rewrite Ht.
    match goal with |- context [(trace s ++ ?front) ++ es] =>
      exists front, es end.
    split; [by rewrite <- !app_assoc|]. split; [done|].
    cbn [backend_posts].
    destruct (backendAvailable s);
      [destruct (backendUrl s) as [url|]; [destruct (String.eqb url "")|]|];
      destruct (onQueueChangeCallback s); simpl; split; try done;
      repeat constructor.
  - unfold _handleIncomingTask. destruct (String.eqb _ "process_chunk").
    + destruct (wire_chunk task) as [chunk|].
      * apply (Hbody (fun _ => False)).
        apply _processChunkLocally_loop_acts;
          [intros; apply _processNextTask_acts0|].
        apply acts_set_nextOid, rtc_refl.
      * apply (Hbody (fun _ => False)). apply acts_throw, rtc_refl.
    + destruct (String.eqb _ "generate"); [|by apply Hsame].
      apply (Hbody (fun _ => False)). apply _processNextTask_acts.
      apply acts_set_queue, acts_set_nextOid, rtc_refl.
  - apply (Hbody (fun _ => False)).
    apply _handleResult_acts; [intros; apply _processNextTask_acts0|apply rtc_refl].
  - unfold _updateWorkerProgress.
    destruct (JSMap.get peerId (workers s)) as [worker|];
      (match goal with |- context [if ?b then _ else _] => destruct b end;
       [eexists [_], []; simpl; split; [reflexivity|];
        repeat split; try done; repeat constructor
       |by apply Hsame]).
  - by apply Hsame.
  - unfold _syncQueue.
    destruct (_syncQueue_loop_frame (default [] (tasks queueData)) s)
      as (_ & _ & Ht & _).
    destruct (onQueueChangeCallback _).
    + eexists [_], []. simpl. rewrite Ht.
      repeat split; try done; repeat constructor.
    + by apply Hsame.
  - apply (Hbody (eq peerId)).
    apply _handleWorkerDisconnect_acts;
      [intros; apply _processNextTask_acts0|done|apply rtc_refl].
  - unfold resume. destruct (pending s !! k) as [frame|]; [|by apply Hsame].
    apply (Hbody (fun _ => False)). destruct frame.
    + apply _processLocally_loop_acts; [intros; apply _processNextTask_acts0|].
      apply acts_set_pending, rtc_refl.
    + apply _processChunkLocally_loop_acts;
        [intros; apply _processNextTask_acts0|].
      apply acts_set_pending, rtc_refl.
  - by apply Hsame.
  - by apply Hsame.
  - apply Hsame. unfold checkBackend. by destruct outcome as [[]|].
Qed.


Lemma handle_targeted e s :
  Forall targeted (trace s) -> Forall targeted (trace (handle e s)).
Proof.
  intros H. destruct (handle_trace e s) as (front & es & -> & Hes & Hf & _).
  apply Forall_app. split; [done|]. apply Forall_app. split; [done|].
  eapply Forall_impl; [exact Hes|]. apply scheduling_effect_targeted.
Qed.

(** X9.  Every task message the coordinator ever sends names exactly one
    target peer: whatever the events, it never broadcasts a task to the
    whole room and never sends one with an empty target list. *)
Theorem X9_task_messages_name_one_peer (self : string) (events : list Event) :
  Forall targeted (trace (run events (new_coordinator self))).
Proof.
  unfold run.
  assert (H : Forall targeted (trace (new_coordinator self))) by constructor.
  revert H. generalize (new_coordinator self).
  induction events as [|e events IH]; intros s H; simpl; [done|].
  apply IH. by apply handle_targeted.
Qed.

(** ** Working entries *)

Lemma handle_keeps_working e s p :
  ~ resets p e ->
  (exists w, JSMap.get p (workers s) = Some w /\ worker_status w = "working") ->
  exists w', JSMap.get p (workers (handle e s)) = Some w' /\
             worker_status w' = "working".
Proof.
  intros Hr Hw.
  assert (Hbody : forall D s0 s', ~ D p -> workers s0 = workers s ->
            acts scheduling_effect D s0 s' ->
            exists w', JSMap.get p (workers s') = Some w' /\
                       worker_status w' = "working").
  { intros D s0 s' Hd E H. eapply acts_working; [exact H|exact Hd|].
    by rewrite E. }
  assert (Hsame : forall s', workers s' = workers s ->
            exists w', JSMap.get p (workers s') = Some w' /\
                       worker_status w' = "working").
  { intros s' E. by rewrite E. }
  destruct e as [now rnd text neg opts|now task peerId|now result peerId
                |progress peerId|capabilities peerId|queueData peerId
                |now peerId|now k|capabilities|p' c q|outcome base];
    cbn [handle]; cbn [resets] in Hr.
  - destruct (addTask_front now rnd text neg opts s) as (s1 & -> & E & _).
    apply (Hbody (fun _ => False) s1); [tauto|done|].
    apply _processNextTask_acts0.
  - unfold _handleIncomingTask. destruct (String.eqb _ "process_chunk").
    + destruct (wire_chunk task) as [chunk|]; [|by apply Hsame].
      apply (Hbody (fun _ => False) (set_nextOid (S (nextOid s)) s));
        [tauto|done|].
      apply _processChunkLocally_loop_acts;
        [intros; apply _processNextTask_acts0|apply rtc_refl].
    + destruct (String.eqb _ "generate"); [|by apply Hsame].
      match goal with |- context [_processNextTask now ?s1] =>
        apply (Hbody (fun _ => False) s1); [tauto|done|] end.
      apply _processNextTask_acts0.
  - apply (Hbody (fun _ => False) s); [tauto|done|].
    apply _handleResult_acts; [intros; apply _processNextTask_acts0|apply rtc_refl].
  - unfold _updateWorkerProgress. destruct Hw as (w & Hg & Hst).
    match goal with |- context [if ?b then _ else _] => destruct b end; simpl;
      (destruct (JSMap.get peerId (workers s)) as [worker|] eqn:Hgp;
       [|by exists w]); simpl;
      (destruct (decide (peerId = p)) as [->|Hne];
       [rewrite JSMap_get_set_eq; eexists; split; [done|]; simpl; congruence
       |rewrite JSMap_get_set_ne by done; by exists w]).
  - destruct Hw as (w & Hg & Hst). unfold onCapabilities. simpl.
    rewrite JSMap_get_set_ne by (intros ->; by apply Hr). by exists w.
  - apply Hsame. unfold _syncQueue.
    destruct (_syncQueue_loop_frame (default [] (tasks queueData)) s)
      as (_ & E & _).
    by destruct (onQueueChangeCallback _).
  - apply (Hbody (eq peerId) s); [done|done|].
    apply _handleWorkerDisconnect_acts;
      [intros; apply _processNextTask_acts0|done|apply rtc_refl].
  - unfold resume. destruct (pending s !! k) as [frame|]; [|by apply Hsame].
    match goal with |- context [set_pending ?pp s] =>
      apply (Hbody (fun _ => False) (set_pending pp s)); [tauto|done|] end.
    destruct frame.
    + apply _processLocally_loop_acts;
        [intros; apply _processNextTask_acts0|apply rtc_refl].
    + apply _processChunkLocally_loop_acts;
        [intros; apply _processNextTask_acts0|apply rtc_refl].
  - by apply Hsame.
  - by apply Hsame.
  - apply Hsame. unfold checkBackend. by destruct outcome as [[]|].
Qed.

Lemma run_app events events' s :
  run (events ++ events') s = run events' (run events s).
Proof. unfold run. by rewrite fold_left_app. Qed.

(** X10.  A registry entry with status working stays working: no result,
    progress report, completion or later job sets it back to idle.  Only a
    new announcement by that peer or its departure ends it; until then the
    peer is never among the candidates again. *)
Theorem X10_working_entry_stays_working
    (self : string) (before events : list Event) (p : string) (w : Worker) :
  let s := run before (new_coordinator self) in
  JSMap.get p (workers s) = Some w ->
  worker_status w = "working" ->
  Forall (fun e => ~ resets p e) events ->
  (exists w', JSMap.get p (workers (run events s)) = Some w' /\
              worker_status w' = "working") /\
  (forall c, c ∈ _getAvailableWorkers (run events s) ->
             isLocal c = false -> cand_id c <> p).
Proof.
  intros s Hg Hst Hev.
  assert (Hw : exists w', JSMap.get p (workers (run events s)) = Some w' /\
                          worker_status w' = "working").
  { assert (H0 : exists w', JSMap.get p (workers s) = Some w' /\
                            worker_status w' = "working") by by exists w.
    clear Hg. revert H0. generalize s. clear s.
    induction Hev as [|e events He _ IH]; intros s H0; [done|].
    simpl. apply IH. by apply handle_keeps_working. }
  split; [done|]. intros c Hc Hloc.
  destruct Hw as (w' & Hg' & Hst').
  assert (Hreach : reachable self (run events s)).
  { unfold s. rewrite <- run_app. apply reachable_run. }
  destruct (reachable_registry _ _ Hreach) as [Hnd Hk].
  unfold _getAvailableWorkers in Hc. apply elem_of_app in Hc as [Hc|Hc].
  { destruct (localWorker _) as [lw|]; [destruct (hasGPU _)|];
      try (by apply elem_of_nil in Hc).
    apply list_elem_of_singleton in Hc. subst c. done. }
  apply list_elem_of_fmap in Hc as (w0 & -> & Hw0).
  apply list_elem_of_In, List.filter_In in Hw0 as [Hin Hidle].
  apply list_elem_of_In in Hin. unfold JSMap.values in Hin.
  apply list_elem_of_fmap in Hin as ([k0 w1] & E & Hin). simpl in E. subst w1.
  pose proof (JSMap_get_elem _ _ _ Hnd Hin) as Hg0.
  pose proof (keyed_by_id_get _ _ _ Hk Hg0) as Hid. simpl.
  intros Hp. rewrite Hid in Hp. subst k0. rewrite Hp in Hg0.
  assert (E : Some w' = Some w0) by (etrans; [symmetry; exact Hg'|exact Hg0]).
  injection E as <-. unfold is_idle_gpu in Hidle. rewrite Hst' in Hidle.
  done.
Qed.

(** ** A local run from its first timer to completion *)

Lemma resume_local_step now s job totalSteps step :
  pending s = [ProcessLocally job totalSteps step] ->
  step + 1 < totalSteps ->
  let s' := resume now 0 s in
  pending s' = [ProcessLocally job totalSteps (step + 1)] /\
  currentTask s' = currentTask s /\ queue s' = queue s /\
  detached s' = detached s /\
  onProgressCallback s' = onProgressCallback s /\
  onCompleteCallback s' = onCompleteCallback s /\
  trace s' = trace s ++
    (if onProgressCallback s
     then local_progress_events (task_id job) totalSteps (step + 1) 1
     else []).
Proof.
  intros Hp Hlt s'. subst s'. unfold resume. rewrite Hp. simpl.
  unfold Body._processLocally_loop.
  assert (E : (step + 1 <? totalSteps) = true) by (apply Z.ltb_lt; lia).
  rewrite E. simpl. destruct (onProgressCallback s) eqn:Ecb; simpl;
    rewrite ?Ecb, ?app_nil_r; done.
Qed.

Lemma resume_local_last now s job totalSteps step :
  pending s = [ProcessLocally job totalSteps step] ->
  currentTask s = Some job -> queue s = [] ->
  totalSteps <= step + 1 ->
  let s' := resume now 0 s in
  let finished := set_completedAt (Some now) (set_status "complete" job) in
  pending s' = [] /\ currentTask s' = None /\
  detached s' = detached s ++ [finished] /\
  trace s' = trace s ++ (if onCompleteCallback s then [OnComplete finished] else []).
Proof.
  intros Hp Hc Hq Hge s' finished. subst s'. unfold resume. rewrite Hp. simpl.
  unfold Body._processLocally_loop.
  assert (E : (step + 1 <? totalSteps) = false) by (apply Z.ltb_ge; lia).
  rewrite E. rewrite _processNextTask_empty.
  2:{ rewrite clear_currentTask_queue.
      destruct (onCompleteCallback _); simpl; by rewrite update_task_queue. }
  unfold update_task, clear_currentTask, deref, lookup_task, has_oid. simpl.
  rewrite Hc, Nat.eqb_refl. simpl.
  destruct (onCompleteCallback s); simpl; rewrite ?Nat.eqb_refl; simpl;
    rewrite ?app_nil_r; done.
Qed.

Lemma local_progress_events_app taskId totalSteps step n m :
  local_progress_events taskId totalSteps step (n + m)
  = local_progress_events taskId totalSteps step n
    ++ local_progress_events taskId totalSteps (step + Z.of_nat n) m.
Proof.
  revert step. induction n as [|n IH]; intros step; simpl.
  - by rewrite Z.add_0_r.
  - rewrite IH. do 3 f_equal. lia.
Qed.

(** X7.  A job that runs locally ([_processLocally], suspended in iteration
    [step] of its [totalSteps]) completes after exactly
    [totalSteps - step] timers and not before: each timer but the last
    reports the next step to the progress subscriber and suspends again
    with the job still active; the last one marks the job complete, stamps
    it with the clock of that timer, tells the completion subscriber once,
    and leaves the active slot empty. *)
Theorem X7_local_run_completes
    (s : Coordinator) (job : Task) (totalSteps step : Z)
    (nows : list Z) (last_now : Z) :
  currentTask s = Some job ->
  pending s = [ProcessLocally job totalSteps step] ->
  queue s = [] ->
  step + 1 + Z.of_nat (length nows) = totalSteps ->
  let s' := run (ticks (nows ++ [last_now])) s in
  let finished := set_completedAt (Some last_now) (set_status "complete" job) in
  (forall k, (k <= length nows)%nat ->
             currentTask (run (ticks (take k nows)) s) = Some job) /\
  currentTask s' = None /\
  pending s' = [] /\
  detached s' = detached s ++ [finished] /\
  trace s' = trace s ++
    (if onProgressCallback s
     then local_progress_events (task_id job) totalSteps (step + 1) (length nows)
     else []) ++
    (if onCompleteCallback s then [OnComplete finished] else []).
Proof.
  revert s step. induction nows as [|now nows IH]; intros s step Hc Hp Hq Hn.
  - simpl in Hn. intros s' finished. subst s'. unfold ticks, run. simpl.
    destruct (resume_local_last last_now s job totalSteps step Hp Hc Hq
                ltac:(lia)) as (H1 & H2 & H3 & H4).
    split.
    { intros k Hk. simpl in Hk. assert (k = 0%nat) as -> by lia. done. }
    split; [done|]. split; [done|]. split; [done|].
    rewrite H4. by destruct (onProgressCallback s).
  - simpl length in Hn.
    destruct (resume_local_step now s job totalSteps step Hp ltac:(lia))
      as (H1 & H2 & H3 & H4 & H5 & H6 & H7).
    specialize (IH (resume now 0 s) (step + 1)).
    destruct IH as (I1 & I2 & I3 & I4 & I5); [congruence|done|congruence|lia|].
    intros s' finished. subst s'. unfold ticks, run in *. simpl in *.
    split.
    { intros [|k] Hk; [done|]. simpl. apply I1. lia. }
    split; [done|]. split; [done|]. split; [by rewrite I4, H4|].
    rewrite I5, H7, H5, H6.
    destruct (onProgressCallback s); simpl; rewrite <- ?app_assoc; simpl;
      rewrite ?app_nil_r; done.
Qed.

(** ** A job that cannot be run *)

Section Blocked.
Variable t : Task.
Hypothesis no_results : results t = None.
Hypothesis no_chunks : chunks t = None.

Lemma blocked_on_emit q e s : blocked_on t q s -> blocked_on t q (emit e s).
Proof. done. Qed.

Lemma blocked_on_throw q msg s : blocked_on t q s -> blocked_on t q (throw msg s).
Proof. done. Qed.

Lemma blocked_on_next q now s : blocked_on t q s -> _processNextTask now s = s.
Proof. intros (Hc & _). apply _processNextTask_busy. by rewrite Hc. Qed.

Lemma mark_chunk_none cid st : mark_chunk cid st t = t.
Proof.
  unfold mark_chunk. rewrite no_chunks. simpl. clear no_results.
  destruct t. simpl in *. by subst.
Qed.

Lemma blocked_on_mark q o cid st s :
  blocked_on t q s -> update_task o (mark_chunk cid st) s = s \/
                    blocked_on t q (update_task o (mark_chunk cid st) s).
Proof.
  intros (Hc & Hp & Hq). unfold update_task. rewrite Hc.
  destruct (has_oid o t).
  - left. rewrite mark_chunk_none. destruct s. simpl in *. by subst.
  - right. done.
Qed.

Lemma blocked_on_handleResult q now result peerId s :
  blocked_on t q s -> blocked_on t q (_handleResult now result peerId s).
Proof.
  intros H. pose proof H as (Hc & _).
  unfold _handleResult, Body._handleResult. rewrite Hc.
  destruct (negb _); [done|]. rewrite no_results. by apply blocked_on_throw.
Qed.

Lemma blocked_on_chunk_loop q now workerTask owner i s :
  blocked_on t q s ->
  blocked_on t q (Body._processChunkLocally_loop now (_processNextTask now)
                  workerTask owner i s).
Proof.
  intros H. unfold Body._processChunkLocally_loop. destruct (_ <? _).
  - assert (Hrest : forall s', blocked_on t q s' ->
      blocked_on t q
        (set_pending
           (pending
              (emit (BroadcastProgress (task_id (wt_task workerTask))
                       (chunk_id (wt_chunk workerTask))
                       (inject_Z (i + 1)
                        / inject_Z (endStep (wt_chunk workerTask)
                                    - startStep (wt_chunk workerTask)))%Q
                       (selfId s')) s')
            ++ [ProcessChunkLocally workerTask owner i])
           (emit (BroadcastProgress (task_id (wt_task workerTask))
                    (chunk_id (wt_chunk workerTask))
                    (inject_Z (i + 1)
                     / inject_Z (endStep (wt_chunk workerTask)
                                 - startStep (wt_chunk workerTask)))%Q
                    (selfId s')) s'))).
    { intros s' (Hc & Hp & Hq). split; [done|]. split; [|done]. simpl.
      apply Forall_app. split; [done|]. by repeat constructor. }
    destruct (onProgressCallback s); [|by apply Hrest].
    destruct (options (wt_task workerTask)); [|by apply blocked_on_throw].
    apply Hrest. by apply blocked_on_emit.
  - change (Body._handleResult now (_processNextTask now))
      with (_handleResult now).
    apply blocked_on_handleResult. destruct owner as [o|]; [|done].
    destruct (blocked_on_mark q o (chunk_id (wt_chunk workerTask)) "complete" s H)
      as [->|H']; done.
Qed.

Lemma blocked_on_handle q e s :
  blocked_on t q s -> blocked_on t q (handle e s).
Proof.
  intros H. pose proof H as (Hc & Hp & Hq).
  destruct e as [now rnd text neg opts|now task peerId|now result peerId
                |progress peerId|capabilities peerId|queueData peerId
                |now peerId|now k|capabilities|p c q0|outcome base];
    cbn [handle].
  - unfold addTask. cbn [snd].
    match goal with |- blocked_on t q (_processNextTask now ?s1) =>
      assert (H1 : blocked_on t q s1) end.
    { unfold _notifyBackend, _broadcastQueueUpdate.
      repeat case_match; simpl; (split; [done|]); (split; [done|]);
        by apply prefix_app_r. }
    by rewrite (blocked_on_next q now _ H1).
  - unfold _handleIncomingTask. destruct (String.eqb _ "process_chunk").
    + destruct (wire_chunk task) as [chunk|]; [|by apply blocked_on_throw].
      by apply blocked_on_chunk_loop.
    + destruct (String.eqb _ "generate"); [|done].
      match goal with |- blocked_on t q (_processNextTask now ?s1) =>
        assert (H1 : blocked_on t q s1) end.
      { split; [done|]. split; [done|]. by apply prefix_app_r. }
      by rewrite (blocked_on_next q now _ H1).
  - by apply blocked_on_handleResult.
  - unfold _updateWorkerProgress.
    destruct (JSMap.get _ _); destruct (_ && _); done.
  - done.
  - unfold _syncQueue.
    destruct (_syncQueue_loop_frame (default [] (tasks queueData)) s)
      as (E1 & _ & _ & E2 & _).
    assert (H1 : blocked_on t q (_syncQueue_loop (default [] (tasks queueData)) s)).
    { split; [by rewrite E1|]. split; [by rewrite E2|].
      etrans; [exact Hq|]. apply _syncQueue_loop_prefix. }
    by destruct (onQueueChangeCallback _).
  - unfold _handleWorkerDisconnect, Body._handleWorkerDisconnect. rewrite Hc.
    destruct (JSMap.get peerId (workers s)) as [worker|]; [|done].
    destruct (currentChunk worker); [|done]. rewrite no_chunks.
    by apply blocked_on_throw.
  - unfold resume. destruct (pending s !! k) as [frame|] eqn:Hk; [|done].
    assert (Hf : chunk_frame frame).
    { rewrite Forall_lookup in Hp. by eapply Hp. }
    destruct frame as [|workerTask owner i]; [done|].
    apply blocked_on_chunk_loop. split; [done|]. split; [|done]. simpl.
    apply Forall_app. split.
    + eapply Forall_take in Hp. exact Hp.
    + eapply Forall_drop in Hp. exact Hp.
  - done.
  - done.
  - unfold checkBackend. by destruct outcome as [[]|].
Qed.

Lemma blocked_on_run q events s :
  blocked_on t q s -> blocked_on t q (run events s).
Proof.
  revert s. induction events as [|e events IH]; intros s H; [done|].
  simpl. apply IH. by apply blocked_on_handle.
Qed.
End Blocked.

(** X6.  A job without options cannot be run, and it blocks the
    coordinator.  When [_processNextTask] takes such a job (every job
    merged from a peer's queue projection is one: the projection carries
    no options, no chunk list and no result map), reading its step count
    raises an uncaught TypeError and the job stays in the active slot.
    Provided no run of [_processLocally] is suspended at that moment, no
    event ever frees the slot from then on: whatever happens, the job is
    still the active one and the jobs queued behind it are still queued,
    in their order.  The proviso is needed: a suspended run of
    [_processLocally] empties the active slot when it ends, whatever job
    is in it; the suspended runs of [_processChunkLocally], which the
    hypothesis allows, never do. *)
Theorem X6_job_without_options_blocks
    (now : Z) (s : Coordinator) (t : Task) (q : list Task) (events : list Event) :
  currentTask s = None ->
  queue s = t :: q ->
  options t = None -> results t = None -> chunks t = None ->
  Forall chunk_frame (pending s) ->
  let job := set_status "processing" t in
  let s1 := _processNextTask now s in
  s1 = throw "TypeError" (set_currentTask (Some job) (set_queue q s)) /\
  currentTask (run events s1) = Some job /\
  q `prefix_of` queue (run events s1).
Proof.
  intros Hc Hq Ho Hr Hch Hp job s1.
  assert (E : s1 = throw "TypeError" (set_currentTask (Some job) (set_queue q s))).
  { unfold s1. rewrite _processNextTask_unfold. unfold Body._processNextTask.
    rewrite Hc, Hq. unfold Body._processLocally, Body._distributeWork.
    simpl. rewrite Ho. by destruct (Nat.eqb _ _). }
  split; [done|]. rewrite E.
  destruct (blocked_on_run job Hr Hch q events
              (throw "TypeError" (set_currentTask (Some job) (set_queue q s))))
    as (H1 & _ & H2); [|done].
  split; [done|]. split; [done|]. done.
Qed.

(** ** The store of the backend server *)

Lemma JSMap_set_keys_old {V : Type} (k : string) (v : V) (m : JSMap.t V) :
  isSome (JSMap.get k m) = true -> JSMap.keys (JSMap.set k v m) = JSMap.keys m.
Proof.
  unfold JSMap.keys. induction m as [|[k' v'] m IH]; simpl; [done|].
  destruct (String.eqb k' k) eqn:E; simpl.
  - apply String.eqb_eq in E. by subst.
  - intros H. by rewrite IH.
Qed.

Lemma JSMap_set_keys_new {V : Type} (k : string) (v : V) (m : JSMap.t V) :
  JSMap.get k m = None -> JSMap.keys (JSMap.set k v m) = JSMap.keys m ++ [k].
Proof.
  unfold JSMap.keys. induction m as [|[k' v'] m IH]; simpl; [done|].
  destruct (String.eqb k' k) eqn:E; simpl; [done|].
  intros H. by rewrite IH.
Qed.

Lemma JSMap_set_set {V : Type} (k : string) (v v0 : V) (m : JSMap.t V) :
  JSMap.set k v (JSMap.set k v0 m) = JSMap.set k v m.
Proof.
  induction m as [|[k' v'] m IH]; simpl.
  - by rewrite String.eqb_refl.
  - destruct (String.eqb k' k) eqn:E; simpl.
    + by rewrite String.eqb_refl.
    + by rewrite E, IH.
Qed.

Lemma JSMap_get_isSome {V : Type} (k : string) (m : JSMap.t V) :
  isSome (JSMap.get k m) = true <-> k ∈ JSMap.keys m.
Proof.
  destruct (JSMap.get k m) eqn:E; simpl.
  - split; [|done]. intros _.
    destruct (decide (k ∈ JSMap.keys m)) as [|Hn]; [done|].
    apply JSMap_get_None in Hn. congruence.
  - split; [done|]. intros H. by apply JSMap_get_None in E.
Qed.

Lemma JSMap_delete_keys {V : Type} (k : string) (m : JSMap.t V) :
  JSMap.keys (JSMap.delete k m) = remove_first k (JSMap.keys m).
Proof.
  unfold JSMap.keys. induction m as [|[k' v'] m IH]; simpl; [done|].
  destruct (String.eqb k' k); simpl; [done|]. by rewrite IH.
Qed.

Lemma id_eqb_eq a b : Server.id_eqb a b = true <-> a = b.
Proof.
  destruct a as [x|], b as [y|]; simpl; try (split; done).
  rewrite String.eqb_eq. split; congruence.
Qed.

Lemma queued_true i queue :
  Server.queued i queue = true <-> i ∈ map Server.entry_id queue.
Proof.
  unfold Server.queued. rewrite existsb_exists. split.
  - intros (e & Hin & E). apply id_eqb_eq in E. subst i.
    apply list_elem_of_fmap. exists e. split; [done|]. by apply list_elem_of_In.
  - intros H. apply list_elem_of_fmap in H as (e & -> & Hin). exists e.
    split; [by apply list_elem_of_In|]. by apply id_eqb_eq.
Qed.

Lemma queued_false i queue :
  Server.queued i queue = false <-> i ∉ map Server.entry_id queue.
Proof. rewrite <- queued_true. destruct (Server.queued i queue); naive_solver. Qed.

(** What [addToQueue] does to a store in order, case by case. *)
Lemma addToQueue_cases now roomId t st :
  Server.consistent st ->
  let r := Server.addToQueue now roomId t st in
  let entry := {| Server.task := t; Server.serverReceived := now;
                  Server.serverStatus := "queued" |} in
  let queue := Server.room_queue roomId st in
  ((Server.id t ∈ map Server.entry_id queue) /\ r = (queue, st)) \/
  ((Server.id t ∉ map Server.entry_id queue) /\
   fst r = queue ++ [entry] /\
   Server.queues (snd r) = JSMap.set roomId (queue ++ [entry]) (Server.queues st) /\
   Server.roomStats (snd r)
   = JSMap.set roomId
       (let stats :=
          default {| Server.created := now; Server.generated := 0;
                     Server.peers := 0; Server.queueLength := 0;
                     Server.lastActivity := now |}
            (JSMap.get roomId (Server.roomStats st)) in
        {| Server.created := Server.created stats;
           Server.generated := Server.generated stats;
           Server.peers := Server.peers stats;
           Server.queueLength := length (queue ++ [entry]);
           Server.lastActivity := now |})
       (Server.roomStats st)).
Proof.
  intros (Hk & Hnd & Hrooms) r entry queue. subst r queue.
  unfold Server.addToQueue, Server.room_queue.
  destruct (JSMap.get roomId (Server.queues st)) as [q|] eqn:Hg; simpl.
  - rewrite Hg. simpl. destruct (Server.queued (Server.id t) q) eqn:Hq; simpl.
    + left. split; [by apply queued_true|done].
    + right. split; [by apply queued_false|]. split; [done|]. split; [done|].
      unfold Server.updateRoomStats, Server.room_queue. simpl.
      by rewrite JSMap_get_set_eq.
  - rewrite JSMap_get_set_eq. simpl. right.
    split; [intros H; by apply elem_of_nil in H|]. split; [done|].
    rewrite JSMap_set_set. split; [done|].
    unfold Server.updateRoomStats, Server.room_queue. simpl.
    by rewrite JSMap_get_set_eq.
Qed.

Lemma consistent_addToQueue now roomId t st :
  Server.consistent st ->
  Server.consistent (snd (Server.addToQueue now roomId t st)).
Proof.
  intros H. pose proof H as (Hk & Hnd & Hrooms).
  destruct (addToQueue_cases now roomId t st H) as [[_ ->]|(Hni & _ & Hq & Hs)];
    [done|].
  set (queue := Server.room_queue roomId st) in *.
  set (entry := {| Server.task := t; Server.serverReceived := now;
                   Server.serverStatus := "queued" |}) in *.
  unfold Server.consistent. rewrite Hq, Hs. split; [|split].
  - destruct (JSMap.get roomId (Server.queues st)) as [q|] eqn:Hg.
    + destruct (Hrooms roomId q Hg) as (_ & _ & _ & stats & Hgs & _).
      rewrite !JSMap_set_keys_old; [done|by rewrite Hgs|by rewrite Hg].
    + assert (Hgs : JSMap.get roomId (Server.roomStats st) = None).
      { apply JSMap_get_None. rewrite <- Hk. by apply JSMap_get_None. }
      by rewrite !JSMap_set_keys_new, Hk.
  - by apply JSMap_set_NoDup.
  - intros room q. destruct (decide (room = roomId)) as [->|Hne].
    + rewrite !JSMap_get_set_eq. intros [= <-].
      split; [by destruct queue|]. split; [|split].
      * rewrite map_app. simpl. apply NoDup_app. split; [|split].
        -- unfold queue, Server.room_queue.
           destruct (JSMap.get roomId (Server.queues st)) as [q0|] eqn:Hg;
             [|constructor].
           by destruct (Hrooms roomId q0 Hg) as (_ & ? & _).
        -- intros i Hi Hi'. apply list_elem_of_singleton in Hi'. by subst.
        -- apply NoDup_singleton.
      * apply Forall_app. split; [|by repeat constructor].
        unfold queue, Server.room_queue.
        destruct (JSMap.get roomId (Server.queues st)) as [q0|] eqn:Hg;
          [|constructor].
        by destruct (Hrooms roomId q0 Hg) as (_ & _ & ? & _).
      * eexists. split; [done|]. done.
    + rewrite !JSMap_get_set_ne by done. apply Hrooms.
Qed.

Lemma consistent_delete k st :
  Server.consistent st ->
  Server.consistent
    {| Server.queues := JSMap.delete k (Server.queues st);
       Server.roomStats := JSMap.delete k (Server.roomStats st) |}.
Proof.
  intros (Hk & Hnd & Hrooms). unfold Server.consistent. simpl.
  split; [by rewrite !JSMap_delete_keys, Hk|]. split.
  { eapply sublist_NoDup; [exact Hnd|apply JSMap_delete_keys_sublist]. }
  intros room q. destruct (decide (room = k)) as [->|Hne].
  - by rewrite JSMap_get_delete_eq.
  - rewrite !JSMap_get_delete_ne by done. apply Hrooms.
Qed.

Lemma consistent_cleanup now st :
  Server.consistent st -> Server.consistent (Server.cleanup now st).
Proof.
  unfold Server.cleanup. generalize (Server.roomStats st) at 1. intros l.
  revert st. induction l as [|[k r] l IH]; intros st H; simpl; [done|].
  apply IH. destruct (Server.stale now r); [|done]. by apply consistent_delete.
Qed.

Lemma consistent_handle e st :
  Server.consistent st -> Server.consistent (Server.handle e st).
Proof.
  intros H. destruct e as [now roomId body|now roomId t|now]; simpl.
  - unfold Server.post_queue. destruct body as [t|]; [|done].
    destruct (Server.id t) as [taskId|]; [|done].
    destruct (String.eqb taskId ""); [done|]. by apply consistent_addToQueue.
  - by apply consistent_addToQueue.
  - by apply consistent_cleanup.
Qed.

Lemma consistent_run events :
  Server.consistent (Server.run events Server.initial).
Proof.
  unfold Server.run.
  assert (H : Server.consistent Server.initial).
  { split; [done|]. split; [constructor|]. intros room q H. done. }
  revert H. generalize Server.initial.
  induction events as [|e events IH]; intros st H; simpl; [done|].
  apply IH. by apply consistent_handle.
Qed.

(** X11.  Whatever is posted, sent by peers or cleaned up, the two maps of
    the server stay in step: they name the same rooms in the same order;
    no room has an empty queue; and the [queueLength] recorded in a room's
    statistics is the length of its queue. *)
Theorem X11_server_statistics_match_queues (events : list Server.Event) :
  let st := Server.run events Server.initial in
  JSMap.keys (Server.queues st) = JSMap.keys (Server.roomStats st) /\
  NoDup (JSMap.keys (Server.queues st)) /\
  (forall roomId queue,
      JSMap.get roomId (Server.queues st) = Some queue ->
      queue <> [] /\
      exists stats, JSMap.get roomId (Server.roomStats st) = Some stats /\
                    Server.queueLength stats = length queue) /\
  (forall roomId stats,
      JSMap.get roomId (Server.roomStats st) = Some stats ->
      Server.queueLength stats = length (Server.room_queue roomId st)).
Proof.
  intros st. destruct (consistent_run events) as (Hk & Hnd & Hrooms).
  fold st in Hk, Hnd, Hrooms. split; [done|]. split; [done|]. split.
  - intros room q Hg. destruct (Hrooms room q Hg) as (? & _ & _ & ?). done.
  - intros room stats Hg. unfold Server.room_queue.
    destruct (JSMap.get room (Server.queues st)) as [q|] eqn:Hq.
    + destruct (Hrooms room q Hq) as (_ & _ & _ & stats' & Hg' & Hlen).
      assert (stats = stats') as -> by congruence. done.
    + apply JSMap_get_None in Hq. rewrite Hk in Hq.
      apply JSMap_get_None in Hq. congruence.
Qed.

(** X12.  No room of the server ever holds two tasks with the same id, and
    every task it holds has server status queued: a task whose id is
    already queued in the room is dropped, also when it comes from a peer
    and has no id at all (two absent ids count as equal). *)
Theorem X12_server_queue_ids_distinct
    (events : list Server.Event) (roomId : string) :
  let queue := Server.room_queue roomId (Server.run events Server.initial) in
  NoDup (map Server.entry_id queue) /\
  Forall (fun e => Server.serverStatus e = "queued") queue.
Proof.
  intros queue. subst queue. unfold Server.room_queue.
  destruct (consistent_run events) as (_ & _ & Hrooms).
  destruct (JSMap.get roomId _) as [q|] eqn:Hg; simpl.
  - destruct (Hrooms roomId q Hg) as (_ & ? & ? & _). done.
  - split; constructor.
Qed.

(** X13.  [POST /api/queue/:roomId] answers 400 and leaves the store as it
    is when the body is missing or its id is absent or empty.  Otherwise it
    answers with the id and, as position, the length of the room's queue
    after the call.  If the id is already queued in the room the store is
    not touched at all (the room's statistics and last activity included);
    if not, the task is appended to the room's queue with the clock of the
    request, the room's statistics record the new length and that clock as
    last activity, and every other room is left alone. *)
Theorem X13_post_appends_or_ignores
    (events : list Server.Event) (now : Z) (roomId : string)
    (body : option Server.Posted) :
  let st := Server.run events Server.initial in
  let r := Server.post_queue now roomId body st in
  let queue := Server.room_queue roomId st in
  (body = None -> r = (Server.BadRequest "Invalid task", st)) /\
  (forall t, body = Some t -> Server.id t = None \/ Server.id t = Some "" ->
             r = (Server.BadRequest "Invalid task", st)) /\
  (forall t taskId,
      body = Some t -> Server.id t = Some taskId -> taskId <> "" ->
      fst r = Server.Accepted (length (Server.room_queue roomId (snd r))) taskId /\
      (Some taskId ∈ map Server.entry_id queue -> snd r = st) /\
      (Some taskId ∉ map Server.entry_id queue ->
       Server.room_queue roomId (snd r)
       = queue ++ [ {| Server.task := t; Server.serverReceived := now;
                       Server.serverStatus := "queued" |} ] /\
       (exists stats,
           JSMap.get roomId (Server.roomStats (snd r)) = Some stats /\
           Server.queueLength stats = S (length queue) /\
           Server.lastActivity stats = now) /\
       (forall other, other <> roomId ->
          JSMap.get other (Server.queues (snd r))
          = JSMap.get other (Server.queues st) /\
          JSMap.get other (Server.roomStats (snd r))
          = JSMap.get other (Server.roomStats st)))).
Proof.
  intros st r queue. subst r queue. unfold Server.post_queue.
  split; [by intros ->|]. split.
  { intros t -> [E|E]; rewrite E; done. }
  intros t taskId -> Hid Hne. rewrite Hid.
  apply String.eqb_neq in Hne. rewrite Hne. cbn [fst snd].
  destruct (addToQueue_cases now roomId t st (consistent_run events))
    as [[Hin Hr]|(Hni & Hf & Hq & Hs)]; rewrite Hid in *.
  - rewrite Hr. cbn [fst snd]. split; [done|]. split; [done|]. done.
  - assert (Hrq : Server.room_queue roomId
                    (snd (Server.addToQueue now roomId t st))
                  = Server.room_queue roomId st
                    ++ [ {| Server.task := t; Server.serverReceived := now;
                            Server.serverStatus := "queued" |} ]).
    { unfold Server.room_queue at 1. rewrite Hq. by rewrite JSMap_get_set_eq. }
    rewrite Hrq, Hf. split; [done|]. split; [done|]. intros _.
    split; [done|]. split.
    + rewrite Hs, JSMap_get_set_eq. eexists. split; [done|]. simpl.
      rewrite length_app. simpl. split; [lia|done].
    + intros other Ho. rewrite Hq, Hs. by rewrite !JSMap_get_set_ne.
Qed.

(** ** The clean-up *)

Lemma cleanup_fold_roomStats now l st k :
  NoDup (JSMap.keys (Server.roomStats st)) ->
  JSMap.get k
    (Server.roomStats
       (fold_left
          (fun st kv =>
             if Server.stale now kv.2
             then {| Server.queues := JSMap.delete kv.1 (Server.queues st);
                     Server.roomStats := JSMap.delete kv.1 (Server.roomStats st) |}
             else st) l st))
  = if existsb (fun kv => String.eqb kv.1 k && Server.stale now kv.2) l
    then None else JSMap.get k (Server.roomStats st).
Proof.
  revert st. induction l as [|[k0 r0] l IH]; intros st Hnd; simpl; [done|].
  destruct (Server.stale now r0) eqn:Es; simpl.
  - rewrite IH.
    2:{ simpl. eapply sublist_NoDup; [exact Hnd|apply JSMap_delete_keys_sublist]. }
    simpl. destruct (String.eqb k0 k) eqn:E; simpl.
    + apply String.eqb_eq in E. subst k0. rewrite JSMap_get_delete_eq by done.
      by destruct (existsb _ _).
    + apply String.eqb_neq in E. by rewrite JSMap_get_delete_ne.
  - rewrite andb_false_r. simpl. by apply IH.
Qed.

Lemma cleanup_fold_queues now l st k :
  NoDup (JSMap.keys (Server.queues st)) ->
  JSMap.get k
    (Server.queues
       (fold_left
          (fun st kv =>
             if Server.stale now kv.2
             then {| Server.queues := JSMap.delete kv.1 (Server.queues st);
                     Server.roomStats := JSMap.delete kv.1 (Server.roomStats st) |}
             else st) l st))
  = if existsb (fun kv => String.eqb kv.1 k && Server.stale now kv.2) l
    then None else JSMap.get k (Server.queues st).
Proof.
  revert st. induction l as [|[k0 r0] l IH]; intros st Hnd; simpl; [done|].
  destruct (Server.stale now r0) eqn:Es; simpl.
  - rewrite IH.
    2:{ simpl. eapply sublist_NoDup; [exact Hnd|apply JSMap_delete_keys_sublist]. }
    simpl. destruct (String.eqb k0 k) eqn:E; simpl.
    + apply String.eqb_eq in E. subst k0. rewrite JSMap_get_delete_eq by done.
      by destruct (existsb _ _).
    + apply String.eqb_neq in E. by rewrite JSMap_get_delete_ne.
  - rewrite andb_false_r. simpl. by apply IH.
Qed.

Lemma stale_entry now (m : JSMap.t Server.RoomStats) k :
  NoDup (JSMap.keys m) ->
  existsb (fun kv => String.eqb kv.1 k && Server.stale now kv.2) m
  = match JSMap.get k m with
    | Some r => Server.stale now r
    | None => false
    end.
Proof.
  unfold JSMap.keys. induction m as [|[k0 r0] m IH]; simpl; [done|].
  intros H. apply NoDup_cons in H as [Hni Hnd].
  destruct (String.eqb k0 k) eqn:E; simpl.
  - apply String.eqb_eq in E. subst k0.
    destruct (Server.stale now r0); [done|]. simpl. rewrite IH by done.
    assert (Hn : JSMap.get k m = None) by by apply JSMap_get_None.
    by rewrite Hn.
  - by apply IH.
Qed.

Lemma cleanup_fold_fresh now l st :
  Forall (fun kv => Server.stale now kv.2 = false) l ->
  fold_left
    (fun st (kv : string * Server.RoomStats) =>
       if Server.stale now kv.2
       then {| Server.queues := JSMap.delete kv.1 (Server.queues st);
               Server.roomStats := JSMap.delete kv.1 (Server.roomStats st) |}
       else st) l st = st.
Proof.
  induction 1 as [|[k r] l H _ IH]; simpl; [done|]. simpl in H. by rewrite H.
Qed.

(** X14.  The hourly clean-up removes a room, queue and statistics
    together, exactly when its last activity is more than 24 hours before
    the clock of the clean-up; every other room keeps its queue and its
    statistics as they were; and a second clean-up at the same clock
    changes nothing. *)
Theorem X14_cleanup_removes_stale_rooms
    (events : list Server.Event) (now : Z) (roomId : string) :
  let st := Server.run events Server.initial in
  let st' := Server.cleanup now st in
  (forall stats,
      JSMap.get roomId (Server.roomStats st) = Some stats ->
      Server.maxAge < now - Server.lastActivity stats ->
      JSMap.get roomId (Server.roomStats st') = None /\
      JSMap.get roomId (Server.queues st') = None) /\
  (forall stats,
      JSMap.get roomId (Server.roomStats st) = Some stats ->
      now - Server.lastActivity stats <= Server.maxAge ->
      JSMap.get roomId (Server.roomStats st') = Some stats /\
      JSMap.get roomId (Server.queues st')
      = JSMap.get roomId (Server.queues st)) /\
  (JSMap.get roomId (Server.roomStats st) = None ->
   JSMap.get roomId (Server.roomStats st') = None /\
   JSMap.get roomId (Server.queues st') = None) /\
  Server.cleanup now st' = st'.
Proof.
  intros st st'. destruct (consistent_run events) as (Hk & Hnd & Hrooms).
  fold st in Hk, Hnd, Hrooms.
  assert (Hnd' : NoDup (JSMap.keys (Server.roomStats st))) by by rewrite <- Hk.
  assert (Hs : forall k, JSMap.get k (Server.roomStats st')
                 = match JSMap.get k (Server.roomStats st) with
                   | Some r => if Server.stale now r then None else Some r
                   | None => None
                   end).
  { intros k. unfold st', Server.cleanup.
    rewrite cleanup_fold_roomStats, stale_entry by done.
    destruct (JSMap.get k (Server.roomStats st)) as [r|]; [|done].
    by destruct (Server.stale now r). }
  assert (Hq : forall k, JSMap.get k (Server.queues st')
                 = match JSMap.get k (Server.roomStats st) with
                   | Some r => if Server.stale now r then None
                               else JSMap.get k (Server.queues st)
                   | None => None
                   end).
  { intros k. unfold st', Server.cleanup.
    rewrite cleanup_fold_queues, stale_entry by done.
    destruct (JSMap.get k (Server.roomStats st)) as [r|] eqn:E; [done|].
    apply JSMap_get_None. rewrite Hk. by apply JSMap_get_None. }
  split; [|split; [|split]].
  - intros stats Hg Hold. rewrite Hs, Hq, Hg.
    assert (E : Server.stale now stats = true) by (apply Z.ltb_lt; lia).
    by rewrite E.
  - intros stats Hg Hnew. rewrite Hs, Hq, Hg.
    assert (E : Server.stale now stats = false) by (apply Z.ltb_ge; lia).
    by rewrite E.
  - intros Hg. by rewrite Hs, Hq, Hg.
  - unfold Server.cleanup at 1. apply cleanup_fold_fresh.
    destruct (consistent_cleanup now st (consistent_run events))
      as (Hk1 & Hnd1 & _). fold st st' in Hk1, Hnd1.
    apply Forall_forall. intros [k r] Hin. simpl.
    assert (Hg : JSMap.get k (Server.roomStats st') = Some r).
    { apply JSMap_get_elem; [by rewrite <- Hk1|done]. }
    rewrite Hs in Hg. destruct (JSMap.get k (Server.roomStats st)) as [r0|]; [|done].
    destruct (Server.stale now r0) eqn:E; [done|]. by injection Hg as <-.
Qed.

(** ** The figures of the backend server *)

Lemma list_to_map_get {V : Type} (l : JSMap.t V) (k : string) :
  (list_to_map l : gmap string V) !! k = JSMap.get k l.
Proof.
  induction l as [|[k' v] l IH]; simpl; [done|].
  destruct (String.eqb k' k) eqn:E.
  - apply String.eqb_eq in E. subst k'. by rewrite lookup_insert_eq.
  - apply String.eqb_neq in E. by rewrite lookup_insert_ne.
Qed.

Lemma JSMap_get_filter {V : Type} (k0 : string) (l : JSMap.t V) (k : string) :
  JSMap.get k (List.filter (fun kv => negb (String.eqb kv.1 k0)) l)
  = if negb (String.eqb k k0) then JSMap.get k l else None.
Proof.
  induction l as [|[k' v] l IH]; simpl; [by destruct (negb _)|].
  destruct (String.eqb k' k) eqn:E.
  - apply String.eqb_eq in E. subst k'.
    destruct (negb (String.eqb k k0)) eqn:Ep; simpl;
      [by rewrite String.eqb_refl|done].
  - destruct (negb (String.eqb k' k0)) eqn:Ep'; simpl; [by rewrite E|done].
Qed.

Lemma JSMap_get_map {A B : Type} (g : A -> B) (l : JSMap.t A) (k : string) :
  JSMap.get k (map (fun kv => (kv.1, g kv.2)) l) = g <$> JSMap.get k l.
Proof.
  induction l as [|[k' v] l IH]; simpl; [done|].
  by destruct (String.eqb k' k).
Qed.

Lemma JSMap_filter_keys {V : Type} (k0 : string) (l : JSMap.t V) :
  JSMap.keys (List.filter (fun kv => negb (String.eqb kv.1 k0)) l)
  = List.filter (fun k => negb (String.eqb k k0)) (JSMap.keys l).
Proof.
  unfold JSMap.keys. induction l as [|[k v] l IH]; simpl; [done|].
  destruct (negb _); simpl; by rewrite IH.
Qed.

Lemma List_filter_sublist {A : Type} (f : A -> bool) (l : list A) :
  List.filter f l `sublist_of` l.
Proof.
  induction l as [|x l IH]; simpl; [done|].
  destruct (f x); by constructor.
Qed.

Lemma filter_map_key {A B : Type} (g : A -> B) (k0 : string) (l : JSMap.t A) :
  List.filter (fun kv => negb (String.eqb kv.1 k0))
    (map (fun kv => (kv.1, g kv.2)) l)
  = map (fun kv => (kv.1, g kv.2))
      (List.filter (fun kv => negb (String.eqb kv.1 k0)) l).
Proof.
  induction l as [|[k v] l IH]; [done|].
  cbn [map List.filter fst snd].
  destruct (negb (String.eqb k k0)); cbn [map fst snd]; by rewrite IH.
Qed.

(** The properties of [stats.rooms] after the loop over [roomStats]. *)
Lemma rooms_fold (l : JSMap.t Server.RoomStats) (acc : gmap string Server.RoomSummary) :
  NoDup (JSMap.keys l) ->
  fold_left (fun rooms kv => Server.assign_room kv.1 (Server.summarize kv.2) rooms)
    l acc
  = list_to_map
      (List.filter (fun kv => negb (String.eqb kv.1 "__proto__"))
         (map (fun kv => (kv.1, Server.summarize kv.2)) l)) ∪ acc.
Proof.
  revert acc. induction l as [|[k r] l IH]; intros acc Hnd; simpl.
  - by rewrite (left_id_L ∅ (∪)).
  - apply NoDup_cons in Hnd as [Hni Hnd]. rewrite IH by done.
    unfold Server.assign_room. simpl.
    destruct (String.eqb k "__proto__"); simpl; [done|].
    rewrite <- insert_union_l. symmetry. apply insert_union_r.
    rewrite list_to_map_get, JSMap_get_filter.
    destruct (negb _); [|done]. rewrite JSMap_get_map.
    apply JSMap_get_None in Hni. simpl in *. by rewrite Hni.
Qed.

Lemma length_filter_key {V : Type} (k : string) (l : JSMap.t V) :
  NoDup (JSMap.keys l) ->
  (length (List.filter (fun kv => negb (String.eqb kv.1 k)) l)
   + (if isSome (JSMap.get k l) then 1 else 0))%nat = length l.
Proof.
  induction l as [|[k' v] l IH]; simpl; [done|]. intros Hnd.
  apply NoDup_cons in Hnd as [Hni Hnd]. specialize (IH Hnd).
  destruct (String.eqb k' k) eqn:E; simpl.
  - apply String.eqb_eq in E. subst k'. apply JSMap_get_None in Hni.
    rewrite Hni in IH. simpl in IH. lia.
  - lia.
Qed.

Lemma sum_filter_key {V : Type} (f : V -> nat) (k : string) (l : JSMap.t V) :
  NoDup (JSMap.keys l) ->
  (sum_list_with (fun kv => f kv.2)
     (List.filter (fun kv => negb (String.eqb kv.1 k)) l)
   + match JSMap.get k l with Some v => f v | None => 0 end)%nat
  = sum_list_with (fun kv => f kv.2) l.
Proof.
  induction l as [|[k' v] l IH]; simpl; [done|]. intros Hnd.
  apply NoDup_cons in Hnd as [Hni Hnd]. specialize (IH Hnd).
  destruct (String.eqb k' k) eqn:E; simpl.
  - apply String.eqb_eq in E. subst k'. apply JSMap_get_None in Hni.
    rewrite Hni in IH. simpl in IH. lia.
  - lia.
Qed.

Lemma totalQueued_sum (qs : list (list Server.Entry)) (n : nat) :
  fold_left (fun sum q => (sum + length q)%nat) qs n
  = (n + sum_list_with length qs)%nat.
Proof.
  revert n. induction qs as [|q qs IH]; intros n; simpl; [lia|].
  rewrite IH. lia.
Qed.

(** Two maps with the same keys whose values are related key by key have
    their values related in order. *)
Lemma values_Forall2 {A B : Type} (R : A -> B -> Prop)
    (m1 : JSMap.t A) (m2 : JSMap.t B) :
  JSMap.keys m1 = JSMap.keys m2 -> NoDup (JSMap.keys m1) ->
  (forall k a, JSMap.get k m1 = Some a ->
               exists b, JSMap.get k m2 = Some b /\ R a b) ->
  Forall2 R (JSMap.values m1) (JSMap.values m2).
Proof.
  unfold JSMap.keys, JSMap.values. revert m2.
  induction m1 as [|[k a] m1 IH]; intros [|[k' b] m2]; simpl; try done.
  intros [= <- Hk] Hnd H. apply NoDup_cons in Hnd as [Hni Hnd].
  constructor.
  - destruct (H k a) as (b' & Hb & HR); [by rewrite String.eqb_refl|].
    rewrite String.eqb_refl in Hb. by injection Hb as <-.
  - apply IH; [done|done|]. intros k0 a0 Hg.
    assert (Hne : String.eqb k k0 = false).
    { apply String.eqb_neq. intros ->. apply Hni.
      assert (Hs : isSome (JSMap.get k0 m1) = true) by by rewrite Hg.
      by apply JSMap_get_isSome in Hs. }
    specialize (H k0 a0). rewrite Hne in H. by apply H.
Qed.

(** X15.  In the answer of [GET /api/stats], [activeRooms] counts the
    rooms that have a queue and [totalQueued] adds up the lengths of their
    queues.  The rooms listed are these rooms, each with the length of its
    queue as [queueLength], except a room called ["__proto__"]: assigning
    to that key of a plain object sets its prototype, so that room is
    never listed.  Hence [activeRooms] is the number of rooms listed and
    [totalQueued] the sum of the figures listed exactly as long as no room
    of that name has a queue; when one has, the two are larger by one and
    by the length of its queue. *)
Theorem X15_stats_add_up (events : list Server.Event) (polyfill : bool) :
  let st := Server.run events Server.initial in
  let g := Server.get_stats polyfill st in
  Server.rooms g !! "__proto__" = None /\
  (forall roomId,
      roomId <> "__proto__" ->
      Server.summary_queueLength <$> (Server.rooms g !! roomId)
      = length <$> JSMap.get roomId (Server.queues st)) /\
  Server.activeRooms g
  = (size (Server.rooms g)
     + if isSome (JSMap.get "__proto__" (Server.queues st)) then 1 else 0)%nat /\
  Server.totalQueued g
  = (sum_list_with (fun kv => Server.summary_queueLength kv.2)
       (map_to_list (Server.rooms g))
     + length (Server.room_queue "__proto__" st))%nat.
Proof.
  intros st g. destruct (consistent_run events) as (Hk & Hnd & Hrooms).
  fold st in Hk, Hnd, Hrooms.
  assert (Hnd' : NoDup (JSMap.keys (Server.roomStats st))) by (by rewrite <- Hk).
  set (listed := List.filter (fun kv => negb (String.eqb kv.1 "__proto__"))
                   (map (fun kv => (kv.1, Server.summarize kv.2))
                      (Server.roomStats st))).
  assert (Er : Server.rooms g = list_to_map listed).
  { unfold g, Server.get_stats. cbn [Server.rooms].
    rewrite rooms_fold by done. by rewrite (right_id_L ∅ (∪)). }
  assert (Hget : forall k, (list_to_map listed : gmap string _) !! k
                  = if negb (String.eqb k "__proto__")
                    then Server.summarize <$> JSMap.get k (Server.roomStats st)
                    else None).
  { intros k. unfold listed.
    rewrite list_to_map_get, JSMap_get_filter.
    destruct (negb _); [|done]. apply JSMap_get_map. }
  assert (Hstats : forall k,
            Server.queueLength <$> JSMap.get k (Server.roomStats st)
            = length <$> JSMap.get k (Server.queues st)).
  { intros k. destruct (JSMap.get k (Server.queues st)) as [q|] eqn:Hq; simpl.
    - destruct (Hrooms k q Hq) as (_ & _ & _ & stats & -> & E). simpl.
      by rewrite E.
    - apply JSMap_get_None in Hq. rewrite Hk in Hq.
      apply JSMap_get_None in Hq. by rewrite Hq. }
  pose proof (filter_map_key Server.summarize "__proto__"
                (Server.roomStats st)) as Hfilter.
  assert (Hndl : NoDup listed.*1).
  { unfold listed. rewrite Hfilter.
    change (NoDup (JSMap.keys (map (fun kv => (kv.1, Server.summarize kv.2))
              (List.filter (fun kv => negb (String.eqb kv.1 "__proto__"))
                 (Server.roomStats st))))).
    unfold JSMap.keys. rewrite map_map. simpl.
    change (NoDup (JSMap.keys (List.filter
              (fun kv => negb (String.eqb kv.1 "__proto__"))
              (Server.roomStats st)))).
    rewrite JSMap_filter_keys.
    eapply sublist_NoDup; [exact Hnd'|apply List_filter_sublist]. }
  split; [|split; [|split]].
  - rewrite Er, Hget. by rewrite String.eqb_refl.
  - intros roomId Hne. rewrite Er, Hget.
    apply String.eqb_neq in Hne. rewrite Hne. simpl.
    rewrite <- Hstats. by destruct (JSMap.get roomId (Server.roomStats st)).
  - rewrite Er, map_size_list_to_map by done.
    unfold g, Server.get_stats, JSMap.size. cbn [Server.activeRooms].
    unfold listed. rewrite Hfilter, length_map.
    assert (Hlen : length (Server.queues st) = length (Server.roomStats st)).
    { rewrite <- (length_map fst (Server.queues st)),
        <- (length_map fst (Server.roomStats st)).
      change (length (JSMap.keys (Server.queues st))
              = length (JSMap.keys (Server.roomStats st))). by rewrite Hk. }
    rewrite Hlen, <- (length_filter_key "__proto__" (Server.roomStats st)) by done.
    f_equal.
    pose proof (Hstats "__proto__") as H.
    destruct (JSMap.get "__proto__" (Server.roomStats st)),
             (JSMap.get "__proto__" (Server.queues st)); done.
  - rewrite Er. rewrite (map_to_list_to_map listed Hndl).
    unfold g, Server.get_stats. cbn [Server.totalQueued].
    rewrite totalQueued_sum. cbn [Nat.add].
    assert (Hpair : Forall2 (fun q r => Server.queueLength r = length q)
                      (JSMap.values (Server.queues st))
                      (JSMap.values (Server.roomStats st))).
    { apply values_Forall2; [done|done|]. intros k q Hg.
      by destruct (Hrooms k q Hg) as (_ & _ & _ & ?). }
    assert (Hsum : sum_list_with length (JSMap.values (Server.queues st))
                   = sum_list_with (fun kv => Server.queueLength kv.2)
                       (Server.roomStats st)).
    { unfold JSMap.values in Hpair. clear -Hpair.
      revert Hpair. generalize (Server.queues st) (Server.roomStats st).
      intros qs rs. revert rs.
      induction qs as [|[k q] qs IH]; intros [|[k' r] rs] H; simpl in *;
        try done; try (by inversion H).
      apply Forall2_cons in H as [E H]. by rewrite E, (IH rs). }
    rewrite Hsum, <- (sum_filter_key Server.queueLength "__proto__") by done.
    f_equal.
    + unfold listed. rewrite Hfilter.
      generalize (List.filter (fun kv : string * Server.RoomStats =>
                                 negb (String.eqb kv.1 "__proto__"))
                    (Server.roomStats st)).
      intros l. induction l as [|[k r] l IH]; simpl; [done|]. by rewrite IH.
    + unfold Server.room_queue. pose proof (Hstats "__proto__") as H.
      destruct (JSMap.get "__proto__" (Server.roomStats st)),
               (JSMap.get "__proto__" (Server.queues st)); simpl in *;
        congruence.
Qed.

(** ** The listing of a room *)

Lemma take_shown {A : Type} (n : nat) (l : list A) :
  (exists rest, l = take n l ++ rest) /\
  length (take n l) = Nat.min n (length l).
Proof.
  split; [exists (drop n l); by rewrite take_drop|]. apply length_take.
Qed.

Lemma slice_prompt_shown (p shown : Server.Value) :
  Server.slice_prompt p = Some shown -> shown_of p shown.
Proof.
  destruct p as [| |units|items|]; unfold Server.slice_prompt; intros H;
    try discriminate; injection H as <-; unfold shown_of;
    first [exact I | apply take_shown].
Qed.

Lemma list_entry_None (e : Server.Entry) :
  Server.list_entry e = None <-> unsliceable e.
Proof.
  unfold Server.list_entry, unsliceable.
  destruct (Server.prompt (Server.task e)); simpl; split; done.
Qed.

(** But for the clean-up, the queue of a room only grows, at its end. *)
Lemma room_queue_grows (e : Server.Event) (st : Server.State) (roomId : string) :
  Server.consistent st -> not_cleanup e ->
  Server.room_queue roomId st `prefix_of` Server.room_queue roomId (Server.handle e st).
Proof.
  intros Hst He.
  assert (Hadd : forall now room t,
            Server.room_queue roomId st
            `prefix_of` Server.room_queue roomId
                          (snd (Server.addToQueue now room t st))).
  { intros now room t.
    destruct (addToQueue_cases now room t st Hst) as [[_ ->]|(_ & _ & Eq & _)];
      [done|].
    unfold Server.room_queue at 2. rewrite Eq.
    destruct (decide (roomId = room)) as [->|Hne].
    - rewrite JSMap_get_set_eq. simpl. by apply prefix_app_r.
    - by rewrite JSMap_get_set_ne. }
  destruct e as [now room body|now room t|now]; simpl; [|apply Hadd|done].
  unfold Server.post_queue. destruct body as [t|]; [|done].
  destruct (Server.id t) as [taskId|]; [|done].
  destruct (String.eqb taskId ""); [done|]. apply Hadd.
Qed.

Lemma room_queue_run_grows (more : list Server.Event) (st : Server.State)
    (roomId : string) :
  Server.consistent st -> Forall not_cleanup more ->
  Server.room_queue roomId st
  `prefix_of` Server.room_queue roomId (Server.run more st).
Proof.
  revert st. induction more as [|e more IH]; intros st Hst Hmore; [done|].
  apply Forall_cons_1 in Hmore as [He Hmore]. simpl.
  etrans; [by apply room_queue_grows|].
  apply IH; [by apply consistent_handle|done].
Qed.

(** X16.  [GET /api/queue/:roomId] answers with status 500 when a task of
    the room has a prompt that is a number, a boolean or an object: such a
    prompt has no [slice], and [POST] accepted it.  Since a queue only
    grows until the room is cleaned up, the listing of that room then
    fails for every later request up to the clean-up.  Otherwise the
    answer lists the tasks of the room in queue order, one line per task,
    each with status queued and with its prompt cut to the first 100 code
    units of a string or items of an array (a shorter one is shown whole,
    an absent or null one is shown as absent), together with the room's
    statistics; a room has no statistics exactly when its listing is
    empty. *)
Theorem X16_listing_of_a_room (events : list Server.Event) (roomId : string) :
  let st := Server.run events Server.initial in
  let queue := Server.room_queue roomId st in
  (Exists unsliceable queue ->
   forall more, Forall not_cleanup more ->
     Server.get_queue roomId (Server.run more st) = Server.InternalError) /\
  (Forall (fun e => ~ unsliceable e) queue ->
   exists listing,
     Server.get_queue roomId st
     = Server.Listing listing (JSMap.get roomId (Server.roomStats st)) /\
     map Server.listed_id listing = map Server.entry_id queue /\
     Forall (fun l => Server.listed_status l = "queued") listing /\
     Forall2 (fun e l => shown_of (Server.prompt (Server.task e))
                           (Server.listed_prompt l)) queue listing /\
     (JSMap.get roomId (Server.roomStats st) = None <-> listing = [])).
Proof.
  intros st queue.
  pose proof (consistent_run events) as Hst. fold st in Hst.
  split.
  - intros Hex more Hmore. unfold Server.get_queue.
    assert (E : mapM Server.list_entry
                  (Server.room_queue roomId (Server.run more st)) = None).
    { apply mapM_None.
      destruct (room_queue_run_grows more st roomId Hst Hmore) as [rest ->].
      apply Exists_app. left. fold queue.
      eapply Exists_impl; [exact Hex|]. intros e. apply list_entry_None. }
    by rewrite E.
  - intros Hall. unfold Server.get_queue. fold queue.
    destruct (mapM Server.list_entry queue) as [listing|] eqn:E.
    2:{ apply mapM_None in E. apply Exists_exists in E as (e & Hin & He).
        rewrite Forall_forall in Hall. destruct (Hall e Hin).
        by apply list_entry_None. }
    exists listing. split; [done|]. apply mapM_Some in E.
    destruct Hst as (Hk & Hnd & Hrooms).
    assert (Hq : Forall (fun e => Server.serverStatus e = "queued") queue).
    { subst queue. unfold Server.room_queue.
      destruct (JSMap.get roomId (Server.queues st)) as [q|] eqn:Hq;
        [|constructor].
      by destruct (Hrooms roomId q Hq) as (_ & _ & ? & _). }
    split; [|split; [|split]].
    + clear -E. induction E as [|e l q ls He _ IH]; simpl; [done|].
      rewrite IH. f_equal. unfold Server.list_entry in He.
      destruct (Server.slice_prompt _); [|done]. by injection He as <-.
    + clear -E Hq. induction E as [|e l q ls He _ IH]; [constructor|].
      apply Forall_cons_1 in Hq as [Hq1 Hq2]. constructor; [|by apply IH].
      unfold Server.list_entry in He.
      destruct (Server.slice_prompt _); [|done]. by injection He as <-.
    + eapply Forall2_impl; [exact E|]. intros e l He.
      unfold Server.list_entry in He.
      destruct (Server.slice_prompt _) as [shown|] eqn:Es; [|done].
      injection He as <-. by apply slice_prompt_shown.
    + apply Forall2_length in E.
      subst queue. unfold Server.room_queue in E.
      clear Hq.
      destruct (JSMap.get roomId (Server.queues st)) as [q|] eqn:Hg;
        cbn [default] in E.
      * destruct (Hrooms roomId q Hg) as (Hne & _ & _ & stats & -> & _).
        split; [done|]. intros ->. by destruct q.
      * split; [|intros _; apply JSMap_get_None in Hg; rewrite Hk in Hg;
                 by apply JSMap_get_None in Hg].
        intros _. by destruct listing.
Qed.

(** ** The network object *)

Lemma peers_set_Forall (P : string * Network.Peer -> Prop) k v
    (m : JSMap.t Network.Peer) :
  P (k, v) -> Forall P m -> Forall P (JSMap.set k v m).
Proof.
  intros Hv. induction m as [|[k' v'] m IH]; simpl.
  - intros _. by constructor.
  - intros H. apply Forall_cons_1 in H as [H1 H2].
    destruct (String.eqb k' k); constructor; auto.
Qed.

Lemma peers_delete_Forall (P : string * Network.Peer -> Prop) k
    (m : JSMap.t Network.Peer) :
  Forall P m -> Forall P (JSMap.delete k m).
Proof.
  induction m as [|[k' v'] m IH]; simpl; [done|].
  intros H. apply Forall_cons_1 in H as [H1 H2].
  destruct (String.eqb k' k); [done|]. constructor; auto.
Qed.

Lemma peers_get_Forall (P : string * Network.Peer -> Prop) k v
    (m : JSMap.t Network.Peer) :
  Forall P m -> JSMap.get k m = Some v -> P (k, v).
Proof.
  induction m as [|[k' v'] m IH]; simpl; [done|].
  intros H. apply Forall_cons_1 in H as [H1 H2].
  destruct (String.eqb k' k) eqn:E; [|auto].
  intros [= <-]. apply String.eqb_eq in E. by subst.
Qed.

Lemma network_ok_apply op r n :
  network_ok r n ->
  network_ok (Network.last_joined [op] r) (Network.apply op n).
Proof.
  intros (H1 & H2 & H3 & H4 & H5 & H6 & H7 & H8 & H9 & H10 & H11).
  destruct op as [roomId caps| |ev|slot f|k]; simpl.
  - unfold Network.join, Network.leave, network_ok.
    destruct (Network.room n); simpl.
    + repeat split; first [done|constructor|by intros x [= <-]].
    + rewrite (H2 eq_refl).
      repeat split; first [done|constructor|by intros x [= <-]].
  - unfold Network.leave, network_ok. destruct (Network.room n) eqn:E; simpl.
    + repeat split; first [done|constructor].
    + rewrite E. repeat split; done.
  - unfold Network.receive. destruct (Network.room n) as [x|] eqn:E; simpl.
    2:{ unfold network_ok. rewrite E. repeat split; try done. }
    destruct ev as [p|p|t p|res p|pr p|c p|q p|m p]; simpl;
      unfold network_ok; simpl; rewrite ?E;
      try (repeat split; done).
    + repeat split; try done.
      * by apply JSMap_set_NoDup.
      * by apply peers_set_Forall.
    + repeat split; try done.
      * eapply sublist_NoDup; [exact H3|apply JSMap_delete_keys_sublist].
      * by apply peers_delete_Forall.
    + destruct (JSMap.get p (Network.peers n)) as [peer|] eqn:Hg; simpl;
        rewrite ?E; repeat split; try done.
      * by apply JSMap_set_NoDup.
      * apply peers_set_Forall; [|done].
        by destruct (peers_get_Forall _ _ _ _ H4 Hg).
  - destruct slot; unfold network_ok; simpl; repeat split; done.
  - unfold Network.announce. destruct (Network.announcements n !! k); simpl;
      unfold network_ok; simpl; repeat split; done.
Qed.

Lemma last_joined_app ops ops' r :
  Network.last_joined (ops ++ ops') r
  = Network.last_joined ops' (Network.last_joined ops r).
Proof.
  revert r. induction ops as [|op ops IH]; intros r; simpl; [done|].
  destruct op; apply IH.
Qed.

Lemma network_ok_run ops r n :
  network_ok r n -> network_ok (Network.last_joined ops r) (Network.run ops n).
Proof.
  revert r n. induction ops as [|op ops IH]; intros r n H; [done|].
  change (op :: ops) with ([op] ++ ops). rewrite last_joined_app.
  simpl Network.run. apply IH. by apply network_ok_apply.
Qed.

(** X17.  Whatever is done to a network object (joining, leaving, events
    of the room, registrations, the announcement timer): it says it is
    connected exactly when a room is joined; outside a room it knows no
    peer; it holds one entry per peer id, filed under that id with status
    connected; and its send functions are those of the room joined last --
    none before the first join, and still those of a room that has been
    left, since [leave] does not reset them: [broadcastTask] after [leave]
    is still handed to the send function of the left room. *)
Theorem X17_network_object_invariants (ops : list Network.Op) :
  let n := Network.run ops Network.new_network in
  let r := Network.last_joined ops None in
  Network.isConnected n = isSome (Network.room n) /\
  (Network.room n = None -> Network.getPeers n = []) /\
  NoDup (JSMap.keys (Network.peers n)) /\
  (forall k p, JSMap.get k (Network.peers n) = Some p ->
               Network.peer_id p = k /\ Network.peer_status p = "connected") /\
  (forall x, Network.room n = Some x -> r = Some x) /\
  Network.sendTask n = r /\
  (forall workerTask targets,
      Network.broadcastTask workerTask targets (Network.leave n)
      = Network.broadcastTask workerTask targets n) /\
  (forall workerTask, r = None -> Network.broadcastTask workerTask None n = []).
Proof.
  intros n r.
  destruct (network_ok_run ops None Network.new_network)
    as (H1 & H2 & H3 & H4 & H5 & H6 & _).
  { unfold network_ok. simpl. repeat split; try done; constructor. }
  fold n r in H1, H2, H3, H4, H5, H6.
  split; [done|]. split.
  { intros E. unfold Network.getPeers. by rewrite (H2 E). }
  split; [done|]. split.
  { intros k p Hg. by destruct (peers_get_Forall _ _ _ _ H4 Hg). }
  split; [done|]. split; [done|]. split.
  - intros wt targets. unfold Network.broadcastTask, Network.leave.
    by destruct (Network.room n).
  - intros wt E. unfold Network.broadcastTask. by rewrite H6, E.
Qed.

(** ** The page between the network and the coordinator *)

Lemma receive_slots ev n :
  let n' := (Network.receive ev n).1.1 in
  Network.onPeerJoinCallback n' = Network.onPeerJoinCallback n /\
  Network.onPeerLeaveCallback n' = Network.onPeerLeaveCallback n /\
  Network.onCapabilitiesCallback n' = Network.onCapabilitiesCallback n.
Proof.
  unfold Network.receive. destruct (Network.room n); [|done].
  destruct ev; simpl; try done. by destruct (JSMap.get _ _).
Qed.

Lemma receive_subscriber ev n :
  about_peers ev -> page_listens n ->
  (Network.receive ev n).1.2 = None \/
  (Network.receive ev n).1.2 = Some Network.OfPage.
Proof.
  intros He (H1 & H2 & H3). unfold Network.receive.
  destruct (Network.room n); [|by left].
  destruct ev; simpl; try done; by right.
Qed.

Lemma step_page_listens e a :
  (Page.isConnected a = true -> page_listens (Page.network a)) ->
  Page.isConnected (Page.step e a) = true ->
  page_listens (Page.network (Page.step e a)).
Proof.
  intros H. destruct e as [roomId|outcome|now ev|now rnd p np m|i now k|k];
    simpl.
  - unfold Page.toggleConnection. destruct (Page.connecting a); [done|].
    destruct (Page.isConnected a) eqn:Ec; [by unfold Page.disconnect|].
    unfold Page.connect. destruct (String.eqb roomId ""); [by rewrite Ec|].
    simpl. unfold Page.with_coordinator. simpl. rewrite lookup_app_r by done.
    rewrite Nat.sub_diag. simpl.
    destruct (Page.backendAvailable a); simpl; [by rewrite Ec|done].
  - unfold Page.backend_answered. by destruct (Page.connecting a).
  - destruct (receive_slots ev (Page.network a)) as (E1 & E2 & E3).
    assert (Hd : forall f a0, Page.isConnected (Page.deliver now ev f a0)
                              = Page.isConnected a0 /\
                              Page.network (Page.deliver now ev f a0)
                              = Page.network a0).
    { intros f a0. unfold Page.deliver. destruct f as [[i|]|]; [| |done].
      - by repeat case_match.
      - by destruct ev. }
    match goal with |- Page.isConnected (Page.deliver now ev ?f ?a0) = true -> _ =>
      destruct (Hd f a0) as [-> ->] end.
    simpl. intros Hc. destruct (H Hc) as (? & ? & ?).
    unfold page_listens. by rewrite E1, E2, E3.
  - destruct (Page.the_coordinator a); [|done].
    unfold Page.with_coordinator. by repeat case_match.
  - by destruct (Page.coordinators a !! i).
  - unfold Network.announce. simpl.
    destruct (Network.announcements _ !! k); simpl; [|done].
    intros Hc. by destruct (H Hc) as (? & ? & ?).
Qed.

Lemma run_page_listens events a :
  (Page.isConnected a = true -> page_listens (Page.network a)) ->
  Page.isConnected (Page.run events a) = true ->
  page_listens (Page.network (Page.run events a)).
Proof.
  revert a. induction events as [|e events IH]; intros a H; [done|].
  simpl. apply IH. by apply step_page_listens.
Qed.

(** X18.  Once [connect()] has finished, the page sits in the network's
    slots for peer join, peer leave and capabilities: it registered its
    functions after the coordinator's constructor did, and a slot holds
    one function.  So from then on an event of the room about a peer
    joining, leaving or announcing its capabilities leaves every
    coordinator exactly as it is: no worker is registered, and a departure
    never reaches [_handleWorkerDisconnect]. *)
Theorem X18_page_takes_over_the_peer_events
    (self : string) (capabilities : Capabilities) (backend : bool)
    (events : list Page.PageEvent) (now : Z) (ev : Network.RoomEvent) :
  let a := Page.run events (Page.new_page self capabilities backend) in
  Page.isConnected a = true ->
  about_peers ev ->
  page_listens (Page.network a) /\
  Page.coordinators (Page.step (Page.FromRoom now ev) a) = Page.coordinators a.
Proof.
  intros a Hc Hev.
  assert (Hl : page_listens (Page.network a)).
  { apply run_page_listens; [|done]. done. }
  split; [done|]. simpl.
  destruct (receive_subscriber ev (Page.network a) Hev Hl) as [->| ->]; simpl.
  - done.
  - by destruct ev.
Qed.

(** ** A page without backend *)

Lemma acts_workers_empty E D s s' :
  acts E D s s' -> workers s = JSMap.empty -> workers s' = JSMap.empty.
Proof.
  induction 1 as [|s1 s2 s3 H1 _ IH]; [done|]. intros H. apply IH.
  destruct H1 as [e s1 He|k cid w s1 Hg|k s1 Hk|s1 s2 Hws Htr]; simpl.
  - done.
  - by rewrite H in Hg.
  - by rewrite H.
  - by rewrite Hws.
Qed.

Lemma handle_workers_empty e s :
  (forall c p, e <> NetCapabilities c p) ->
  workers s = JSMap.empty -> workers (handle e s) = JSMap.empty.
Proof.
  intros He Hw.
  assert (Hbody : forall D s0 s', workers s0 = JSMap.empty ->
            acts scheduling_effect D s0 s' -> workers s' = JSMap.empty).
  { intros D s0 s' E H. by eapply acts_workers_empty. }
  destruct e as [now rnd text neg opts|now task peerId|now result peerId
                |progress peerId|capabilities peerId|queueData peerId
                |now peerId|now k|capabilities|p' c q|outcome base];
    cbn [handle].
  - destruct (addTask_front now rnd text neg opts s) as (s1 & -> & E & _).
    apply (Hbody (fun _ => False) s1); [congruence|].
    apply _processNextTask_acts0.
  - unfold _handleIncomingTask. destruct (String.eqb _ "process_chunk").
    + destruct (wire_chunk task) as [chunk|]; [|done].
      apply (Hbody (fun _ => False) (set_nextOid (S (nextOid s)) s)); [done|].
      apply _processChunkLocally_loop_acts;
        [intros; apply _processNextTask_acts0|apply rtc_refl].
    + destruct (String.eqb _ "generate"); [|done].
      match goal with |- context [_processNextTask now ?s1] =>
        apply (Hbody (fun _ => False) s1); [done|] end.
      apply _processNextTask_acts0.
  - apply (Hbody (fun _ => False) s); [done|].
    apply _handleResult_acts; [intros; apply _processNextTask_acts0|apply rtc_refl].
  - unfold _updateWorkerProgress. rewrite Hw. simpl.
    by destruct (_ && _).
  - by destruct (He capabilities peerId).
  - unfold _syncQueue.
    destruct (_syncQueue_loop_frame (default [] (tasks queueData)) s)
      as (_ & E & _).
    destruct (onQueueChangeCallback _); simpl; congruence.
  - apply (Hbody (eq peerId) s); [done|].
    apply _handleWorkerDisconnect_acts;
      [intros; apply _processNextTask_acts0|done|apply rtc_refl].
  - unfold resume. destruct (pending s !! k) as [frame|]; [|done].
    match goal with |- context [set_pending ?pp s] =>
      apply (Hbody (fun _ => False) (set_pending pp s)); [done|] end.
    destruct frame.
    + apply _processLocally_loop_acts;
        [intros; apply _processNextTask_acts0|apply rtc_refl].
    + apply _processChunkLocally_loop_acts;
        [intros; apply _processNextTask_acts0|apply rtc_refl].
  - done.
  - done.
  - unfold checkBackend. by destruct outcome as [[]|].
Qed.

Lemma Forall_insert_workers (cs : list Coordinator) i c :
  Forall (fun c => workers c = JSMap.empty) cs ->
  workers c = JSMap.empty ->
  Forall (fun c => workers c = JSMap.empty) (<[i := c]> cs).
Proof. intros H Hc. by apply Forall_insert. Qed.

Lemma step_alone e a : alone a -> alone (Page.step e a).
Proof.
  intros (Hb & Hcn & Hs & Hw).
  destruct e as [roomId|outcome|now ev|now rnd p np m|i now k|k]; simpl.
  - unfold Page.toggleConnection. rewrite Hcn.
    destruct (Page.isConnected a).
    + unfold alone. simpl. repeat split; try done.
      unfold capabilities_not_to_coordinator, Network.leave in *.
      by destruct (Network.room _).
    + unfold Page.connect. destruct (String.eqb roomId ""); [done|].
      simpl. unfold Page.with_coordinator. simpl.
      rewrite lookup_app_r by done. rewrite Nat.sub_diag. simpl. rewrite Hb.
      unfold alone. simpl. repeat split; try done; [by right|].
      apply Forall_insert_workers; [|done].
      apply Forall_app. split; [done|]. by repeat constructor.
  - unfold Page.backend_answered. by rewrite Hcn.
  - destruct (receive_slots ev (Page.network a)) as (_ & _ & E3).
    set (r := Network.receive ev (Page.network a)) in *.
    assert (Hf : r.1.2 = None \/ r.1.2 = Some Network.OfPage \/
                 (exists i, r.1.2 = Some (Network.OfCoordinator i) /\
                            forall e, Page.coordinator_event now ev = Some e ->
                                      forall c p, e <> NetCapabilities c p)).
    { unfold r, Network.receive. destruct (Network.room _); [|by left].
      destruct ev as [p0|p0|t p0|res p0|pr p0|c0 p0|q0 p0|m0 p0]; simpl;
        try (match goal with |- context [?slot (Page.network a)] =>
               destruct (slot (Page.network a)) as [[i|]|] end;
             [right; right; exists i; split; [done|]; by intros e [= <-]
             |by right; left|by left]).
      destruct Hs as [-> | ->]; [by left|by right; left]. }
    assert (Hbase : alone (Page.send r.2 (Page.set_network r.1.1 a))).
    { unfold alone, capabilities_not_to_coordinator. simpl.
      fold r in E3. rewrite E3. done. }
    destruct Hf as [-> | [-> | (i & -> & He)]]; simpl.
    + done.
    + destruct ev; try done;
        unfold alone, capabilities_not_to_coordinator; simpl;
        fold r in E3; rewrite E3; done.
    + destruct (Page.coordinators a !! i) as [c|] eqn:Hi; [|done].
      destruct (Page.coordinator_event now ev) as [e|] eqn:Hev; [|done].
      unfold alone, capabilities_not_to_coordinator. simpl.
      fold r in E3. rewrite E3. repeat split; try done.
      apply Forall_insert_workers; [done|].
      apply handle_workers_empty; [by apply He|].
      rewrite Forall_lookup in Hw. by apply (Hw i c).
  - unfold Page.the_coordinator, Page.with_coordinator.
    destruct (Page.coordinator a) as [i|]; [|done].
    destruct (Page.coordinators a !! i) as [c|] eqn:Hi; [|done].
    unfold alone. simpl. repeat split; try done.
    apply Forall_insert_workers; [done|].
    assert (Hc : workers c = JSMap.empty).
    { rewrite Forall_lookup in Hw. by apply (Hw i c). }
    unfold startGeneration. destruct (negb _); [done|].
    destruct (String.eqb p ""); [done|]. cbn [snd].
    match goal with |- workers (snd (addTask ?n ?r ?t ?ng ?o c)) = _ =>
      change (workers (handle (AddTask n r t ng o) c) = JSMap.empty) end.
    by apply handle_workers_empty.
  - destruct (Page.coordinators a !! i) as [c|] eqn:Hi; [|done].
    unfold alone. simpl. repeat split; try done.
    apply Forall_insert_workers; [done|].
    apply (handle_workers_empty (Tick now k)); [done|].
    rewrite Forall_lookup in Hw. by apply (Hw i c).
  - unfold Network.announce.
    destruct (Network.announcements _ !! k); simpl; done.
Qed.

(** X19.  On a page that found no backend, no coordinator ever registers
    a worker.  [connect()] then waits for nothing outside the page, so
    the page has replaced the coordinator's capabilities handler before
    any announcement can arrive; whatever happens afterwards, the registry of
    every coordinator is empty and its only candidate is the local worker:
    no chunk is ever sent to a peer. *)
Theorem X19_without_backend_no_worker_is_registered
    (self : string) (capabilities : Capabilities)
    (events : list Page.PageEvent) :
  let a := Page.run events (Page.new_page self capabilities false) in
  Forall (fun c => workers c = JSMap.empty /\
                   Forall (fun x => isLocal x = true) (_getAvailableWorkers c))
    (Page.coordinators a).
Proof.
  intros a.
  assert (H : alone a).
  { unfold a, Page.run.
    assert (H0 : alone (Page.new_page self capabilities false)).
    { unfold alone. simpl. repeat split; first [done|by left|constructor]. }
    revert H0. generalize (Page.new_page self capabilities false).
    induction events as [|e events IH]; intros a0 H0; simpl; [done|].
    apply IH. by apply step_alone. }
  destruct H as (_ & _ & _ & Hw).
  eapply Forall_impl; [exact Hw|]. intros c Hc. split; [done|].
  unfold _getAvailableWorkers. rewrite Hc. simpl. rewrite app_nil_r.
  destruct (localWorker c) as [lw|]; [|constructor].
  destruct (hasGPU _); by repeat constructor.
Qed.

(** ** The log of the page *)

Lemma trim_log_drop turns children :
  (length children <= turns)%nat ->
  Page.trim_log turns children = drop (length children - 100) children.
Proof.
  revert children. induction turns as [|turns IH]; intros children H; simpl.
  - destruct children; [done|simpl in H; lia].
  - destruct (Nat.ltb 100 (length children)) eqn:E.
    + apply Nat.ltb_lt in E. destruct children as [|x children]; [simpl in E; lia|].
      cbn [tail length] in *. rewrite IH by lia.
      replace (S (length children) - 100)%nat
        with (S (length children - 100)) by lia. done.
    + apply Nat.ltb_ge in E.
      replace (length children - 100)%nat with 0%nat by lia. done.
Qed.

(** X20.  The log of the page never shows more than 100 lines: [_log]
    appends the new line and then drops lines from the top until at most
    100 are left, so what is shown are the last 100 lines of the old
    content followed by the new line, the new line last; the loop needs no
    more turns than there are lines. *)
Theorem X20_log_keeps_the_last_100_lines
    (timestamp type message : string) (children : list Page.LogEntry) :
  let entry := {| Page.className := "log-entry " +:+ type;
                  Page.textContent := "[" +:+ timestamp +:+ "] " +:+ message |} in
  let r := Page._log timestamp type message children in
  (length r <= 100)%nat /\
  length r = Nat.min 100 (S (length children)) /\
  r = drop (S (length children) - 100) (children ++ [entry]) /\
  last r = Some entry /\
  (forall turns, (S (length children) <= turns)%nat ->
                 Page.trim_log turns (children ++ [entry]) = r).
Proof.
  intros entry r.
  assert (El : length (children ++ [entry]) = S (length children)).
  { rewrite length_app. simpl. lia. }
  assert (Er : r = drop (S (length children) - 100) (children ++ [entry])).
  { unfold r, Page._log. fold entry. rewrite trim_log_drop by done.
    by rewrite El. }
  assert (Hlen : length r = Nat.min 100 (S (length children))).
  { rewrite Er, length_drop, El. lia. }
  split; [lia|]. split; [done|]. split; [done|]. split.
  - rewrite Er. destruct (decide (length children < 100)%nat) as [Hlt|Hge].
    + replace (S (length children) - 100)%nat with 0%nat by lia. simpl.
      apply last_snoc.
    + rewrite drop_app_le by lia. apply last_snoc.
  - intros turns Ht. rewrite trim_log_drop by lia. by rewrite El, Er.
Qed.

(** ** A chunk from its first timer to its last *)

Lemma chunk_progress_events_app taskId chunk totalSteps subscribed self i n m :
  chunk_progress_events taskId chunk totalSteps subscribed self i (n + m)
  = chunk_progress_events taskId chunk totalSteps subscribed self i n
    ++ chunk_progress_events taskId chunk totalSteps subscribed self
         (i + Z.of_nat n) m.
Proof.
  revert i. induction n as [|n IH]; intros i.
  - simpl. by rewrite Z.add_0_r.
  - cbn [Nat.add chunk_progress_events]. rewrite IH, <- !app_assoc.
    do 3 f_equal. f_equal. lia.
Qed.

(** The timers of a chunk that has steps left: each reports the next step
    and suspends again. *)
Lemma chunk_ticks workerTask owner o nows :
  options (wt_task workerTask) = Some o ->
  forall s i,
    pending s = [ProcessChunkLocally workerTask owner i] ->
    i + 1 + Z.of_nat (length nows) < chunk_size (wt_chunk workerTask) + 1 ->
    run (ticks nows) s
    = set_pending [ProcessChunkLocally workerTask owner (i + Z.of_nat (length nows))]
        (set_trace
           (trace s ++
            chunk_progress_events (task_id (wt_task workerTask))
              (wt_chunk workerTask) (steps o) (onProgressCallback s)
              (selfId s) (i + 1) (length nows)) s).
Proof.
  intros Ho. induction nows as [|now nows IH]; intros s i Hp Hi.
  - simpl. rewrite Z.add_0_r, app_nil_r. destruct s. simpl in *. by subst.
  - simpl length in *. unfold ticks, run in *. simpl.
    assert (E : resume now 0 s
                = set_pending [ProcessChunkLocally workerTask owner (i + 1)]
                    (set_trace
                       (trace s ++
                        chunk_progress_events (task_id (wt_task workerTask))
                          (wt_chunk workerTask) (steps o) (onProgressCallback s)
                          (selfId s) (i + 1) 1) s)).
    { unfold resume. rewrite Hp. simpl.
      rewrite (_processChunkLocally_loop_suspend _ _ _ _ _ _ o) by (done || lia).
      simpl. unfold set_pending, set_trace. simpl. by rewrite ?app_nil_r. }
    rewrite E. rewrite (IH _ (i + 1)); [|done|lia].
    unfold set_pending, set_trace. simpl.
    rewrite <- !app_assoc. simpl.
    replace (i + 1 + Z.of_nat (length nows))
      with (i + Z.pos (Pos.of_succ_nat (length nows))) by lia.
    done.
Qed.

(** X21.  A chunk a peer sends for processing is worked through, and its
    result goes nowhere.  An idle coordinator (no active job, nothing
    suspended) that receives a [process_chunk] task reports one step at
    once and one per timer, to its progress subscriber and to the room;
    after the last timer it is exactly as it was before the task came,
    but for these reports in the trace and one identity used: the result
    it builds is handed to its own [_handleResult], which ignores it, and
    nothing is sent back to the peer that asked. *)
Theorem X21_result_of_a_remote_chunk_is_dropped
    (s : Coordinator) (task : WireTask) (chunk : Chunk) (o : TaskOptions)
    (peerId : string) (now : Z) (nows : list Z) (last_now : Z) :
  currentTask s = None ->
  pending s = [] ->
  wire_type task = "process_chunk" ->
  wire_chunk task = Some chunk ->
  wire_options task = Some o ->
  1 + Z.of_nat (length nows) = chunk_size chunk ->
  run (NetTask now task peerId :: ticks (nows ++ [last_now])) s
  = set_trace
      (trace s ++
       chunk_progress_events (wire_id task) chunk (steps o)
         (onProgressCallback s) (selfId s) 0 (S (length nows)))
      (set_nextOid (S (nextOid s)) s).
Proof.
  intros Hc Hp Ht Hch Ho Hn.
  set (wt := {| wt_task := of_wire (nextOid s) None task; wt_chunk := chunk |}).
  assert (E0 : handle (NetTask now task peerId) s
               = set_pending [ProcessChunkLocally wt None 0]
                   (set_trace
                      (trace s ++
                       chunk_progress_events (wire_id task) chunk (steps o)
                         (onProgressCallback s) (selfId s) 0 1)
                      (set_nextOid (S (nextOid s)) s))).
  { cbn [handle]. unfold _handleIncomingTask. rewrite Ht, Hch. simpl.
    unfold _processChunkLocally, Body._processChunkLocally. fold wt.
    rewrite (_processChunkLocally_loop_suspend _ _ _ _ _ _ o) by (done || (simpl; lia)).
    simpl. unfold set_pending, set_trace, set_nextOid. simpl.
    by rewrite Hp, ?app_nil_r. }
  unfold ticks. rewrite map_app. fold (ticks nows).
  change (run (NetTask now task peerId
               :: ticks nows ++ map (fun now => Tick now 0%nat) [last_now]) s)
    with (run (ticks nows ++ [Tick last_now 0%nat]) (handle (NetTask now task peerId) s)).
  rewrite run_app, E0.
  rewrite (chunk_ticks wt None o nows Ho _ 0) by (done || (simpl; lia)).
  simpl. unfold resume. simpl.
  unfold Body._processChunkLocally_loop. simpl.
  assert (E : (0 + Z.of_nat (length nows) + 1 <? endStep chunk - startStep chunk) = false).
  { apply Z.ltb_ge. unfold chunk_size in Hn. lia. }
  rewrite E. unfold Body._handleResult. simpl. rewrite Hc.
  unfold set_trace, set_nextOid, set_pending. simpl. f_equal.
  - by rewrite Hp.
  - by rewrite <- !app_assoc.
Qed.

(** ** A job with the local worker as its only candidate *)

Lemma ceil_div_one (totalSteps : Z) : ceil_div totalSteps 1 = totalSteps.
Proof. unfold ceil_div. change (Z.of_nat 1) with 1. rewrite Z.div_1_r. lia. Qed.

Lemma update_task_current o f s t :
  currentTask s = Some t -> oid t = o ->
  update_task o f s = set_currentTask (Some (f t)) s.
Proof.
  intros Hc Ho. unfold update_task, has_oid. rewrite Hc, Ho.
  by rewrite Nat.eqb_refl.
Qed.

Lemma deref_current task s t :
  currentTask s = Some t -> oid t = oid task -> deref task s = t.
Proof.
  intros Hc Ho. unfold deref, lookup_task, has_oid. rewrite Hc, Ho.
  by rewrite Nat.eqb_refl.
Qed.

Lemma take_alone now s job o self :
  currentTask s = None -> queue s = [job] ->
  _getAvailableWorkers s = [self] -> isLocal self = true ->
  options job = Some o -> 1 <= steps o ->
  let chunk := new_chunk (task_id job) (steps o) (steps o) 0 in
  let t := Body.push_chunk chunk self
             (set_assignedWorkers (Some JSMap.empty)
                (set_chunks (Some []) (set_status "processing" job))) in
  _processNextTask now s
  = set_pending
      (pending s ++
       [ProcessChunkLocally {| wt_task := t; wt_chunk := chunk |}
          (Some (oid job)) 0])
      (set_trace
         (trace s ++
          chunk_progress_events (task_id job) chunk (steps o)
            (onProgressCallback s) (selfId s) 0 1)
         (set_currentTask (Some t) (set_queue [] s))).
Proof.
  intros Hc Hq Hw Hl Ho Hn chunk t.
  rewrite _processNextTask_unfold. unfold Body._processNextTask.
  rewrite Hc, Hq.
  rewrite (_getAvailableWorkers_ext s) by done. rewrite Hw.
  cbn [length Nat.eqb]. unfold Body._distributeWork.
  cbn [options set_status length]. rewrite Ho. rewrite ceil_div_one.
  rewrite (update_task_current _ _ _ (set_status "processing" job)) by done.
  cbn [Body._distributeWork_loop]. change (Z.of_nat 0 * steps o) with 0.
  assert (E : (steps o <=? 0) = false) by (apply Z.leb_gt; lia).
  rewrite E, Hl. cbn [task_id set_status oid]. fold chunk.
  rewrite (update_task_current _ _ _
             (set_assignedWorkers (Some JSMap.empty)
                (set_chunks (Some []) (set_status "processing" job)))) by done.
  fold t.
  rewrite (deref_current _ _ t) by done.
  unfold Body._processChunkLocally.
  rewrite (_processChunkLocally_loop_suspend _ _ _ _ _ _ o);
    [|unfold chunk, chunk_size, new_chunk; simpl; lia|done].
  unfold set_pending, set_trace, set_currentTask, set_queue. simpl.
  done.
Qed.

Lemma last_tick_alone now s t chunk i :
  currentTask s = Some t -> queue s = [] ->
  pending s = [ProcessChunkLocally {| wt_task := t; wt_chunk := chunk |}
                 (Some (oid t)) i] ->
  chunks t = Some [chunk] -> results t = Some JSMap.empty ->
  i + 1 = chunk_size chunk ->
  let result := {| result_taskId := task_id t; result_chunkId := chunk_id chunk;
                   result_workerId := selfId s; result_status := "complete" |} in
  let finished :=
    set_completedAt (Some now)
      (set_status "complete"
         (set_results (Some (JSMap.set (chunk_id chunk) result JSMap.empty))
            (mark_chunk (chunk_id chunk) "complete" t))) in
  resume now 0 s
  = set_detached (detached s ++ [finished])
      (set_currentTask None
         (set_trace
            (trace s ++ if onCompleteCallback s then [OnComplete finished] else [])
            (set_pending [] s))).
Proof.
  intros Hc Hq Hp Hch Hr Hi result finished.
  unfold resume. rewrite Hp.
  change ([ProcessChunkLocally {| wt_task := t; wt_chunk := chunk |}
             (Some (oid t)) i] !! 0%nat)
    with (Some (ProcessChunkLocally {| wt_task := t; wt_chunk := chunk |}
                  (Some (oid t)) i)).
  cbn [take drop app].
  unfold Body._processChunkLocally_loop. cbn [wt_chunk wt_task].
  assert (E : (i + 1 <? endStep chunk - startStep chunk) = false).
  { apply Z.ltb_ge. unfold chunk_size in Hi. lia. }
  rewrite E.
  rewrite (update_task_current _ _ _ t) by done.
  unfold Body._handleResult.
  cbn [currentTask set_currentTask set_pending result_taskId task_id mark_chunk set_chunks].
  rewrite String.eqb_refl. cbn [negb].
  change (results (mark_chunk (chunk_id chunk) "complete" t)) with (results t).
  rewrite Hr.
  assert (Em : chunks (mark_chunk (chunk_id chunk) "complete" t)
               = Some [set_chunk_status "complete" chunk]).
  { unfold mark_chunk. cbn [chunks set_chunks]. rewrite Hch.
    cbn [option_map write_chunk_status]. by rewrite String.eqb_refl. }
  rewrite Em. cbn [result_chunkId selfId set_currentTask set_pending].
  fold result.
  change (completedChunks (JSMap.set (chunk_id chunk) result JSMap.empty)) with 1%nat.
  cbn [length Nat.eqb].
  unfold Body._completeTask. cbn [currentTask set_currentTask].
  fold finished.
  cbn [onCompleteCallback set_currentTask set_pending].
  destruct (onCompleteCallback s).
  - rewrite _processNextTask_empty.
    + unfold clear_currentTask, emit. cbn [currentTask set_trace set_currentTask].
      reflexivity.
    + unfold clear_currentTask, emit. cbn [currentTask set_trace set_currentTask].
      exact Hq.
  - rewrite _processNextTask_empty.
    + unfold clear_currentTask. cbn [currentTask set_currentTask].
      unfold set_detached, set_currentTask, set_trace, set_pending.
      cbn [selfId queue currentTask workers localWorker onProgressCallback
           onCompleteCallback onQueueChangeCallback backendUrl backendAvailable
           detached pending nextOid trace].
      by rewrite app_nil_r.
    + unfold clear_currentTask. cbn [currentTask set_currentTask]. exact Hq.
Qed.

(** X22.  A job whose only candidate is the local worker.  On a
    coordinator with nothing active, queued or suspended, whose one
    candidate is the local worker, [addTask] makes the job active with a
    single chunk that covers all its steps and starts that chunk locally.
    The job stays active for all timers but the last; the last timer
    records the chunk's result, which completes the job: it is stamped with
    the clock of that timer, the completion subscriber is called once with
    it, and the coordinator is idle again.  In between there is one
    progress report per step and nothing else. *)
Theorem X22_lone_gpu_worker_completes
    (s : Coordinator) (now : Z) (rnd : string) (prompt : option string)
    (negativePrompt : string) (opts : OptionsArg) (self : Candidate)
    (nows : list Z) (last_now : Z) :
  currentTask s = None -> queue s = [] -> pending s = [] ->
  _getAvailableWorkers s = [self] -> isLocal self = true ->
  1 + Z.of_nat (length nows) = steps (make_options opts) ->
  let job := new_task now rnd prompt negativePrompt opts s in
  let totalSteps := steps (make_options opts) in
  let chunk := new_chunk (task_id job) totalSteps totalSteps 0 in
  let s1 := handle (AddTask now rnd prompt negativePrompt opts) s in
  let s' := run (ticks (nows ++ [last_now])) s1 in
  (startStep chunk = 0 /\ endStep chunk = totalSteps) /\
  (exists t, currentTask s1 = Some t /\ task_id t = task_id job /\
             status t = "processing" /\ chunks t = Some [chunk]) /\
  (forall k, (k <= length nows)%nat ->
             currentTask (run (ticks (take k nows)) s1) = currentTask s1) /\
  currentTask s' = None /\ pending s' = [] /\ queue s' = [] /\
  exists finished,
    detached s' = detached s ++ [finished] /\
    task_id finished = task_id job /\ status finished = "complete" /\
    completedAt finished = Some last_now /\
    chunks finished = Some [set_chunk_status "complete" chunk] /\
    trace s' = trace s ++
      [BroadcastQueueUpdate [project job]] ++
      backend_posts (AddTask now rnd prompt negativePrompt opts) s ++
      (if onQueueChangeCallback s then [OnQueueChange [job]] else []) ++
      chunk_progress_events (task_id job) chunk totalSteps
        (onProgressCallback s) (selfId s) 0 (S (length nows)) ++
      (if onCompleteCallback s then [OnComplete finished] else []).
Proof.
  intros Hc Hq Hp Hw Hl Hn job totalSteps chunk s1 s'.
  unfold s'. clear s'.
  set (o := make_options opts) in *.
  set (t := Body.push_chunk chunk self
              (set_assignedWorkers (Some JSMap.empty)
                 (set_chunks (Some []) (set_status "processing" job)))).
  set (wt := {| wt_task := t; wt_chunk := chunk |}).
  assert (Hsize : chunk_size chunk = totalSteps).
  { unfold chunk_size, chunk, new_chunk. simpl. lia. }
  (* the state at the call of [_processNextTask] in [addTask] *)
  assert (F : exists s0,
             s1 = _processNextTask now s0 /\
             currentTask s0 = None /\ queue s0 = [job] /\ pending s0 = [] /\
             selfId s0 = selfId s /\ localWorker s0 = localWorker s /\
             workers s0 = workers s /\
             onProgressCallback s0 = onProgressCallback s /\
             onCompleteCallback s0 = onCompleteCallback s /\
             detached s0 = detached s /\
             trace s0 = trace s ++
               [BroadcastQueueUpdate [project job]] ++
               backend_posts (AddTask now rnd prompt negativePrompt opts) s ++
               (if onQueueChangeCallback s then [OnQueueChange [job]] else [])).
  { unfold s1. cbn [handle]. unfold addTask. cbn [snd]. eexists.
    split; [reflexivity|].
    unfold _notifyBackend, _broadcastQueueUpdate, backend_posts. simpl.
    fold job.
    destruct (backendAvailable s) eqn:Ba; simpl; rewrite ?Ba; simpl;
      [destruct (backendUrl s) as [url|] eqn:Bu; simpl;
       [destruct (String.eqb url "") eqn:Eu; simpl|]|];
      destruct (onQueueChangeCallback s) eqn:Oq; simpl;
      rewrite ?Hc, ?Hq, ?Hp, <- ?app_assoc; repeat split; reflexivity. }
  destruct F as (s0 & E1 & Hc0 & Hq0 & Hp0 & Hid & Hlw & Hws & Hpc & Hcc & Hd0 & Ht0).
  assert (Ho : options job = Some o) by reflexivity.
  assert (Hw0 : _getAvailableWorkers s0 = [self])
    by (by rewrite (_getAvailableWorkers_ext s s0)).
  assert (Hsteps : 1 <= steps o) by (unfold totalSteps in *; lia).
  pose proof (take_alone now s0 job o self Hc0 Hq0 Hw0 Hl Ho Hsteps) as E2.
  cbv zeta in E2. fold totalSteps chunk t wt in E2.
  rewrite Hp0, Hpc, Hid in E2. cbn [app] in E2. rewrite <- E1 in E2.
  clearbody s1.
  assert (Hpc1 : onProgressCallback s1 = onProgressCallback s)
    by (rewrite E2; exact Hpc).
  assert (Hcc1 : onCompleteCallback s1 = onCompleteCallback s)
    by (rewrite E2; exact Hcc).
  assert (Hid1 : selfId s1 = selfId s) by (rewrite E2; exact Hid).
  assert (Hc1 : currentTask s1 = Some t) by (by rewrite E2).
  assert (Hq1 : queue s1 = []) by (by rewrite E2).
  assert (Hp1 : pending s1 = [ProcessChunkLocally wt (Some (oid job)) 0])
    by (by rewrite E2).
  assert (Hd1 : detached s1 = detached s) by (rewrite E2; exact Hd0).
  assert (Ht1 : trace s1 = trace s0 ++
                  chunk_progress_events (task_id job) chunk totalSteps
                    (onProgressCallback s) (selfId s) 0 1)
    by (by rewrite E2).
  clear E1 E2.
  (* the timers but the last *)
  assert (Hmid : forall ns, (length ns <= length nows)%nat ->
            run (ticks ns) s1
            = set_pending
                [ProcessChunkLocally wt (Some (oid job)) (0 + Z.of_nat (length ns))]
                (set_trace
                   (trace s1 ++
                    chunk_progress_events (task_id job) chunk totalSteps
                      (onProgressCallback s) (selfId s) (0 + 1) (length ns)) s1)).
  { intros ns Hns.
    rewrite (chunk_ticks wt (Some (oid job)) o ns Ho s1 0).
    - by rewrite Hpc1, Hid1.
    - exact Hp1.
    - cbn [wt_chunk wt]. rewrite Hsize. unfold totalSteps in *. lia. }
  split. { unfold chunk, new_chunk. simpl. split; lia. }
  split. { exists t. split; [exact Hc1|]. by repeat split. }
  split. { intros k Hk. rewrite Hmid; [done|]. rewrite length_take. lia. }
  (* the last timer *)
  assert (E3 : run (ticks (nows ++ [last_now])) s1
               = resume last_now 0 (run (ticks nows) s1)).
  { unfold ticks. by rewrite map_app, run_app. }
  rewrite E3, (Hmid nows) by done. clear E3.
  set (s2 := set_pending _ _).
  rewrite (last_tick_alone last_now s2 t chunk (0 + Z.of_nat (length nows)));
    [|exact Hc1|exact Hq1|reflexivity|reflexivity|reflexivity|
     rewrite Hsize; unfold totalSteps in *; lia].
  set (finished := set_completedAt _ _).
  split; [reflexivity|]. split; [reflexivity|]. split; [exact Hq1|].
  exists finished.
  split. { cbn [detached set_detached]. unfold s2. cbn [detached set_pending set_trace]. by rewrite Hd1. }
  split; [reflexivity|]. split; [reflexivity|]. split; [reflexivity|].
  split.
  { unfold finished, mark_chunk. cbn [chunks set_completedAt set_status set_results set_chunks].
    change (chunks t) with (Some [chunk]).
    cbn [option_map write_chunk_status]. by rewrite String.eqb_refl. }
  cbn [trace set_detached set_currentTask set_trace]. unfold s2.
  cbn [trace set_pending set_trace onCompleteCallback].
  change (S (length nows)) with (1 + length nows)%nat.
  rewrite (chunk_progress_events_app _ _ _ _ _ 0 1).
  rewrite Hcc1, Ht1, Ht0.
  rewrite <- !app_assoc. reflexivity.
Qed.

(** ** Coordinators of earlier connections *)

Lemma receive_slot_of ev n :
  (Network.receive ev n).1.2 = None \/
  exists slot, (Network.receive ev n).1.2 = slot_of slot n.
Proof.
  unfold Network.receive. destruct (Network.room n); [|by left]. right.
  destruct ev; simpl.
  - by exists Network.SlotPeerJoin.
  - by exists Network.SlotPeerLeave.
  - by exists Network.SlotTask.
  - by exists Network.SlotResult.
  - by exists Network.SlotProgress.
  - by exists Network.SlotCapabilities.
  - by exists Network.SlotQueueUpdate.
  - by exists Network.SlotChunk.
Qed.

Lemma receive_slot_same ev n slot :
  slot_of slot (Network.receive ev n).1.1 = slot_of slot n.
Proof.
  unfold Network.receive. destruct (Network.room n); [|done].
  destruct ev, slot; simpl; try done; by destruct (JSMap.get _ _).
Qed.

Lemma latest_only_ext a a' :
  (forall slot,
      slot_of slot (Page.network a') = slot_of slot (Page.network a) \/
      slot_of slot (Page.network a') = Some Network.OfPage) ->
  length (Page.coordinators a') = length (Page.coordinators a) ->
  Page.coordinator a' = Page.coordinator a \/ Page.coordinator a' = None ->
  latest_only a -> latest_only a'.
Proof.
  intros Hn Hl Hc [H1 H2]. split.
  - intros slot i E. rewrite Hl. apply H1.
    destruct (Hn slot) as [<-|E']; [done|congruence].
  - intros i E. rewrite Hl. apply H2. destruct Hc as [<-|E']; [done|congruence].
Qed.

Lemma join_slot_of roomId capabilities n slot :
  slot_of slot (Network.join roomId capabilities n) = slot_of slot n.
Proof.
  unfold Network.join, Network.leave.
  destruct (Network.room n); by destruct slot.
Qed.

Lemma leave_slot_of n slot :
  slot_of slot (Network.leave n) = slot_of slot n.
Proof. unfold Network.leave. destruct (Network.room n); by destruct slot. Qed.

Lemma latest_only_construct a :
  latest_only a -> latest_only (Page.construct_coordinator a).
Proof.
  intros [H1 H2]. unfold Page.construct_coordinator. split.
  - intros slot i. cbn [Page.network Page.coordinators Page.set_coordinator
                        Page.set_coordinators Page.set_network].
    rewrite length_app. cbn [length].
    destruct slot; cbn; intros E;
      try (injection E as <-; split; [done|lia]).
    by destruct (H1 Network.SlotPeerJoin i E).
  - intros i. cbn. rewrite length_app. cbn [length]. intros [= <-]. lia.
Qed.

Lemma latest_only_with_coordinator f a :
  latest_only a -> latest_only (Page.with_coordinator f a).
Proof.
  intros H. unfold Page.with_coordinator.
  destruct (Page.coordinator a) as [i|]; [|done].
  destruct (Page.coordinators a !! i) as [c|]; [|done].
  eapply latest_only_ext; [| | |exact H]; cbn.
  - by left.
  - by rewrite length_insert.
  - by left.
Qed.

Lemma latest_only_connect_rest a :
  latest_only a -> latest_only (Page.connect_rest a).
Proof.
  intros H. eapply latest_only_ext; [| | |exact H]; cbn.
  - intros slot. destruct slot; cbn; auto.
  - done.
  - by left.
Qed.

Lemma latest_only_step e a : latest_only a -> latest_only (Page.step e a).
Proof.
  intros H.
  destruct e as [roomId|outcome|now ev|now rnd p np m|i now k|k]; simpl.
  - unfold Page.toggleConnection. destruct (Page.connecting a); [done|].
    destruct (Page.isConnected a).
    + eapply latest_only_ext; [| | |exact H]; cbn.
      * intros slot. left. apply leave_slot_of.
      * done.
      * by right.
    + unfold Page.connect. destruct (String.eqb roomId ""); [done|].
      cbv zeta.
      match goal with |- latest_only (if _ then ?x else _) =>
        assert (Hx : latest_only x) end.
      { apply latest_only_with_coordinator, latest_only_construct.
        eapply latest_only_ext; [| | |exact H]; cbn.
        - intros slot. left. apply join_slot_of.
        - done.
        - by left. }
      destruct (Page.backendAvailable _); [done|].
      by apply latest_only_connect_rest.
  - unfold Page.backend_answered. destruct (Page.connecting a); [|done].
    by apply latest_only_connect_rest, latest_only_with_coordinator.
  - assert (H0 : latest_only
                   (Page.send (Network.receive ev (Page.network a)).2
                      (Page.set_network (Network.receive ev (Page.network a)).1.1 a))).
    { eapply latest_only_ext; [| | |exact H]; cbn.
      - intros slot. left. apply receive_slot_same.
      - done.
      - by left. }
    revert H0. generalize (Page.send (Network.receive ev (Page.network a)).2
                  (Page.set_network (Network.receive ev (Page.network a)).1.1 a)).
    generalize ((Network.receive ev (Page.network a)).1.2).
    intros f a0 H0. unfold Page.deliver. destruct f as [[j|]|]; [| |done].
    + destruct (Page.coordinators a0 !! j) as [c|]; [|done].
      destruct (Page.coordinator_event now ev) as [e|]; [|done].
      eapply latest_only_ext; [| | |exact H0]; cbn.
      * by left.
      * by rewrite length_insert.
      * by left.
    + destruct ev; try done;
        (eapply latest_only_ext; [| | |exact H0]; cbn; [by left|done|by left]).
  - destruct (Page.the_coordinator a); [|done].
    by apply latest_only_with_coordinator.
  - destruct (Page.coordinators a !! i) as [c|]; [|done].
    eapply latest_only_ext; [| | |exact H]; cbn.
    + by left.
    + by rewrite length_insert.
    + by left.
  - eapply latest_only_ext; [| | |exact H]; cbn.
    + intros slot. left. unfold Network.announce.
      destruct (Network.announcements _ !! k); [|done]. by destruct slot.
    + done.
    + by left.
Qed.

Lemma latest_only_run events a : latest_only a -> latest_only (Page.run events a).
Proof.
  revert a. induction events as [|e events IH]; intros a H; [done|].
  simpl. by apply IH, latest_only_step.
Qed.

Lemma with_coordinator_earlier f a i :
  latest_only a -> (S i < length (Page.coordinators a))%nat ->
  Page.coordinators (Page.with_coordinator f a) !! i = Page.coordinators a !! i.
Proof.
  intros [_ H2] Hi. unfold Page.with_coordinator.
  destruct (Page.coordinator a) as [j|] eqn:Ej; [|done].
  destruct (Page.coordinators a !! j) as [c|]; [|done]. cbn.
  apply list_lookup_insert_ne. specialize (H2 j eq_refl). lia.
Qed.

(** X23.  A coordinator of an earlier connection is cut off from the
    room and from the page.  At any time the coordinator functions in the
    network's slots are those of the coordinator constructed last, and
    [this.coordinator] is that coordinator or null.  So nothing but its
    own timers changes a coordinator constructed earlier: no event of the
    room, no click, no answer of the backend, no generation request and no
    announcement timer. *)
Theorem X23_earlier_coordinators_are_cut_off
    (self : string) (capabilities : Capabilities) (backend : bool)
    (events : list Page.PageEvent) (e : Page.PageEvent) (i : nat) :
  let a := Page.run events (Page.new_page self capabilities backend) in
  (S i < length (Page.coordinators a))%nat ->
  not_a_timer e ->
  Page.coordinators (Page.step e a) !! i = Page.coordinators a !! i.
Proof.
  intros a Hi He.
  assert (H : latest_only a).
  { apply latest_only_run. split; [|done]. intros slot j. by destruct slot. }
  clearbody a.
  destruct e as [roomId|outcome|now ev|now rnd p np m|j now k|k]; simpl.
  - unfold Page.toggleConnection. destruct (Page.connecting a); [done|].
    destruct (Page.isConnected a); [done|].
    unfold Page.connect. destruct (String.eqb roomId ""); [done|].
    cbv zeta.
    match goal with |- Page.coordinators (if _ then ?x else _) !! _ = _ =>
      assert (Hx : Page.coordinators x !! i = Page.coordinators a !! i) end.
    { rewrite with_coordinator_earlier.
      - cbn. apply lookup_app_l. lia.
      - apply latest_only_construct.
        eapply latest_only_ext; [| | |exact H]; cbn.
        + intros slot. left. apply join_slot_of.
        + done.
        + by left.
      - cbn. rewrite length_app. cbn [length]. lia. }
    by destruct (Page.backendAvailable _).
  - unfold Page.backend_answered. destruct (Page.connecting a); [|done].
    cbn. by apply with_coordinator_earlier.
  - destruct (receive_slot_of ev (Page.network a)) as [->|[slot ->]]; [done|].
    destruct (slot_of slot (Page.network a)) as [[j|]|] eqn:Ej; [| |done].
    + cbn. destruct (Page.coordinators a !! j) as [c|]; [|done].
      destruct (Page.coordinator_event now ev) as [e|]; [|done]. cbn.
      apply list_lookup_insert_ne. destruct H as [H1 _].
      destruct (H1 slot j Ej) as [_ E]. lia.
    + cbn. by destruct ev.
  - destruct (Page.the_coordinator a); [|done].
    by apply with_coordinator_earlier.
  - done.
  - done.
Qed.

(** ** The theorems at work *)


(** C2 at work: a first job of 20 steps and three candidates. *)
Lemma C2_witness :
  let s := first_job_taken in
  let t := active_job s in
  let candidates := _getAvailableWorkers s in
  currentTask s = Some t /\
  options t = Some (make_options no_options) /\
  1 <= steps (make_options no_options) /\
  (1 <= length candidates)%nat /\
  exists t' cs,
    currentTask (_distributeWork 1000 t candidates s) = Some t' /\
    chunks t' = Some cs /\ (1 <= length cs <= length candidates)%nat.
Proof.
  intros s t candidates.
  assert (H1 : currentTask s = Some t) by (vm_compute; reflexivity).
  assert (H2 : options t = Some (make_options no_options))
    by (vm_compute; reflexivity).
  assert (H3 : 1 <= steps (make_options no_options)) by (vm_compute; discriminate).
  assert (H4 : (1 <= length candidates)%nat) by (vm_compute; lia).
  split; [exact H1|]. split; [exact H2|]. split; [exact H3|].
  split; [exact H4|].
  destruct (C2_chunks_partition 1000 s t (make_options no_options) candidates
              H1 H2 H3 H4) as (t' & cs & Ha & _ & Hb & Hc & _).
  exists t', cs. split; [exact Ha|]. split; [exact Hb|exact Hc].
Defined.

(** C3 at work: the coordinator has a GPU of its own and runs chunk_0;
    peerA leaves while it holds chunk_1.  The chunk goes into a task
    message addressed to the coordinator itself, and nothing is started
    locally. *)
Lemma C3_witness :
  let s := local_and_peer_busy in
  let s' := _handleWorkerDisconnect 5000 "peerA" s in
  reachable "me" s /\
  JSMap.get "peerA" (workers s) = Some peerA_working /\
  (exists workerTask,
      chunk_id (wt_chunk workerTask) = "chunk_1" /\
      trace s' = trace s ++ [BroadcastTask workerTask ["me"]]) /\
  pending s' = pending s.
Proof.
  intros s s'.
  assert (H0 : reachable "me" s) by apply reachable_run.
  assert (H1 : JSMap.get "peerA" (workers s) = Some peerA_working)
    by (vm_compute; reflexivity).
  split; [exact H0|]. split; [exact H1|].
  destruct (C3_departure_goes_to_first_candidate "me" 5000 "peerA" s H0)
    as (_ & _ & H).
  destruct (H peerA_working "chunk_1" (active_job s) (active_chunks s)
              (new_chunk "task_1000_abc" 20 10 1) (make_options no_options)
              H1 eq_refl
              ltac:(vm_compute; reflexivity) ltac:(vm_compute; reflexivity)
              ltac:(vm_compute; reflexivity) ltac:(vm_compute; discriminate)
              ltac:(vm_compute; reflexivity) ltac:(vm_compute; reflexivity))
    as (t' & i & c' & _ & _ & _ & _ & Hid & _ & _ & _ & _ & _ & _ & _ & _ & _
        & _ & _ & Hm).
  cbv zeta in Hm.
  assert (Hc : _getAvailableWorkers s
               = [{| cand_id := "me"; cand_capabilities := gpu;
                     isLocal := true |}]) by (vm_compute; reflexivity).
  rewrite Hc in Hm. destruct Hm as (Htr & Hp & _).
  split; [|exact Hp].
  exists {| wt_task := t'; wt_chunk := c' |}. split; [exact Hid|exact Htr].
Defined.

(** C5 at work: the first job of a coordinator alone in its room. *)
Lemma C5_witness :
  let s := first_job_queued in
  let t := new_task 1000 "abc" (Some "a cat") "" no_options (new_coordinator "me") in
  currentTask s = None /\
  queue s = [t] /\
  _getAvailableWorkers s = [] /\
  options t = Some (make_options no_options) /\
  0 < steps (make_options no_options) /\
  pending (_processNextTask 1000 s)
  = [ProcessLocally (set_status "processing" t) 20 0] /\
  active_chunks (_processNextTask 1000 s) = [].
Proof.
  intros s t.
  assert (H1 : currentTask s = None) by reflexivity.
  assert (H2 : queue s = [t]) by reflexivity.
  assert (H3 : _getAvailableWorkers s = []) by reflexivity.
  assert (H4 : options t = Some (make_options no_options)) by reflexivity.
  assert (H5 : 0 < steps (make_options no_options)) by reflexivity.
  split; [exact H1|]. split; [exact H2|]. split; [exact H3|].
  split; [exact H4|]. split; [exact H5|].
  destruct (C5_no_candidate_runs_whole_job_locally 1000 s t []
              (make_options no_options) H1 H2 H3 H4 H5)
    as (Hc & _ & _ & Hp & _).
  split; [exact Hp|]. unfold active_chunks. rewrite Hc. reflexivity.
Defined.


(** C10 at work: a projection names the job that is active. *)
Lemma C10_witness :
  let s := alone_busy in
  let queueData := {| tasks := Some [active_entry] |} in
  currentTask s = Some (active_job s) /\
  active_entry ∈ default [] (tasks queueData) /\
  wire_id active_entry = task_id (active_job s) /\
  currentTask (_syncQueue queueData "peerA" s) = Some (active_job s) /\
  task_id (active_job s) ∈ ids (queue (_syncQueue queueData "peerA" s)).
Proof.
  intros s queueData.
  assert (H1 : currentTask s = Some (active_job s)) by (vm_compute; reflexivity).
  assert (H2 : active_entry ∈ default [] (tasks queueData))
    by (apply list_elem_of_here).
  assert (H3 : wire_id active_entry = task_id (active_job s))
    by (vm_compute; reflexivity).
  split; [exact H1|]. split; [exact H2|]. split; [exact H3|].
  destruct (C10_active_job_requeued queueData "peerA" s (active_job s)
              active_entry H1 H2 H3) as (Ha & Hb & _).
  split; [exact Ha|exact Hb].
Defined.

(** ** The further theorems at work *)

(** X6 at work: a pending entry of a peer's projection is merged and
    taken; a timer, a result and a departure later it is still the active
    job. *)
Lemma X6_witness :
  let s := run [NetQueueUpdate {| tasks := Some [pending_entry] |} "peerA"]
             (new_coordinator "me") in
  let t := of_wire 0 None pending_entry in
  let events := [Tick 3000 0%nat; NetResult 3100 chunk1_complete "peerA";
                 PeerLeave 3200 "peerA"] in
  currentTask s = None /\
  queue s = [t] /\
  currentTask (run events (_processNextTask 2000 s))
  = Some (set_status "processing" t).
Proof.
  intros s t events.
  assert (H1 : currentTask s = None) by reflexivity.
  assert (H2 : queue s = [t]) by reflexivity.
  split; [exact H1|]. split; [exact H2|].
  destruct (X6_job_without_options_blocks 2000 s t [] events H1 H2
              eq_refl eq_refl eq_refl (Forall_nil_2 _)) as (_ & H & _).
  exact H.
Defined.

(** X7 at work: the job of a coordinator alone in its room, 20 steps,
    suspended in its first iteration. *)
Lemma X7_witness :
  let s := alone_subscribed_busy in
  let job := active_job s in
  currentTask s = Some job /\
  pending s = [ProcessLocally job 20 0] /\
  queue s = [] /\
  currentTask (run (ticks (repeat 2000 19 ++ [3000])) s) = None.
Proof.
  intros s job.
  assert (H1 : currentTask s = Some job) by (vm_compute; reflexivity).
  assert (H2 : pending s = [ProcessLocally job 20 0]) by (vm_compute; reflexivity).
  assert (H3 : queue s = []) by (vm_compute; reflexivity).
  split; [exact H1|]. split; [exact H2|]. split; [exact H3|].
  destruct (X7_local_run_completes s job 20 0 (repeat 2000 19) 3000 H1 H2 H3
              ltac:(vm_compute; reflexivity)) as (_ & H & _).
  exact H.
Defined.

(** X10 at work: peer p1 holds chunk_0; its result, a progress report and
    a timer later its entry still says working. *)
Lemma X10_witness :
  let before := [NetCapabilities gpu "p1"; NetCapabilities gpu "p2";
                 NetCapabilities gpu "p3";
                 AddTask 1000 "abc" (Some "a cat") "" no_options] in
  let events := [NetResult 3000 chunk0_again "p1";
                 NetProgress {| progress_taskId := "task_1000_abc";
                                progress_value := 1%Q |} "p1";
                 Tick 4000 0%nat] in
  let s := run before (new_coordinator "me") in
  JSMap.get "p1" (workers s) = Some p1_working /\
  Forall (fun e => ~ resets "p1" e) events /\
  exists w', JSMap.get "p1" (workers (run events s)) = Some w' /\
             worker_status w' = "working".
Proof.
  intros before events s.
  assert (H1 : JSMap.get "p1" (workers s) = Some p1_working)
    by (vm_compute; reflexivity).
  assert (H2 : Forall (fun e => ~ resets "p1" e) events).
  { repeat constructor; intros H; exact H. }
  split; [exact H1|]. split; [exact H2|].
  destruct (X10_working_entry_stays_working "me" before events "p1" p1_working
              H1 eq_refl H2) as [H _].
  exact H.
Defined.

(** X18 at work: a page without a backend joins a room; the departure of
    a peer then leaves its coordinator as it is. *)
Lemma X18_witness :
  let a := Page.run [Page.Click "room"] (Page.new_page "me" gpu false) in
  Page.isConnected a = true /\
  Page.coordinators (Page.step (Page.FromRoom 5000 (Network.PeerLeave "p1")) a)
  = Page.coordinators a.
Proof.
  intros a.
  assert (H1 : Page.isConnected a = true) by reflexivity.
  split; [exact H1|].
  destruct (X18_page_takes_over_the_peer_events "me" gpu false
              [Page.Click "room"] 5000 (Network.PeerLeave "p1") H1 I) as [_ H].
  exact H.
Defined.

(** X21 at work: an idle coordinator is sent a chunk of three steps. *)
Lemma X21_witness :
  let chunk := new_chunk "task_77_zzz" 20 3 0 in
  let o := make_options no_options in
  let task :=
    {| wire_id := "task_77_zzz"; wire_type := "process_chunk";
       wire_prompt := Some "a dog"; wire_status := "processing";
       wire_options := Some o; wire_chunks := None; wire_chunk := Some chunk;
       wire_createdAt := 77; wire_createdBy := "peerA" |} in
  let s := new_coordinator "me" in
  1 + Z.of_nat (length [2100; 2200]) = chunk_size chunk /\
  run (NetTask 2000 task "peerA" :: ticks ([2100; 2200] ++ [2300])) s
  = set_trace
      (trace s ++ chunk_progress_events "task_77_zzz" chunk (steps o)
                    false "me" 0 3)
      (set_nextOid 1 s).
Proof.
  intros chunk o task s.
  assert (H : 1 + Z.of_nat (length [2100; 2200]) = chunk_size chunk)
    by (vm_compute; reflexivity).
  split; [exact H|].
  exact (X21_result_of_a_remote_chunk_is_dropped s task chunk o "peerA" 2000
           [2100; 2200] 2300 eq_refl eq_refl eq_refl eq_refl eq_refl H).
Defined.

(** X22 at work: a coordinator with a GPU of its own, alone in its room,
    and a job of three steps. *)
Lemma X22_witness :
  let s := run [SetLocalCapabilities gpu] (new_coordinator "me") in
  let opts := {| arg_model := None; arg_steps := Some 3; arg_width := None;
                 arg_height := None |} in
  let self := {| cand_id := "me"; cand_capabilities := gpu; isLocal := true |} in
  _getAvailableWorkers s = [self] /\
  1 + Z.of_nat (length [2100; 2200]) = steps (make_options opts) /\
  currentTask
    (run (ticks ([2100; 2200] ++ [2300]))
       (handle (AddTask 2000 "abc" (Some "a cat") "" opts) s))
  = None.
Proof.
  intros s opts self.
  assert (H1 : _getAvailableWorkers s = [self]) by reflexivity.
  assert (H2 : 1 + Z.of_nat (length [2100; 2200]) = steps (make_options opts))
    by reflexivity.
  split; [exact H1|]. split; [exact H2|].
  destruct (X22_lone_gpu_worker_completes s 2000 "abc" (Some "a cat") "" opts
              self [2100; 2200] 2300 eq_refl eq_refl eq_refl H1 eq_refl H2)
    as (_ & _ & _ & H & _).
  exact H.
Defined.

(** X23 at work: the page joins a room, leaves it and joins another; a
    task sent in the second room does not reach the first coordinator. *)
Lemma X23_witness :
  let events := [Page.Click "room"; Page.Click "room"; Page.Click "other"] in
  let a := Page.run events (Page.new_page "me" gpu false) in
  let e := Page.FromRoom 5000 (Network.GetTask pending_entry "peerA") in
  (S 0 < length (Page.coordinators a))%nat /\
  Page.coordinators (Page.step e a) !! 0%nat = Page.coordinators a !! 0%nat.
Proof.
  intros events a e.
  assert (H : (S 0 < length (Page.coordinators a))%nat) by (vm_compute; lia).
  split; [exact H|].
  exact (X23_earlier_coordinators_are_cut_off "me" gpu false events e 0 H I).
Defined.

(** X16 at work: a task with a number as prompt is posted to a room; the
    listing of the room fails, also after a further task is posted. *)
Lemma X16_witness :
  let numeric := {| Server.id := Some "t1"; Server.prompt := Server.Other;
                    Server.createdAt := Some 1000 |} in
  let text := {| Server.id := Some "t2"; Server.prompt := Server.Text [97%N];
                 Server.createdAt := Some 2000 |} in
  let events := [Server.Post 1000 "room" (Some numeric)] in
  let more := [Server.Post 2000 "room" (Some text)] in
  let st := Server.run events Server.initial in
  Exists unsliceable (Server.room_queue "room" st) /\
  Forall not_cleanup more /\
  Server.get_queue "room" (Server.run more st) = Server.InternalError.
Proof.
  intros numeric text events more st.
  assert (H1 : Exists unsliceable (Server.room_queue "room" st))
    by (by apply Exists_cons_hd).
  assert (H2 : Forall not_cleanup more) by (by repeat constructor).
  split; [exact H1|]. split; [exact H2|].
  exact (proj1 (X16_listing_of_a_room events "room") H1 more H2).
Defined.
